(** * WACC Studio: the form component [WaccForm.js]

    A shallow embedding of the numeric logic of [src/WaccForm.js]: the
    normalisation of the form fields done by [submit], the values derived
    for the formula panel ([E_rupees] ... [waccComputed]) and the
    formatting helper [fmt].

    JavaScript numbers are IEEE 754 binary64 values; they are modelled by
    [spec_float] with the operations of [SpecFloat] at precision 53 and
    maximal exponent 1024, so that rounding, overflow, infinities and NaN
    are those of the running program. *)

From Stdlib Require Import ZArith QArith Qabs Qpower Lia Lqa Bool List.
From Stdlib Require Import Ascii String.
From Stdlib Require Import Floats.SpecFloat.
From stdpp Require Import base option gmap strings.

Local Open Scope Z_scope.

(* ===================================================================== *)
(** * JavaScript numbers *)
(* ===================================================================== *)

Definition prec : Z := 53.
Definition emax : Z := 1024.

Abbreviation float := spec_float.

Definition fadd : float -> float -> float := SFadd prec emax.
Definition fsub : float -> float -> float := SFsub prec emax.
Definition fmul : float -> float -> float := SFmul prec emax.
Definition fdiv : float -> float -> float := SFdiv prec emax.

(** [a > b] and [a >= b] on numbers (false as soon as one side is NaN). *)
Definition fgt (a b : float) : bool := SFltb b a.
Definition fge (a b : float) : bool := SFleb b a.

Definition pzero : float := S754_zero false.
Definition pinf : float := S754_infinity false.

(** [Number.isNaN] on a number. *)
Definition is_nan (x : float) : bool :=
  match x with S754_nan => true | _ => false end.

(** [Number.isFinite] on a number. *)
Definition is_finite (x : float) : bool :=
  match x with S754_zero _ | S754_finite _ _ _ => true | _ => false end.

Definition sign_bit (x : float) : bool :=
  match x with
  | S754_zero s | S754_infinity s | S754_finite s _ _ => s
  | S754_nan => false
  end.

(** The number denoted by an integer literal. *)
Definition of_Z (n : Z) : float := binary_normalize prec emax n 0 false.

(** A bound on the number of decimal digits of [m]: that of its bits. *)
Definition digits_bound (m : positive) : Z := Zpos (Pos.size m).

(** The number nearest to [(-1)^s * m * 10^e], the value of a decimal
    literal with digits [m] and decimal exponent [e].  The exponent is
    clamped first: a non-zero literal above [10^400] is infinite, one
    below [10^-400] is zero.  Otherwise the integer, or the quotient of
    two integers, is rounded once, to nearest with ties to even. *)

Definition of_decimal (s : bool) (m : N) (e : Z) : float :=
  match m with
  | N0 => S754_zero s
  | Npos p =>
      if 400 <? e then S754_infinity s
      else if 0 <=? e then binary_round prec emax s (p * Z.to_pos (10 ^ e)) 0
      else if e + digits_bound p <? -400 then S754_zero s
      else
        let '(q, e', l) := SFdiv_core_binary prec emax (Zpos p) 0 (10 ^ (- e)) 0 in
        binary_round_aux prec emax s q e' l
  end.

(** The exact value of a number, as a rational (0 for NaN and the
    infinities, which the statements exclude separately). *)
Definition pow2 (e : Z) : Q := (2 ^ e)%Q.

Definition F2Q (x : float) : Q :=
  match x with
  | S754_finite s m e =>
      ((if s then -1 else 1) * inject_Z (Zpos m) * pow2 e)%Q
  | _ => 0%Q
  end.

(* ===================================================================== *)
(** * Strings to numbers: [Number(s)] on a string (StringToNumber) *)
(* ===================================================================== *)

Local Open Scope string_scope.

Definition code (c : ascii) : N := N_of_ascii c.

Definition is_digit (c : ascii) : bool :=
  ((48 <=? code c) && (code c <=? 57))%N.

Definition digit_val (c : ascii) : N := (code c - 48)%N.

(** Value of an hexadecimal digit, if it is one. *)
Definition hex_val (c : ascii) : option N :=
  let n := code c in
  if ((48 <=? n) && (n <=? 57))%N then Some (n - 48)%N
  else if ((65 <=? n) && (n <=? 70))%N then Some (n - 55)%N
  else if ((97 <=? n) && (n <=? 102))%N then Some (n - 87)%N
  else None.

(** Strings are sequences of UTF-8 bytes.  [skip_ws] drops the leading
    StrWhiteSpaceChar characters: TAB, LF, VT, FF, CR, SP, and the
    encodings of U+00A0, U+1680, U+2000..U+200A, U+2028, U+2029, U+202F,
    U+205F, U+3000 and U+FEFF. *)
Definition is_ascii_ws (c : ascii) : bool :=
  let n := code c in
  ((n =? 9) || (n =? 10) || (n =? 11) || (n =? 12) || (n =? 13) || (n =? 32))%N.

Definition is_ws3 (a b c : N) : bool :=
  (((a =? 225) && (b =? 154) && (c =? 128))
   || ((a =? 226) && (b =? 128)
        && ((128 <=? c) && (c <=? 138) || (c =? 168) || (c =? 169) || (c =? 175)))
   || ((a =? 226) && (b =? 129) && (c =? 159))
   || ((a =? 227) && (b =? 128) && (c =? 128))
   || ((a =? 239) && (b =? 187) && (c =? 191)))%N.

Fixpoint skip_ws (s : string) : string :=
  match s with
  | String a r =>
      if is_ascii_ws a then skip_ws r
      else
        match r with
        | String b r' =>
            if ((code a =? 194) && (code b =? 160))%N then skip_ws r'
            else
              match r' with
              | String c r'' =>
                  if is_ws3 (code a) (code b) (code c) then skip_ws r'' else s
              | EmptyString => s
              end
        | EmptyString => s
        end
  | EmptyString => s
  end.

Fixpoint rev_string (acc s : string) : string :=
  match s with
  | EmptyString => acc
  | String a r => rev_string (String a acc) r
  end.

(** The same on a reversed string: the byte sequences are read backwards. *)
Fixpoint skip_ws_rev (s : string) : string :=
  match s with
  | String a r =>
      if is_ascii_ws a then skip_ws_rev r
      else
        match r with
        | String b r' =>
            if ((code b =? 194) && (code a =? 160))%N then skip_ws_rev r'
            else
              match r' with
              | String c r'' =>
                  if is_ws3 (code c) (code b) (code a) then skip_ws_rev r'' else s
              | EmptyString => s
              end
        | EmptyString => s
        end
  | EmptyString => s
  end.

Definition trim (s : string) : string :=
  rev_string "" (skip_ws_rev (rev_string "" (skip_ws s))).

(** Reads a maximal run of decimal digits: their value, their number, and
    the rest of the string. *)
Fixpoint read_digits (acc : N) (n : nat) (s : string) : N * nat * string :=
  match s with
  | String c r =>
      if is_digit c then read_digits (10 * acc + digit_val c)%N (S n) r
      else (acc, n, s)
  | EmptyString => (acc, n, s)
  end.

(** Digits of a literal in base 2, 8 or 16, up to the end of the string. *)
Fixpoint read_radix (base : N) (acc : N) (s : string) : option N :=
  match s with
  | EmptyString => Some acc
  | String c r =>
      match hex_val c with
      | Some d => if (d <? base)%N then read_radix base (base * acc + d)%N r else None
      | None => None
      end
  end.

(** ExponentPart, optional: [e] or [E], an optional sign, one digit at
    least; nothing may follow it. *)
Definition read_exponent (s : string) : option Z :=
  match s with
  | EmptyString => Some 0
  | String c r =>
      if ((code c =? 101) || (code c =? 69))%N then
        let '(neg, r1) :=
          match r with
          | String "-" r' => (true, r')
          | String "+" r' => (false, r')
          | _ => (false, r)
          end in
        match read_digits 0 0 r1 with
        | (v, S _, EmptyString) => Some (if neg then - Z.of_N v else Z.of_N v)
        | _ => None
        end
      else None
  end.

(** StrUnsignedDecimalLiteral with the sign [s] already read. *)
Definition unsigned_decimal (s : bool) (str : string) : float :=
  if String.eqb str "Infinity" then S754_infinity s
  else
    let '(int_v, int_n, r) := read_digits 0 0 str in
    let '(mant, frac_n, r1) :=
      match r with
      | String "." r' => read_digits int_v 0 r'
      | _ => (int_v, O, r)
      end in
    match (int_n + frac_n)%nat with
    | O => S754_nan
    | S _ =>
        match read_exponent r1 with
        | Some e => of_decimal s mant (e - Z.of_nat frac_n)
        | None => S754_nan
        end
    end.

Definition radix_literal (base : N) (digits : string) : float :=
  match digits with
  | EmptyString => S754_nan
  | _ =>
      match read_radix base 0 digits with
      | Some v => of_Z (Z.of_N v)
      | None => S754_nan
      end
  end.

(** [Number(s)] for a string [s]. *)
Definition StringToNumber (s : string) : float :=
  match trim s with
  | EmptyString => pzero
  | String "0" (String "x" r) | String "0" (String "X" r) => radix_literal 16 r
  | String "0" (String "o" r) | String "0" (String "O" r) => radix_literal 8 r
  | String "0" (String "b" r) | String "0" (String "B" r) => radix_literal 2 r
  | String "-" r => unsigned_decimal true r
  | String "+" r => unsigned_decimal false r
  | t => unsigned_decimal false t
  end.


(* ===================================================================== *)
(** * JavaScript values *)
(* ===================================================================== *)

(** The primitive values that occur in the form state, in the request
    body and as the scalar fields of a response. *)
Inductive jsval :=
  | JSUndefined
  | JSNull
  | JSBool (b : bool)
  | JSNumber (x : float)
  | JSString (s : string).

(** [typeof v === "number"] *)
Definition typeof_number (v : jsval) : bool :=
  match v with JSNumber _ => true | _ => false end.

Definition nullish (v : jsval) : bool :=
  match v with JSUndefined | JSNull => true | _ => false end.

(** [a ?? b] *)
Definition coalesce (a b : jsval) : jsval := if nullish a then b else a.

(** ToBoolean *)
Definition truthy (v : jsval) : bool :=
  match v with
  | JSUndefined | JSNull => false
  | JSBool b => b
  | JSNumber (S754_zero _) | JSNumber S754_nan => false
  | JSNumber _ => true
  | JSString s => negb (String.eqb s "")
  end.

(** [a || b] *)
Definition js_or (a b : jsval) : jsval := if truthy a then a else b.

(** [Number(v)], that is ToNumber. *)
Definition Number_ (v : jsval) : float :=
  match v with
  | JSUndefined => S754_nan
  | JSNull => pzero
  | JSBool b => if b then of_Z 1 else pzero
  | JSNumber x => x
  | JSString s => StringToNumber s
  end.

(** [Number.isNaN(v)]: no coercion, only the number NaN qualifies. *)
Definition Number_isNaN (v : jsval) : bool :=
  match v with JSNumber x => is_nan x | _ => false end.

(** The arithmetic operators convert both operands with ToNumber. *)
Definition js_mul (a b : jsval) : float := fmul (Number_ a) (Number_ b).
Definition js_div (a b : jsval) : float := fdiv (Number_ a) (Number_ b).
Definition js_sub (a b : jsval) : float := fsub (Number_ a) (Number_ b).

(** [o?.k] for a response body [o] that may be [null]: a missing key
    reads as [undefined]. *)
Definition opt_get (o : option (gmap string jsval)) (k : string) : jsval :=
  default JSUndefined (o ≫= (.!! k)).

(* ===================================================================== *)
(** * The form and the request built by [submit] *)
(* ===================================================================== *)

(** The state [form]: the raw text of the eight inputs. *)
Record form := {
  equityValue : string;
  debtValue : string;
  re : string;
  rf : string;
  beta : string;
  marketRiskPremium : string;
  rd : string;
  taxRate : string
}.

(** The initial state, also the one [clear] restores. *)
Definition empty_form : form :=
  {| equityValue := ""; debtValue := ""; re := ""; rf := ""; beta := "";
     marketRiskPremium := ""; rd := ""; taxRate := "" |}.

Definition croreToRupees : float := of_Z 10000000.

Definition toDecimal (val : string) : jsval :=
  if String.eqb val "" then JSUndefined
  else JSNumber (js_div (JSNumber (Number_ (JSString val))) (JSNumber (of_Z 100))).

(** The object literal [payload] of [submit]. *)
Definition payload_base (f : form) : gmap string jsval :=
  {[ "equityValue" :=
       JSNumber (fmul (Number_ (js_or (JSString (equityValue f)) (JSNumber pzero)))
                      croreToRupees);
     "debtValue" :=
       JSNumber (fmul (Number_ (js_or (JSString (debtValue f)) (JSNumber pzero)))
                      croreToRupees);
     "rd" := toDecimal (rd f);
     "taxRate" := toDecimal (taxRate f) ]}.

(** [payload] as it is posted: [re] when the field is filled, else the
    three CAPM inputs when all of them are. *)
Definition payload (f : form) : gmap string jsval :=
  if negb (String.eqb (re f) "") then
    <["re" := toDecimal (re f)]> (payload_base f)
  else if negb (String.eqb (rf f) "") && negb (String.eqb (beta f) "")
          && negb (String.eqb (marketRiskPremium f) "") then
    <["marketRiskPremium" := toDecimal (marketRiskPremium f)]>
      (<["beta" := JSNumber (Number_ (JSString (beta f)))]>
         (<["rf" := toDecimal (rf f)]> (payload_base f)))
  else payload_base f.

(** What the request to the service comes to: the body of the response
    ([res.data], possibly [null]), or the error caught, of which the
    handler reads [err.response?.data?.error] and [err.message]. *)
Inductive outcome :=
  | Resolved (data : option (gmap string jsval))
  | Rejected (response_error message : jsval).

(** The state of the component that the computation reads and writes. *)
Record state := {
  st_form : form;
  st_result : option (gmap string jsval);
  st_error : jsval
}.

(** [submit]: the error and the result are reset, the request is
    posted, and the state is set from its outcome. *)
Definition submit (service : gmap string jsval -> outcome) (st : state) : state :=
  match service (payload (st_form st)) with
  | Resolved data =>
      {| st_form := st_form st; st_result := data; st_error := JSString "" |}
  | Rejected response_error message =>
      {| st_form := st_form st; st_result := None;
         st_error := js_or (js_or response_error message)
                           (JSString "Request failed") |}
  end.

(* ===================================================================== *)
(** * Values of the formula panel *)
(* ===================================================================== *)

Definition croreToNumber (cr : jsval) : float :=
  fmul (Number_ (js_or cr (JSNumber pzero))) (of_Z 10000000).

Definition E_rupees (f : form) : float := croreToNumber (JSString (equityValue f)).
Definition D_rupees (f : form) : float := croreToNumber (JSString (debtValue f)).
Definition V_rupees (f : form) : float := fadd (E_rupees f) (D_rupees f).

(** [result?.k ?? (field ? Number(field) / 100 : undefined)] *)
Definition rate_dec (result : option (gmap string jsval)) (k field : string) : jsval :=
  coalesce (opt_get result k)
    (if truthy (JSString field)
     then JSNumber (js_div (JSNumber (Number_ (JSString field))) (JSNumber (of_Z 100)))
     else JSUndefined).

Definition Re_dec (f : form) (result : option (gmap string jsval)) : jsval :=
  rate_dec result "re" (re f).
Definition Rd_dec (f : form) (result : option (gmap string jsval)) : jsval :=
  rate_dec result "rd" (rd f).
Definition Tc_dec (f : form) (result : option (gmap string jsval)) : jsval :=
  rate_dec result "taxRate" (taxRate f).

Definition weightE_input (f : form) : jsval :=
  if fgt (V_rupees f) pzero then JSNumber (fdiv (E_rupees f) (V_rupees f))
  else JSUndefined.

Definition weightD_input (f : form) : jsval :=
  if fgt (V_rupees f) pzero then JSNumber (fdiv (D_rupees f) (V_rupees f))
  else JSUndefined.

Definition weightE (f : form) (result : option (gmap string jsval)) : jsval :=
  if typeof_number (opt_get result "weightE") then opt_get result "weightE"
  else coalesce (coalesce (weightE_input f) (opt_get result "weightE")) (JSNumber pzero).

Definition weightD (f : form) (result : option (gmap string jsval)) : jsval :=
  if typeof_number (opt_get result "weightD") then opt_get result "weightD"
  else coalesce (coalesce (weightD_input f) (opt_get result "weightD")) (JSNumber pzero).

Definition waccComputed (f : form) (result : option (gmap string jsval)) : float :=
  fadd
    (if typeof_number (weightE f result) && typeof_number (Re_dec f result)
     then js_mul (weightE f result) (Re_dec f result)
     else pzero)
    (if typeof_number (weightD f result) && typeof_number (Rd_dec f result)
        && typeof_number (Tc_dec f result)
     then fmul (js_mul (weightD f result) (Rd_dec f result))
               (js_sub (JSNumber (of_Z 1)) (Tc_dec f result))
     else pzero).



(* ===================================================================== *)
(** * The formatting helper [fmt] *)
(* ===================================================================== *)

Definition digit_char (d : N) : ascii := ascii_of_N (48 + d).

(** The last [k] decimal digits of [n], zero padded, in front of [acc]. *)
Fixpoint frac_digits (k : nat) (n : N) (acc : string) : string :=
  match k with
  | O => acc
  | S k' => frac_digits k' (n / 10) (String (digit_char (n mod 10)) acc)
  end.

(** The decimal digits of [n] in groups of three separated by commas, in
    front of [acc]; [cnt] digits of the current group are already in
    [acc]. *)
Fixpoint int_digits (fuel : nat) (n : N) (cnt : nat) (acc : string) : string :=
  let acc1 := if (cnt =? 3)%nat then String "," acc else acc in
  let cnt1 := if (cnt =? 3)%nat then 1%nat else S cnt in
  let acc2 := String (digit_char (n mod 10)) acc1 in
  match fuel with
  | O => acc2
  | S fuel' =>
      if (n / 10 =? 0)%N then acc2 else int_digits fuel' (n / 10) cnt1 acc2
  end.

(** U+221E, the infinity sign. *)
Definition infinity_sign : string :=
  String (ascii_of_N 226) (String (ascii_of_N 136) (String (ascii_of_N 158) "")).

(** Number of characters after the last decimal point of a rendering
    (0 when there is none). *)
Fixpoint after_point (s : string) (cur : option nat) : option nat :=
  match s with
  | EmptyString => cur
  | String c r => after_point r (if Ascii.eqb c "." then Some O else S <$> cur)
  end.

Definition fraction_digits (s : string) : nat := default O (after_point s None).

(** Rounding to [dp] decimals by the rule of ECMA-402 (half away from
    zero) on the exact value of the number: the integer nearest to
    [|x| * 10^dp]. *)
Definition round_half_expand (x : float) (dp : nat) : N :=
  match x with
  | S754_finite _ m e =>
      let n := (Zpos m * 10 ^ Z.of_nat dp)%Z in
      Z.to_N (if (0 <=? e)%Z then n * 2 ^ e else (2 * n + 2 ^ (- e)) / 2 ^ (- e + 1))%Z
  | _ => 0%N
  end.

Section Format.

(** [Number.prototype.toLocaleString] belongs to the host.  Its output
    for the options [{minimumFractionDigits: dp, maximumFractionDigits:
    dp}] is modelled for the locale en-US: sign, integer digits grouped
    by three, and [dp] fraction digits.  The integer [round_scaled x dp]
    is the host's rounding of [|x| * 10^dp]; engines differ on the
    decimal expansion they round, so it is left open
    ([round_half_expand] is the rule of the standard). *)
Variable round_scaled : float -> nat -> N.

Definition format_finite (x : float) (dp : nat) : string :=
  let n := round_scaled x dp in
  let ip := (n / 10 ^ N.of_nat dp)%N in
  let fp := (n mod 10 ^ N.of_nat dp)%N in
  String.append (if sign_bit x then "-" else "")
    (String.append (int_digits (N.size_nat ip) ip 0 "")
       (match dp with
        | O => ""
        | S _ => String "." (frac_digits dp fp "")
        end)).

(** [None] is the RangeError raised for more than 100 fraction digits. *)
Definition toLocaleString (x : float) (dp : nat) : option string :=
  if (100 <? dp)%nat then None
  else Some (match x with
             | S754_nan => "NaN"
             | S754_infinity s =>
                 String.append (if s then "-" else "") infinity_sign
             | _ => format_finite x dp
             end).

(** [fmt(n, dp = 2)] *)
Definition fmt (n : jsval) (dp : option nat) : option string :=
  match n with
  | JSUndefined | JSNull => Some "-"
  | _ =>
      if Number_isNaN n then Some "-"
      else toLocaleString (Number_ n) (default 2%nat dp)
  end.

End Format.

(* ===================================================================== *)
(** * Vocabulary of the statements *)
(* ===================================================================== *)

(** A key of the request that carries no value: it is missing or
    [undefined] (either way it is left out of the serialised body). *)
Definition absent (o : option jsval) : Prop := o = None \/ o = Some JSUndefined.

(** The percentage inputs, by the key they are sent under. *)
Definition percent_field (f : form) (k : string) : option string :=
  if String.eqb k "re" then Some (re f)
  else if String.eqb k "rf" then Some (rf f)
  else if String.eqb k "marketRiskPremium" then Some (marketRiskPremium f)
  else if String.eqb k "rd" then Some (rd f)
  else if String.eqb k "taxRate" then Some (taxRate f)
  else None.

(** The currency inputs, by the key they are sent under. *)
Definition currency_field (f : form) (k : string) : option string :=
  if String.eqb k "equityValue" then Some (equityValue f)
  else if String.eqb k "debtValue" then Some (debtValue f)
  else None.

(** The form with other CAPM inputs. *)
Definition with_capm (f : form) (a b c : string) : form :=
  {| equityValue := equityValue f; debtValue := debtValue f; re := re f;
     rf := a; beta := b; marketRiskPremium := c;
     rd := rd f; taxRate := taxRate f |}.

(** The form with another cost of equity. *)
Definition with_re (f : form) (a : string) : form :=
  {| equityValue := equityValue f; debtValue := debtValue f; re := a;
     rf := rf f; beta := beta f; marketRiskPremium := marketRiskPremium f;
     rd := rd f; taxRate := taxRate f |}.

(** The worked scenario of the specification. *)
Definition scenario : form :=
  {| equityValue := "200"; debtValue := "50"; re := "12"; rf := ""; beta := "";
     marketRiskPremium := ""; rd := "5"; taxRate := "25" |}.

(** Other inputs used in the statements. *)

(** Equity and debt so large that their sum overflows. *)
Definition huge_form : form :=
  {| equityValue := "1e301"; debtValue := "1e301"; re := "12"; rf := "";
     beta := ""; marketRiskPremium := ""; rd := "5"; taxRate := "25" |}.

(** A cost of debt that is not a number. *)
Definition bad_rd_form : form :=
  {| equityValue := "200"; debtValue := "50"; re := "12"; rf := ""; beta := "";
     marketRiskPremium := ""; rd := "abc"; taxRate := "25" |}.

(** No cost of equity, and a CAPM triple without its beta. *)
Definition no_beta_form : form :=
  {| equityValue := "200"; debtValue := "50"; re := ""; rf := "4"; beta := "";
     marketRiskPremium := "6"; rd := "5"; taxRate := "25" |}.

(** A cost of equity together with a full CAPM triple. *)
Definition re_and_capm_form : form :=
  {| equityValue := "200"; debtValue := "50"; re := "12"; rf := "4";
     beta := "1.2"; marketRiskPremium := "6"; rd := "5"; taxRate := "25" |}.


(** The test of [submit] under which the CAPM inputs are sent: no cost
    of equity, and the three inputs filled in. *)
Definition capm_sent (f : form) : bool :=
  String.eqb (re f) "" && negb (String.eqb (rf f) "")
  && negb (String.eqb (beta f) "") && negb (String.eqb (marketRiskPremium f) "").
(* ===================================================================== *)
(** * Auxiliary notions of the proofs *)
(* ===================================================================== *)

(** No decimal point in a string. *)
Fixpoint no_point (s : string) : bool :=
  match s with
  | EmptyString => true
  | String c r => negb (Ascii.eqb c ".") && no_point r
  end.

(** A number whose exponent is within the range of the format (every
    number a computation produces is). *)
Definition good (x : float) : Prop :=
  match x with
  | S754_finite _ _ e => emin prec emax <= e
  | _ => True
  end.

(** A finite number that is non-negative and in range. *)
Definition nonneg_good (x : float) : Prop :=
  match x with
  | S754_zero _ => True
  | S754_finite false _ e => emin prec emax <= e
  | _ => False
  end.

(* ===================================================================== *)
(** * The events of the component *)
(* ===================================================================== *)

(** [handleChange]: [setForm({ ...form, [e.target.name]: v })].  The
    inputs carry the eight names of the state; under any other name the
    spread adds a key that nothing reads, and the eight fields stay. *)
Definition handleChange (name v : string) (f : form) : form :=
  if String.eqb name "equityValue" then
    {| equityValue := v; debtValue := debtValue f; re := re f; rf := rf f;
       beta := beta f; marketRiskPremium := marketRiskPremium f;
       rd := rd f; taxRate := taxRate f |}
  else if String.eqb name "debtValue" then
    {| equityValue := equityValue f; debtValue := v; re := re f; rf := rf f;
       beta := beta f; marketRiskPremium := marketRiskPremium f;
       rd := rd f; taxRate := taxRate f |}
  else if String.eqb name "re" then with_re f v
  else if String.eqb name "rf" then
    with_capm f v (beta f) (marketRiskPremium f)
  else if String.eqb name "beta" then
    with_capm f (rf f) v (marketRiskPremium f)
  else if String.eqb name "marketRiskPremium" then
    with_capm f (rf f) (beta f) v
  else if String.eqb name "rd" then
    {| equityValue := equityValue f; debtValue := debtValue f; re := re f;
       rf := rf f; beta := beta f; marketRiskPremium := marketRiskPremium f;
       rd := v; taxRate := taxRate f |}
  else if String.eqb name "taxRate" then
    {| equityValue := equityValue f; debtValue := debtValue f; re := re f;
       rf := rf f; beta := beta f; marketRiskPremium := marketRiskPremium f;
       rd := rd f; taxRate := v |}
  else f.

(** The text of a field, by the name of its input. *)
Definition field (name : string) (f : form) : option string :=
  if String.eqb name "equityValue" then Some (equityValue f)
  else if String.eqb name "debtValue" then Some (debtValue f)
  else if String.eqb name "re" then Some (re f)
  else if String.eqb name "rf" then Some (rf f)
  else if String.eqb name "beta" then Some (beta f)
  else if String.eqb name "marketRiskPremium" then Some (marketRiskPremium f)
  else if String.eqb name "rd" then Some (rd f)
  else if String.eqb name "taxRate" then Some (taxRate f)
  else None.

(** The handler [onResult] of [App]: the state [capitalBreak] it sets,
    [null] or [{ weightE: res.weightE, weightD: res.weightD }]. *)
Definition onResult (res : option (gmap string jsval)) : option (jsval * jsval) :=
  match res with
  | None => None
  | Some _ => Some (opt_get res "weightE", opt_get res "weightD")
  end.

(** The state of the page: that of the form component, whether a
    request is in flight ([loading]) and with which body, and the state
    [capitalBreak] of [App]. *)
Record page := {
  pg_state : state;
  pg_loading : bool;
  pg_pending : option (gmap string jsval);
  pg_capitalBreak : option (jsval * jsval)
}.

Definition initial_page : page :=
  {| pg_state := {| st_form := empty_form; st_result := None;
                    st_error := JSString "" |};
     pg_loading := false; pg_pending := None; pg_capitalBreak := None |}.

(** What happens to the page: an input is edited, Reset is pressed, the
    form is submitted, the request in flight comes to its outcome. *)
Inductive event :=
  | Change (name v : string)
  | Clear
  | Submit
  | Respond (service : gmap string jsval -> outcome).

(** [clear] *)
Definition clear (p : page) : page :=
  {| pg_state := {| st_form := empty_form; st_result := None;
                    st_error := JSString "" |};
     pg_loading := pg_loading p; pg_pending := pg_pending p;
     pg_capitalBreak := onResult None |}.

(** [submit] up to its [await]: error and result are reset, [loading]
    is set and the body built from the form is posted.  The submit button
    is disabled while [loading]. *)
Definition submit_start (p : page) : page :=
  if pg_loading p then p
  else
    {| pg_state := {| st_form := st_form (pg_state p); st_result := None;
                      st_error := JSString "" |};
       pg_loading := true;
       pg_pending := Some (payload (st_form (pg_state p)));
       pg_capitalBreak := pg_capitalBreak p |}.

(** [submit] from its [await] on: the [try] sets the result and calls
    [onResult] with it, the [catch] sets the error and calls
    [onResult(null)], the [finally] clears [loading]. *)
Definition submit_end (service : gmap string jsval -> outcome) (p : page) : page :=
  match pg_pending p with
  | None => p
  | Some body =>
      match service body with
      | Resolved data =>
          {| pg_state := {| st_form := st_form (pg_state p); st_result := data;
                            st_error := st_error (pg_state p) |};
             pg_loading := false; pg_pending := None;
             pg_capitalBreak := onResult data |}
      | Rejected response_error message =>
          {| pg_state := {| st_form := st_form (pg_state p);
                            st_result := st_result (pg_state p);
                            st_error := js_or (js_or response_error message)
                                              (JSString "Request failed") |};
             pg_loading := false; pg_pending := None;
             pg_capitalBreak := onResult None |}
      end
  end.

Definition step (p : page) (e : event) : page :=
  match e with
  | Change name v =>
      {| pg_state := {| st_form := handleChange name v (st_form (pg_state p));
                        st_result := st_result (pg_state p);
                        st_error := st_error (pg_state p) |};
         pg_loading := pg_loading p; pg_pending := pg_pending p;
         pg_capitalBreak := pg_capitalBreak p |}
  | Clear => clear p
  | Submit => submit_start p
  | Respond service => submit_end service p
  end.

(** The page after a sequence of events. *)
Definition run (events : list event) : page := fold_left step events initial_page.

(** What every page reached keeps: [loading] means a request is in
    flight, and then neither a result nor an error is set; a result
    excludes an error; outside of a request, [capitalBreak] is what
    [onResult] makes of the result. *)
Definition page_inv (p : page) : Prop :=
  (pg_loading p = true <-> is_Some (pg_pending p)) /\
  (pg_loading p = true ->
   st_result (pg_state p) = None /\ st_error (pg_state p) = JSString "") /\
  (is_Some (st_result (pg_state p)) -> st_error (pg_state p) = JSString "") /\
  (pg_loading p = false ->
   pg_capitalBreak p = onResult (st_result (pg_state p))).

(** A service that answers the worked scenario. *)
Definition scenario_response : gmap string jsval :=
  {[ "wacc" := JSNumber (StringToNumber "0.1035");
     "re" := JSNumber (StringToNumber "0.12");
     "rd" := JSNumber (StringToNumber "0.05");
     "taxRate" := JSNumber (StringToNumber "0.25");
     "weightE" := JSNumber (StringToNumber "0.8");
     "weightD" := JSNumber (StringToNumber "0.2") ]}.

Definition scenario_service (body : gmap string jsval) : outcome :=
  Resolved (Some scenario_response).

(** A service out of reach. *)
Definition failing_service (body : gmap string jsval) : outcome :=
  Rejected JSUndefined (JSString "Network Error").

(** A form with the three CAPM inputs and no cost of equity. *)
Definition capm_form : form :=
  {| equityValue := "200"; debtValue := "50"; re := ""; rf := "4";
     beta := "1.2"; marketRiskPremium := "6"; rd := "5"; taxRate := "25" |}.

(* ===================================================================== *)
(** * What is displayed *)
(* ===================================================================== *)

(** The decimal digits of [n], in front of [acc]. *)
Fixpoint plain_digits (fuel : nat) (n : N) (acc : string) : string :=
  let acc' := String (digit_char (n mod 10)) acc in
  match fuel with
  | O => acc'
  | S fuel' => if (n / 10 =? 0)%N then acc' else plain_digits fuel' (n / 10) acc'
  end.

(** The digits of [n / 10^fd] with [fd] decimals: those of [n], padded
    with zeros to [fd + 1] at least, a point before the last [fd]. *)
Definition fixed (n : N) (fd : nat) : string :=
  let ip := (n / 10 ^ N.of_nat fd)%N in
  let fp := (n mod 10 ^ N.of_nat fd)%N in
  String.append (plain_digits (N.size_nat ip) ip "")
    (match fd with
     | O => ""
     | S _ => String "." (frac_digits fd fp "")
     end).

(** [|x| >= 10^21] *)
Definition at_least_1e21 (x : float) : bool :=
  match x with
  | S754_finite _ m e =>
      if (0 <=? e)%Z then (10 ^ 21 <=? Zpos m * 2 ^ e)%Z
      else (10 ^ 21 * 2 ^ (- e) <=? Zpos m)%Z
  | S754_infinity _ => true
  | _ => false
  end.

Section Display.

(** The host's rounding in [toLocaleString], as for [fmt]. *)
Variable round_scaled : float -> nat -> N.

(** The text of a positive number from [10^21] on, in exponent notation
    (Number::toString); the standard leaves its last digit to the host. *)
Variable exponential : float -> string.

(** [x.toFixed(fd)]; [None] is the RangeError for more than 100 digits.
    Below [10^21] the digits are those of the integer nearest to
    [|x| * 10^fd], the larger one of two; a negative zero has no sign. *)
Definition toFixed (x : float) (fd : nat) : option string :=
  if (100 <? fd)%nat then None
  else Some (match x with
             | S754_nan => "NaN"
             | S754_infinity s => if s then "-Infinity" else "Infinity"
             | S754_zero _ => fixed 0 fd
             | S754_finite s m e =>
                 String.append (if s then "-" else "")
                   (if at_least_1e21 x then exponential (S754_finite false m e)
                    else fixed (round_half_expand x fd) fd)
             end).

(** [(v * 100).toFixed(2)], the form of every percentage shown. *)
Definition percent (v : jsval) : option string :=
  toFixed (js_mul v (JSNumber (of_Z 100))) 2.

(** A value of the result card, [(result.k * 100).toFixed(2)]: the
    WACC and the five rows of the breakdown, shown when there is a
    result. *)
Definition card_value (result : gmap string jsval) (k : string) : option string :=
  percent (opt_get (Some result) k).

(** The two percentages of the split shown by [App]. *)
Definition split_values (capitalBreak : jsval * jsval) : option string * option string :=
  (percent (fst capitalBreak), percent (snd capitalBreak)).

(** The rows [E], [D] and [V] of the formula panel. *)
Definition amount_row (x : float) : option string :=
  fmt round_scaled (JSNumber x) (Some O).

(** The rows [E / V] and [D / V]. *)
Definition weight_row (w : jsval) : option string :=
  (fun s => String.append s "%") <$> percent w.

(** The rows [Re], [Rd] and [Tc]:
    [v !== undefined ? (v * 100).toFixed(2) + "%" : "-"]. *)
Definition rate_row (v : jsval) : option string :=
  match v with
  | JSUndefined => Some "-"
  | _ => (fun s => String.append s "%") <$> percent v
  end.

(** The row [Computed]: [((result?.wacc ?? waccComputed) * 100).toFixed(2)]. *)
Definition computed_row (f : form) (result : option (gmap string jsval)) : option string :=
  percent (coalesce (opt_get result "wacc") (JSNumber (waccComputed f result))).

End Display.

(** A stand-in for the host's exponent notation, for the examples. *)
Definition no_exponential (x : float) : string := "".


(* ===================================================================== *)
(** * One component of the capital only *)
(* ===================================================================== *)

(** The number 1, as the division of a number by itself gives it. *)
Definition float_one : float := S754_finite false 4503599627370496 (-52).

(** The form with equity and debt exchanged. *)
Definition swap_form (f : form) : form :=
  {| equityValue := debtValue f; debtValue := equityValue f; re := re f;
     rf := rf f; beta := beta f; marketRiskPremium := marketRiskPremium f;
     rd := rd f; taxRate := taxRate f |}.

(** A firm without debt, and one without equity. *)
Definition equity_only_form : form :=
  {| equityValue := "200"; debtValue := ""; re := "12"; rf := ""; beta := "";
     marketRiskPremium := ""; rd := "5"; taxRate := "25" |}.

Definition debt_only_form : form :=
  {| equityValue := "0"; debtValue := "50"; re := "12"; rf := ""; beta := "";
     marketRiskPremium := ""; rd := "5"; taxRate := "25" |}.
(* ===================================================================== *)
(** * Properties *)
(* ===================================================================== *)

(** ** Reading numbers *)

Example StringToNumber_examples :
  StringToNumber "200" = of_Z 200 /\
  StringToNumber " 12.5 " = StringToNumber "125e-1" /\
  StringToNumber "0.1" = S754_finite false 7205759403792794 (-56) /\
  StringToNumber "" = pzero /\
  StringToNumber "-0" = S754_zero true /\
  StringToNumber "0x1F" = of_Z 31 /\
  StringToNumber "1e400" = pinf /\
  StringToNumber "5e-324" = S754_finite false 1 (-1074) /\
  StringToNumber "2e-324" = pzero /\
  StringToNumber "abc" = S754_nan /\
  StringToNumber "12px" = S754_nan /\
  StringToNumber "1,5" = S754_nan /\
  StringToNumber "." = S754_nan.
Proof. repeat split; vm_compute; reflexivity. Qed.

(** ** The local computation of the WACC *)

(** C1. When the weights and the three rates are numbers, the WACC
    computed locally is [weightE * Re + weightD * Rd * (1 - Tc)], the
    operations being those of the numbers, in this order. *)
Theorem waccComputed_formula (f : form) (r : option (gmap string jsval))
    (wE wD re_ rd_ tc : float) :
  weightE f r = JSNumber wE ->
  weightD f r = JSNumber wD ->
  Re_dec f r = JSNumber re_ ->
  Rd_dec f r = JSNumber rd_ ->
  Tc_dec f r = JSNumber tc ->
  waccComputed f r =
    fadd (fmul wE re_) (fmul (fmul wD rd_) (fsub (of_Z 1) tc)).
Proof.
  intros HwE HwD Hre Hrd Htc. unfold waccComputed.
  rewrite HwE, HwD, Hre, Hrd, Htc. reflexivity.
Qed.

Lemma waccComputed_formula_witness :
  waccComputed scenario None =
    fadd (fmul (StringToNumber "0.8") (StringToNumber "0.12"))
         (fmul (fmul (StringToNumber "0.2") (StringToNumber "0.05"))
               (fsub (of_Z 1) (StringToNumber "0.25"))).
Proof.
  apply (waccComputed_formula scenario None); vm_compute; reflexivity.
Defined.

(** ** The weights *)

(** C3. When [V = E + D > 0], the weights derived from the inputs are
    [E / V] and [D / V]; they are the final weights unless the response
    of the service carries a number for them. *)
Theorem weights_are_ratios (f : form) (r : option (gmap string jsval)) :
  fgt (V_rupees f) pzero = true ->
  V_rupees f = fadd (E_rupees f) (D_rupees f) /\
  weightE_input f = JSNumber (fdiv (E_rupees f) (V_rupees f)) /\
  weightD_input f = JSNumber (fdiv (D_rupees f) (V_rupees f)) /\
  (typeof_number (opt_get r "weightE") = false ->
   weightE f r = JSNumber (fdiv (E_rupees f) (V_rupees f))) /\
  (typeof_number (opt_get r "weightD") = false ->
   weightD f r = JSNumber (fdiv (D_rupees f) (V_rupees f))).
Proof.
  intros HV. unfold weightE, weightD, weightE_input, weightD_input.
  rewrite HV. repeat split; try reflexivity.
  - intros ->. reflexivity.
  - intros ->. reflexivity.
Qed.

Lemma weights_are_ratios_witness :
  weightE scenario None = JSNumber (fdiv (E_rupees scenario) (V_rupees scenario)) /\
  weightD scenario None = JSNumber (fdiv (D_rupees scenario) (V_rupees scenario)).
Proof.
  destruct (weights_are_ratios scenario None) as (_ & _ & _ & HE & HD);
    [ vm_compute; reflexivity | ].
  split; [ apply HE | apply HD ]; reflexivity.
Defined.

(** A response that supplies a number for a weight overrides the inputs. *)
Lemma weightE_prefers_result (f : form) (d : gmap string jsval) (x : float) :
  d !! "weightE" = Some (JSNumber x) -> weightE f (Some d) = JSNumber x.
Proof.
  intros H. unfold weightE, opt_get. simpl. rewrite H. reflexivity.
Qed.

Lemma weightD_prefers_result (f : form) (d : gmap string jsval) (x : float) :
  d !! "weightD" = Some (JSNumber x) -> weightD f (Some d) = JSNumber x.
Proof.
  intros H. unfold weightD, opt_get. simpl. rewrite H. reflexivity.
Qed.

Lemma SFeqb_zero_inv (x : float) :
  SFeqb x pzero = true -> exists s, x = S754_zero s.
Proof.
  destruct x as [s | s | | s m e]; simpl; try discriminate; eauto.
  - destruct s; discriminate.
  - destruct s; discriminate.
Qed.

(** C9. When [E] and [D] are both zero, no weight is derived from the
    inputs, and both weights are reported as 0 (whatever the rest of the
    form) as long as the response carries none. *)
Theorem zero_capital_weights (f : form) (r : option (gmap string jsval)) :
  SFeqb (E_rupees f) pzero = true ->
  SFeqb (D_rupees f) pzero = true ->
  nullish (opt_get r "weightE") = true ->
  nullish (opt_get r "weightD") = true ->
  weightE_input f = JSUndefined /\ weightD_input f = JSUndefined /\
  weightE f r = JSNumber pzero /\ weightD f r = JSNumber pzero.
Proof.
  intros HE HD HrE HrD.
  destruct (SFeqb_zero_inv _ HE) as [sE HEz].
  destruct (SFeqb_zero_inv _ HD) as [sD HDz].
  assert (HV : fgt (V_rupees f) pzero = false).
  { unfold V_rupees. rewrite HEz, HDz. destruct sE, sD; reflexivity. }
  unfold weightE, weightD, weightE_input, weightD_input. rewrite HV.
  destruct (opt_get r "weightE"); try discriminate;
    destruct (opt_get r "weightD"); try discriminate; repeat split.
Qed.

Lemma zero_capital_weights_witness :
  weightE empty_form None = JSNumber pzero /\
  weightD empty_form None = JSNumber pzero.
Proof.
  destruct (zero_capital_weights empty_form None) as (_ & _ & HE & HD);
    try (vm_compute; reflexivity).
  split; assumption.
Defined.

(** ** The worked scenario *)

(** C4. On the scenario [V] is 250 crore, the weights are 0.8 and 0.2
    and the rates 0.12, 0.05 and 0.25.  The WACC is 0.1035 in the
    floating-point arithmetic the specification prescribes: the number
    computed is the one that the last step [0.096 + 0.0075] of the
    specification gives, the number 0.10350000000000001, within 1e-16
    of 0.1035 and so within the tolerance 1e-9, and it is shown as
    10.35. *)
Theorem scenario_values :
  V_rupees scenario = fmul (of_Z 250) croreToRupees /\
  weightE scenario None = JSNumber (StringToNumber "0.8") /\
  weightD scenario None = JSNumber (StringToNumber "0.2") /\
  Re_dec scenario None = JSNumber (StringToNumber "0.12") /\
  Rd_dec scenario None = JSNumber (StringToNumber "0.05") /\
  Tc_dec scenario None = JSNumber (StringToNumber "0.25") /\
  waccComputed scenario None
    = fadd (StringToNumber "0.096") (StringToNumber "0.0075") /\
  waccComputed scenario None = StringToNumber "0.10350000000000001" /\
  (Qabs (F2Q (waccComputed scenario None) - (1035 # 10000)) <= 1 # 10 ^ 16)%Q /\
  (Qabs (F2Q (waccComputed scenario None) - (1035 # 10000)) <= 1 # 10 ^ 9)%Q /\
  percent no_exponential (JSNumber (waccComputed scenario None)) = Some "10.35".
Proof.
  repeat split; try (vm_compute; reflexivity);
    apply Qle_bool_imp_le; vm_compute; reflexivity.
Qed.

(** ** The request built by [submit] *)

Ltac map_lookup :=
  repeat first
    [ rewrite lookup_insert_eq
    | rewrite lookup_insert_ne by congruence
    | rewrite lookup_singleton_eq
    | rewrite lookup_singleton_ne by congruence
    | rewrite lookup_empty ].
Ltac case_key k :=
  match goal with
  | |- context [String.eqb k ?s] => destruct (String.eqb_spec k s) as [-> | ?]
  end.
Lemma payload_base_lookup (f : form) (k : string) :
  payload_base f !! k =
    if String.eqb k "equityValue" then
      Some (JSNumber (fmul (Number_ (js_or (JSString (equityValue f)) (JSNumber pzero)))
                           croreToRupees))
    else if String.eqb k "debtValue" then
      Some (JSNumber (fmul (Number_ (js_or (JSString (debtValue f)) (JSNumber pzero)))
                           croreToRupees))
    else if String.eqb k "rd" then Some (toDecimal (rd f))
    else if String.eqb k "taxRate" then Some (toDecimal (taxRate f))
    else None.
Proof.
  unfold payload_base.
  repeat (case_key k;
          [ map_lookup; reflexivity | ]).
  map_lookup. reflexivity.
Qed.

Lemma payload_lookup (f : form) (k : string) :
  payload f !! k =
    if String.eqb k "re" then
      if String.eqb (re f) "" then None else Some (toDecimal (re f))
    else if String.eqb k "rf" || String.eqb k "beta"
            || String.eqb k "marketRiskPremium" then
      if String.eqb (re f) ""
         && negb (String.eqb (rf f) "") && negb (String.eqb (beta f) "")
         && negb (String.eqb (marketRiskPremium f) "")
      then Some (if String.eqb k "rf" then toDecimal (rf f)
                 else if String.eqb k "beta" then JSNumber (StringToNumber (beta f))
                 else toDecimal (marketRiskPremium f))
      else None
    else payload_base f !! k.
Proof.
  unfold payload.
  destruct (String.eqb (re f) ""); simpl.
  - destruct (negb (String.eqb (rf f) "") && negb (String.eqb (beta f) "")
              && negb (String.eqb (marketRiskPremium f) "")) eqn:Hc; simpl.
    + repeat (case_key k;
              [ map_lookup; rewrite ?payload_base_lookup; reflexivity | ]); simpl.
      map_lookup; reflexivity.
    + repeat (case_key k;
              [ rewrite payload_base_lookup; reflexivity | ]); simpl.
      reflexivity.
  - repeat (case_key k;
            [ map_lookup; rewrite ?payload_base_lookup; reflexivity | ]); simpl.
    map_lookup; reflexivity.
Qed.

Lemma toDecimal_nonempty (s : string) :
  s <> "" -> toDecimal s = JSNumber (fdiv (StringToNumber s) (of_Z 100)).
Proof.
  intros Hs. unfold toDecimal.
  destruct (String.eqb_spec s ""); [ contradiction | reflexivity ].
Qed.

Lemma currency_conversion (s : string) :
  fmul (Number_ (js_or (JSString s) (JSNumber pzero))) croreToRupees =
    if String.eqb s "" then pzero else fmul (StringToNumber s) (of_Z 10000000).
Proof.
  unfold js_or. simpl. destruct (String.eqb s ""); reflexivity.
Qed.

(** C5, as stated: a risk-free rate of 4 is a percentage field that is
    filled in, and its number divided by 100 is 0.04; yet with no beta
    nothing is sent for it, nor for the market risk premium, and the
    same holds when the cost of equity is filled in. *)
Lemma percentage_field_left_out :
  percent_field no_beta_form "rf" = Some "4" /\
  toDecimal "4" = JSNumber (StringToNumber "0.04") /\
  payload no_beta_form !! "rf" = None /\
  percent_field no_beta_form "marketRiskPremium" = Some "6" /\
  payload no_beta_form !! "marketRiskPremium" = None /\
  percent_field re_and_capm_form "rf" = Some "4" /\
  payload re_and_capm_form !! "rf" = None /\
  percent_field re_and_capm_form "marketRiskPremium" = Some "6" /\
  payload re_and_capm_form !! "marketRiskPremium" = None.
Proof. repeat split; vm_compute; reflexivity. Qed.

Lemma capm_sent_true (f : form) :
  capm_sent f = true <->
  re f = "" /\ rf f <> "" /\ beta f <> "" /\ marketRiskPremium f <> "".
Proof.
  unfold capm_sent.
  destruct (String.eqb_spec (re f) ""), (String.eqb_spec (rf f) ""),
    (String.eqb_spec (beta f) ""), (String.eqb_spec (marketRiskPremium f) "");
    simpl; split; try discriminate; try tauto; intuition congruence.
Qed.

(** C5, amended. Normalisation of the inputs: [toDecimal] gives
    [undefined] for the empty text and the number divided by 100 for any
    other.  The request holds it for [rd] and [taxRate] always, for [re]
    when the field is filled in and no key otherwise; for [rf] and
    [marketRiskPremium] (and for [beta], its number undivided) only when
    the cost of equity is empty and the three CAPM inputs are filled in,
    the key being left out otherwise, whatever the field holds.  A
    currency amount is its number times 10,000,000, and 0 when the field
    is empty.  No empty rate or beta reaches the request as a number. *)
Theorem input_normalization (f : form) :
  toDecimal "" = JSUndefined /\
  (forall s, s <> "" ->
     toDecimal s = JSNumber (fdiv (StringToNumber s) (of_Z 100))) /\
  payload f !! "rd" = Some (toDecimal (rd f)) /\
  payload f !! "taxRate" = Some (toDecimal (taxRate f)) /\
  payload f !! "re" =
    (if String.eqb (re f) "" then None else Some (toDecimal (re f))) /\
  payload f !! "rf" =
    (if capm_sent f then Some (toDecimal (rf f)) else None) /\
  payload f !! "marketRiskPremium" =
    (if capm_sent f then Some (toDecimal (marketRiskPremium f)) else None) /\
  payload f !! "beta" =
    (if capm_sent f then Some (JSNumber (StringToNumber (beta f))) else None) /\
  (capm_sent f = true <->
   re f = "" /\ rf f <> "" /\ beta f <> "" /\ marketRiskPremium f <> "") /\
  (forall k s v, percent_field f k = Some s ->
     payload f !! k = Some v -> v = toDecimal s) /\
  (forall k s, currency_field f k = Some s ->
     payload f !! k =
       Some (JSNumber (if String.eqb s "" then pzero
                       else fmul (StringToNumber s) (of_Z 10000000)))) /\
  (forall k s, percent_field f k = Some s \/ (k = "beta" /\ s = beta f) ->
     s = "" -> absent (payload f !! k)).
Proof.
  split; [ reflexivity | ].
  split; [ apply toDecimal_nonempty | ].
  split; [ rewrite payload_lookup, payload_base_lookup; reflexivity | ].
  split; [ rewrite payload_lookup, payload_base_lookup; reflexivity | ].
  split; [ rewrite payload_lookup; reflexivity | ].
  split; [ rewrite payload_lookup; reflexivity | ].
  split; [ rewrite payload_lookup; reflexivity | ].
  split; [ rewrite payload_lookup; reflexivity | ].
  split; [ apply capm_sent_true | ].
  split.
  { intros k s v Hk. rewrite payload_lookup, payload_base_lookup.
    unfold percent_field in Hk.
    repeat (case_key k; [ simpl in *; inversion Hk; subst s;
                          repeat (match goal with
                                  | |- context [String.eqb ?a ""] =>
                                      destruct (String.eqb a "")
                                  end; simpl);
                          congruence | ]).
    discriminate. }
  split.
  { intros k s Hk. rewrite payload_lookup, payload_base_lookup.
    unfold currency_field in Hk.
    repeat (case_key k; [ simpl in *; inversion Hk; subst s;
                          rewrite currency_conversion; reflexivity | ]).
    discriminate. }
  intros k s Hk Hs. unfold absent.
  rewrite payload_lookup, payload_base_lookup.
  destruct Hk as [Hk | [-> ->]].
  - unfold percent_field in Hk.
    repeat (case_key k; [ simpl in *; inversion Hk as [Hf]; rewrite Hf, Hs;
                          simpl; rewrite ?andb_false_r; simpl; auto | ]).
    discriminate.
  - simpl. rewrite Hs. simpl. rewrite ?andb_false_r. auto.
Qed.

Lemma input_normalization_witness :
  payload scenario !! "re" = Some (JSNumber (StringToNumber "0.12")) /\
  payload scenario !! "rd" = Some (JSNumber (StringToNumber "0.05")) /\
  payload capm_form !! "rf" = Some (JSNumber (StringToNumber "0.04")) /\
  payload no_beta_form !! "rf" = None /\
  payload scenario !! "equityValue" =
    Some (JSNumber (StringToNumber "2000000000")) /\
  absent (payload scenario !! "rf").
Proof.
  destruct (input_normalization scenario)
    as (_ & _ & Hrd & _ & Hre & _ & _ & _ & _ & _ & Hcur & Habs).
  destruct (input_normalization capm_form)
    as (_ & _ & _ & _ & _ & Hrf & _).
  destruct (input_normalization no_beta_form)
    as (_ & _ & _ & _ & _ & Hrf' & _).
  split; [ | split; [ | split; [ | split; [ | split ] ] ] ].
  - rewrite Hre. vm_compute. reflexivity.
  - rewrite Hrd. vm_compute. reflexivity.
  - rewrite Hrf. vm_compute. reflexivity.
  - rewrite Hrf'. vm_compute. reflexivity.
  - rewrite (Hcur "equityValue" "200"); vm_compute; reflexivity.
  - apply (Habs "rf" ""); [ left | ]; reflexivity.
Defined.

(** ** Inputs that are not numbers *)

Lemma fdiv_nan_l (y : float) : fdiv S754_nan y = S754_nan.
Proof. reflexivity. Qed.

Lemma fmul_nan_l (y : float) : fmul S754_nan y = S754_nan.
Proof. reflexivity. Qed.

Lemma fmul_nan_r (x : float) : fmul x S754_nan = S754_nan.
Proof. destruct x; reflexivity. Qed.

Lemma fadd_nan_r (x : float) : fadd x S754_nan = S754_nan.
Proof. destruct x; reflexivity. Qed.

Lemma toDecimal_undefined_iff (s : string) :
  toDecimal s = JSUndefined <-> s = "".
Proof.
  unfold toDecimal. destruct (String.eqb_spec s ""); split; intros H;
    try reflexivity; try assumption; try discriminate; contradiction.
Qed.

(** Without a response, the weight of the debt is always a number. *)
Lemma weightD_local_number (f : form) : exists w, weightD f None = JSNumber w.
Proof.
  unfold weightD, weightD_input. simpl.
  destruct (fgt (V_rupees f) pzero); simpl; eauto.
Qed.

Lemma rate_dec_local (k s : string) :
  s <> "" ->
  rate_dec None k s = JSNumber (fdiv (StringToNumber s) (of_Z 100)).
Proof.
  intros Hs. unfold rate_dec. simpl.
  destruct (String.eqb_spec s ""); [ contradiction | reflexivity ].
Qed.

(** C6, as stated: the text [abc] in the cost of debt is neither rejected
    nor absent; it is sent as NaN, and the WACC computed locally is NaN. *)
Lemma non_numeric_reaches_request :
  StringToNumber "abc" = S754_nan /\
  toDecimal "abc" = JSNumber S754_nan /\
  payload bad_rd_form !! "rd" = Some (JSNumber S754_nan) /\
  waccComputed bad_rd_form None = S754_nan.
Proof. repeat split; vm_compute; reflexivity. Qed.

Lemma fadd_nan_l (y : float) : fadd S754_nan y = S754_nan.
Proof. reflexivity. Qed.

Lemma fsub_nan_r (x : float) : fsub x S754_nan = S754_nan.
Proof. destruct x; reflexivity. Qed.

Lemma fgt_nan_l (y : float) : fgt S754_nan y = false.
Proof. destruct y; reflexivity. Qed.

(** The rate taken from a field whose text is not a number, when the
    response gives none. *)
Lemma rate_dec_nan (r : option (gmap string jsval)) (k s : string) :
  s <> "" -> StringToNumber s = S754_nan ->
  nullish (opt_get r k) = true ->
  rate_dec r k s = JSNumber S754_nan.
Proof.
  intros Hs Hnan Hr. unfold rate_dec, coalesce. rewrite Hr.
  change (truthy (JSString s)) with (negb (String.eqb s "")).
  destruct (String.eqb_spec s ""); [ contradiction | ].
  cbn [negb]. unfold js_div. cbn [Number_]. rewrite Hnan. reflexivity.
Qed.

Lemma typeof_number_inv (v : jsval) :
  typeof_number v = true -> exists x, v = JSNumber x.
Proof. destruct v; try discriminate. eauto. Qed.

(** C6, amended. No text is rejected, and only the empty text is
    converted to an absent value. A non-empty text that is no numeric
    literal is converted to NaN.  In the request
    the NaN stands under [equityValue], [debtValue], [rd], [taxRate] and
    [re] for such a text in the field; under [rf], [beta] and
    [marketRiskPremium] only when the CAPM inputs are sent, the key being
    left out otherwise.  Locally a NaN amount makes [E_rupees] or
    [D_rupees] and [V_rupees] NaN, and then no weight is derived from the
    inputs; a NaN rate, when the response gives none for it and the other
    factors of its term are numbers, makes the WACC computed locally
    NaN. *)
Theorem non_numeric_gives_nan (f : form) (s : string) :
  s <> "" ->
  StringToNumber s = S754_nan ->
  (forall t, toDecimal t = JSUndefined <-> t = "") /\
  toDecimal s = JSNumber S754_nan /\
  (rd f = s -> payload f !! "rd" = Some (JSNumber S754_nan)) /\
  (taxRate f = s -> payload f !! "taxRate" = Some (JSNumber S754_nan)) /\
  (re f = s -> payload f !! "re" = Some (JSNumber S754_nan)) /\
  (rf f = s ->
     payload f !! "rf" = if capm_sent f then Some (JSNumber S754_nan) else None) /\
  (beta f = s ->
     payload f !! "beta" = if capm_sent f then Some (JSNumber S754_nan) else None) /\
  (marketRiskPremium f = s ->
     payload f !! "marketRiskPremium"
       = if capm_sent f then Some (JSNumber S754_nan) else None) /\
  (equityValue f = s ->
     payload f !! "equityValue" = Some (JSNumber S754_nan) /\
     E_rupees f = S754_nan /\ V_rupees f = S754_nan /\
     weightE_input f = JSUndefined /\ weightD_input f = JSUndefined) /\
  (debtValue f = s ->
     payload f !! "debtValue" = Some (JSNumber S754_nan) /\
     D_rupees f = S754_nan /\ V_rupees f = S754_nan /\
     weightE_input f = JSUndefined /\ weightD_input f = JSUndefined) /\
  (forall r, re f = s -> nullish (opt_get r "re") = true ->
     typeof_number (weightE f r) = true ->
     waccComputed f r = S754_nan) /\
  (forall r, rd f = s -> nullish (opt_get r "rd") = true ->
     typeof_number (weightD f r) = true ->
     typeof_number (Tc_dec f r) = true ->
     waccComputed f r = S754_nan) /\
  (forall r, taxRate f = s -> nullish (opt_get r "taxRate") = true ->
     typeof_number (weightD f r) = true ->
     typeof_number (Rd_dec f r) = true ->
     waccComputed f r = S754_nan) /\
  (capm_sent f = true <->
   re f = "" /\ rf f <> "" /\ beta f <> "" /\ marketRiskPremium f <> "") /\
  (rd f = s -> taxRate f <> "" -> waccComputed f None = S754_nan).
Proof.
  intros Hs Hnan.
  assert (Hdec : toDecimal s = JSNumber S754_nan).
  { rewrite toDecimal_nonempty by assumption. rewrite Hnan. reflexivity. }
  assert (Hcur : fmul (Number_ (js_or (JSString s) (JSNumber pzero))) croreToRupees
                 = S754_nan).
  { rewrite currency_conversion.
    destruct (String.eqb_spec s ""); [ contradiction | ].
    rewrite Hnan. reflexivity. }
  assert (Hwacc_rd : forall r, rd f = s -> nullish (opt_get r "rd") = true ->
            typeof_number (weightD f r) = true ->
            typeof_number (Tc_dec f r) = true ->
            waccComputed f r = S754_nan).
  { intros r Hrd Hr HwD HTc. unfold waccComputed.
    assert (HRd : Rd_dec f r = JSNumber S754_nan).
    { unfold Rd_dec. rewrite Hrd. apply rate_dec_nan; assumption. }
    destruct (typeof_number_inv _ HwD) as [w Hw].
    rewrite Hw, HRd, HTc. cbn [typeof_number andb]. unfold js_mul at 2.
    cbn [Number_]. rewrite fmul_nan_r, fmul_nan_l. apply fadd_nan_r. }
  split; [ apply toDecimal_undefined_iff | ].
  split; [ exact Hdec | ].
  split; [ intros <-; rewrite payload_lookup, payload_base_lookup; simpl;
           rewrite Hdec; reflexivity | ].
  split; [ intros <-; rewrite payload_lookup, payload_base_lookup; simpl;
           rewrite Hdec; reflexivity | ].
  split.
  { intros <-. rewrite payload_lookup. simpl.
    destruct (String.eqb_spec (re f) ""); [ contradiction | ].
    rewrite Hdec. reflexivity. }
  split.
  { intros Hf. rewrite payload_lookup. cbn. fold (capm_sent f).
    rewrite Hf, Hdec. reflexivity. }
  split.
  { intros Hf. rewrite payload_lookup. cbn. fold (capm_sent f).
    rewrite Hf, Hnan. reflexivity. }
  split.
  { intros Hf. rewrite payload_lookup. cbn. fold (capm_sent f).
    rewrite Hf, Hdec. reflexivity. }
  split.
  { intros Hf.
    assert (HE : E_rupees f = S754_nan).
    { unfold E_rupees, croreToNumber. rewrite Hf. exact Hcur. }
    assert (HV : V_rupees f = S754_nan).
    { unfold V_rupees. rewrite HE. apply fadd_nan_l. }
    split; [ rewrite payload_lookup, payload_base_lookup; simpl;
             rewrite Hf, Hcur; reflexivity | ].
    unfold weightE_input, weightD_input. rewrite HV, fgt_nan_l.
    repeat split; assumption. }
  split.
  { intros Hf.
    assert (HD : D_rupees f = S754_nan).
    { unfold D_rupees, croreToNumber. rewrite Hf. exact Hcur. }
    assert (HV : V_rupees f = S754_nan).
    { unfold V_rupees. rewrite HD. apply fadd_nan_r. }
    split; [ rewrite payload_lookup, payload_base_lookup; simpl;
             rewrite Hf, Hcur; reflexivity | ].
    unfold weightE_input, weightD_input. rewrite HV, fgt_nan_l.
    repeat split; assumption. }
  split.
  { intros r Hre Hr HwE. unfold waccComputed.
    assert (HRe : Re_dec f r = JSNumber S754_nan).
    { unfold Re_dec. rewrite Hre. apply rate_dec_nan; assumption. }
    destruct (typeof_number_inv _ HwE) as [w Hw].
    rewrite Hw, HRe. cbn [typeof_number andb]. unfold js_mul at 1.
    cbn [Number_]. rewrite fmul_nan_r. apply fadd_nan_l. }
  split; [ exact Hwacc_rd | ].
  split.
  { intros r Htax Hr HwD HRd. unfold waccComputed.
    assert (HTc : Tc_dec f r = JSNumber S754_nan).
    { unfold Tc_dec. rewrite Htax. apply rate_dec_nan; assumption. }
    destruct (typeof_number_inv _ HwD) as [w Hw].
    rewrite Hw, HTc, HRd. cbn [typeof_number andb]. unfold js_sub.
    cbn [Number_]. rewrite fsub_nan_r, fmul_nan_r. apply fadd_nan_r. }
  split; [ apply capm_sent_true | ].
  intros Hrd Htax. apply Hwacc_rd; try assumption; try reflexivity.
  - destruct (weightD_local_number f) as [w ->]. reflexivity.
  - unfold Tc_dec. rewrite rate_dec_local by assumption. reflexivity.
Qed.

Lemma non_numeric_gives_nan_witness :
  payload bad_rd_form !! "rd" = Some (JSNumber S754_nan) /\
  waccComputed bad_rd_form None = S754_nan.
Proof.
  destruct (non_numeric_gives_nan bad_rd_form "abc")
    as (_ & _ & Hrd & _ & _ & _ & _ & _ & _ & _ & _ & _ & _ & _ & Hw);
    [ discriminate | vm_compute; reflexivity | ].
  split; [ apply Hrd; reflexivity | apply Hw; [ reflexivity | discriminate ] ].
Defined.

(** ** The cost of equity *)

Lemma payload_base_with_capm (f : form) (a b c : string) :
  payload_base (with_capm f a b c) = payload_base f.
Proof. reflexivity. Qed.

(** C7. When the cost of equity is filled in, the request carries it
    (divided by 100) and none of the CAPM inputs, whatever they are; the
    value shown in the formula panel is the same. *)
Theorem explicit_re_precedence (f : form) :
  re f <> "" ->
  payload f !! "re" = Some (JSNumber (fdiv (StringToNumber (re f)) (of_Z 100))) /\
  payload f !! "rf" = None /\
  payload f !! "beta" = None /\
  payload f !! "marketRiskPremium" = None /\
  (forall a b c, payload (with_capm f a b c) = payload f) /\
  (forall a b c,
     Re_dec (with_capm f a b c) None =
       JSNumber (fdiv (StringToNumber (re f)) (of_Z 100))).
Proof.
  intros Hre.
  assert (Hb : String.eqb (re f) "" = false).
  { destruct (String.eqb_spec (re f) ""); [ contradiction | reflexivity ]. }
  repeat split.
  - rewrite payload_lookup. simpl. rewrite Hb.
    rewrite toDecimal_nonempty by assumption. reflexivity.
  - rewrite payload_lookup. simpl. rewrite Hb. reflexivity.
  - rewrite payload_lookup. simpl. rewrite Hb. reflexivity.
  - rewrite payload_lookup. simpl. rewrite Hb. reflexivity.
  - intros a b c. unfold payload. simpl. rewrite Hb. simpl.
    rewrite payload_base_with_capm. reflexivity.
  - intros a b c. unfold Re_dec. simpl. apply rate_dec_local. assumption.
Qed.

Lemma explicit_re_precedence_witness :
  payload re_and_capm_form !! "re" = Some (JSNumber (StringToNumber "0.12")) /\
  payload re_and_capm_form !! "rf" = None /\
  payload re_and_capm_form !! "beta" = None /\
  payload re_and_capm_form !! "marketRiskPremium" = None.
Proof.
  destruct (explicit_re_precedence re_and_capm_form)
    as (Hre & Hrf & Hb & Hm & _); [ discriminate | ].
  rewrite Hre. repeat split; try assumption.
Defined.

(** C8, as stated: with no cost of equity and no beta nothing fails.
    The request is built, without any of the four keys, and the WACC
    computed locally is a number, the one obtained for a cost of equity
    of 0. *)
Lemma missing_capm_no_error :
  re no_beta_form = "" /\ beta no_beta_form = "" /\
  payload no_beta_form = payload_base no_beta_form /\
  waccComputed no_beta_form None = StringToNumber "0.0075000000000000015" /\
  waccComputed no_beta_form None = waccComputed (with_re no_beta_form "0") None.
Proof. repeat split; vm_compute; reflexivity. Qed.

(** C8, amended. With no cost of equity and an incomplete CAPM triple,
    [submit] raises nothing: it posts the request without [re], [rf],
    [beta] and [marketRiskPremium], and reports an error only if the
    service rejects the request.  As long as the response gives no [re],
    the formula panel has no cost of equity and the WACC computed locally
    counts the equity term as 0. *)
Theorem missing_re_inputs (f : form) (r : option (gmap string jsval)) :
  re f = "" ->
  rf f = "" \/ beta f = "" \/ marketRiskPremium f = "" ->
  payload f = payload_base f /\
  payload f !! "re" = None /\
  payload f !! "rf" = None /\
  payload f !! "beta" = None /\
  payload f !! "marketRiskPremium" = None /\
  (forall service st data,
     st_form st = f -> service (payload f) = Resolved data ->
     st_error (submit service st) = JSString "" /\
     st_result (submit service st) = data) /\
  (nullish (opt_get r "re") = true ->
   Re_dec f r = JSUndefined /\
   forall wD rd_ tc,
     weightD f r = JSNumber wD ->
     Rd_dec f r = JSNumber rd_ ->
     Tc_dec f r = JSNumber tc ->
     waccComputed f r = fadd pzero (fmul (fmul wD rd_) (fsub (of_Z 1) tc))).
Proof.
  intros Hre Hcapm.
  assert (Hc : negb (String.eqb (rf f) "") && negb (String.eqb (beta f) "")
               && negb (String.eqb (marketRiskPremium f) "") = false).
  { destruct Hcapm as [H | [H | H]]; rewrite H; simpl;
      rewrite ?andb_false_r; reflexivity. }
  split; [ unfold payload; rewrite Hre; simpl; rewrite Hc; reflexivity | ].
  repeat (split; [ rewrite payload_lookup; simpl; rewrite Hre; simpl;
                   try rewrite Hc; reflexivity | ]).
  split.
  { intros service st data Hst Hsv. unfold submit. rewrite Hst, Hsv. split; reflexivity. }
  intros Hr.
  assert (HRe : Re_dec f r = JSUndefined).
  { unfold Re_dec, rate_dec. rewrite Hre. simpl.
    destruct (opt_get r "re"); try discriminate; reflexivity. }
  split; [ exact HRe | ].
  intros wD rd_ tc HwD Hrd Htc. unfold waccComputed.
  rewrite HRe, HwD, Hrd, Htc. simpl. rewrite andb_false_r. reflexivity.
Qed.

Lemma missing_re_inputs_witness :
  payload no_beta_form !! "re" = None /\
  Re_dec no_beta_form None = JSUndefined /\
  waccComputed no_beta_form None =
    fadd pzero (fmul (fmul (StringToNumber "0.2") (StringToNumber "0.05"))
                     (fsub (of_Z 1) (StringToNumber "0.25"))).
Proof.
  destruct (missing_re_inputs no_beta_form None)
    as (_ & Hre & _ & _ & _ & _ & Hloc);
    [ reflexivity | right; left; reflexivity | ].
  destruct Hloc as [HRe Hw]; [ reflexivity | ].
  split; [ exact Hre | split; [ exact HRe | ] ].
  apply Hw; vm_compute; reflexivity.
Defined.

(* ===================================================================== *)
(** * Rounding errors of the sum of the weights *)
(* ===================================================================== *)

Local Close Scope string_scope.

(** ** Number of binary digits *)

Lemma digits2_pos_bounds (p : positive) :
  2 ^ (Zpos (digits2_pos p) - 1) <= Zpos p < 2 ^ Zpos (digits2_pos p).
Proof.
  induction p as [p IH | p IH | ]; simpl digits2_pos.
  - rewrite Pos2Z.inj_succ.
    replace (Z.succ (Zpos (digits2_pos p)) - 1)
      with (Z.succ (Zpos (digits2_pos p) - 1)) by lia.
    rewrite !Z.pow_succ_r by lia. lia.
  - rewrite Pos2Z.inj_succ.
    replace (Z.succ (Zpos (digits2_pos p)) - 1)
      with (Z.succ (Zpos (digits2_pos p) - 1)) by lia.
    rewrite !Z.pow_succ_r by lia. lia.
  - simpl. lia.
Qed.

Lemma Zdigits2_bounds (m : Z) :
  0 < m -> 2 ^ (Zdigits2 m - 1) <= m < 2 ^ Zdigits2 m.
Proof.
  destruct m as [| p | p]; try lia. intros _. apply digits2_pos_bounds.
Qed.

Lemma Zdigits2_pos (m : Z) : 0 < m -> 0 < Zdigits2 m.
Proof. destruct m; simpl; lia. Qed.

(** [m < 2^k] bounds the number of digits by [k]. *)
Lemma Zdigits2_le (m k : Z) : 0 <= m -> 0 <= k -> m < 2 ^ k -> Zdigits2 m <= k.
Proof.
  intros Hm Hk Hlt.
  destruct (Z.eq_dec m 0) as [-> | Hne]; [ simpl; lia | ].
  destruct (Zdigits2_bounds m ltac:(lia)) as [Hlo _].
  destruct (Z_le_gt_dec (Zdigits2 m) k) as [| Hgt]; [ assumption | exfalso ].
  assert (2 ^ k <= 2 ^ (Zdigits2 m - 1)) by (apply Z.pow_le_mono_r; lia).
  lia.
Qed.

(** [2^k <= m] gives more than [k] digits. *)
Lemma Zdigits2_gt (m k : Z) : 0 <= k -> 2 ^ k <= m -> k < Zdigits2 m.
Proof.
  intros Hk Hle.
  assert (Hpos : 0 < 2 ^ k) by (apply Z.pow_pos_nonneg; lia).
  destruct (Zdigits2_bounds m ltac:(lia)) as [_ Hhi].
  destruct (Z_lt_le_dec k (Zdigits2 m)) as [| Hge]; [ assumption | exfalso ].
  assert (2 ^ Zdigits2 m <= 2 ^ k) by (apply Z.pow_le_mono_r; lia).
  lia.
Qed.

Lemma Zdigits2_succ (m : Z) : 0 <= m -> Zdigits2 (m + 1) <= Zdigits2 m + 1.
Proof.
  intros Hm.
  destruct (Z.eq_dec m 0) as [-> | Hne]; [ simpl; lia | ].
  destruct (Zdigits2_bounds m ltac:(lia)) as [_ Hhi].
  pose proof (Zdigits2_pos m ltac:(lia)).
  apply Zdigits2_le; try lia.
  replace (Zdigits2 m + 1) with (Z.succ (Zdigits2 m)) by lia.
  rewrite Z.pow_succ_r by lia. lia.
Qed.

Lemma Zdigits2_mono (a b : Z) : 0 <= a <= b -> Zdigits2 a <= Zdigits2 b.
Proof.
  intros [Ha Hab].
  destruct (Z.eq_dec b 0) as [-> | Hne].
  { replace a with 0 by lia. lia. }
  destruct (Zdigits2_bounds b ltac:(lia)) as [_ Hhi].
  pose proof (Zdigits2_pos b ltac:(lia)).
  apply Zdigits2_le; lia.
Qed.

(** Digits of a right shift. *)
Lemma Zdigits2_div_pow2 (m n : Z) :
  0 <= m -> 0 <= n -> Zdigits2 (m / 2 ^ n) <= Z.max (Zdigits2 m - n) 0.
Proof.
  intros Hm Hn.
  assert (Hp : 0 < 2 ^ n) by (apply Z.pow_pos_nonneg; lia).
  destruct (Z.eq_dec m 0) as [-> | Hne].
  { rewrite Z.div_0_l by lia. simpl. lia. }
  destruct (Zdigits2_bounds m ltac:(lia)) as [_ Hhi].
  pose proof (Zdigits2_pos m ltac:(lia)) as Hd.
  destruct (Z_le_gt_dec n (Zdigits2 m)) as [Hle | Hgt].
  - rewrite Z.max_l by lia.
    apply Zdigits2_le; [ apply Z.div_pos; lia | lia | ].
    apply Z.div_lt_upper_bound; [ lia | ].
    rewrite <- Z.pow_add_r by lia.
    replace (n + (Zdigits2 m - n)) with (Zdigits2 m) by lia. assumption.
  - rewrite Z.div_small; [ simpl; lia | ].
    split; [ lia | ].
    assert (2 ^ Zdigits2 m <= 2 ^ n) by (apply Z.pow_le_mono_r; lia). lia.
Qed.

(** ** Right shifts of the rounding *)

Lemma shr_1_m (mrs : shr_record) :
  0 <= shr_m mrs -> shr_m (shr_1 mrs) = shr_m mrs / 2.
Proof.
  destruct mrs as [m r s]. simpl. intros Hm.
  rewrite <- Z.div2_div.
  destruct m as [| [p | p |] | p]; try reflexivity; lia.
Qed.

Lemma iter_pos_shr_1_m (p : positive) (mrs : shr_record) :
  0 <= shr_m mrs ->
  shr_m (SpecFloat.iter_pos shr_1 p mrs) = shr_m mrs / 2 ^ Zpos p.
Proof.
  revert mrs. induction p as [p IH | p IH | ]; intros mrs Hm; simpl SpecFloat.iter_pos.
  - assert (H1 : 0 <= shr_m (shr_1 mrs)).
    { rewrite shr_1_m by assumption. apply Z.div_pos; lia. }
    assert (Hp : 0 < 2 ^ Zpos p) by (apply Z.pow_pos_nonneg; lia).
    assert (H2 : 0 <= shr_m (SpecFloat.iter_pos shr_1 p (shr_1 mrs))).
    { rewrite IH by assumption. apply Z.div_pos; lia. }
    rewrite IH by assumption. rewrite IH by assumption.
    rewrite shr_1_m by assumption.
    rewrite !Z.div_div by lia.
    f_equal.
    replace (Zpos p~1) with (1 + Zpos p + Zpos p) by lia.
    rewrite !Z.pow_add_r by lia. rewrite Z.pow_1_r. lia.
  - assert (Hp : 0 < 2 ^ Zpos p) by (apply Z.pow_pos_nonneg; lia).
    assert (H2 : 0 <= shr_m (SpecFloat.iter_pos shr_1 p mrs)).
    { rewrite IH by assumption. apply Z.div_pos; lia. }
    rewrite IH by assumption. rewrite IH by assumption.
    rewrite !Z.div_div by lia.
    f_equal.
    replace (Zpos p~0) with (Zpos p + Zpos p) by lia.
    rewrite !Z.pow_add_r by lia. lia.
  - rewrite shr_1_m by assumption. reflexivity.
Qed.

Lemma shr_record_of_loc_m (m : Z) (l : location) :
  shr_m (shr_record_of_loc m l) = m.
Proof. destruct l as [| []]; reflexivity. Qed.

Lemma shr_fexp_spec (m e : Z) (l : location) :
  0 <= m ->
  let e' := Z.max e (fexp prec emax (Zdigits2 m + e)) in
  snd (shr_fexp prec emax m e l) = e' /\
  shr_m (fst (shr_fexp prec emax m e l)) = m / 2 ^ (e' - e).
Proof.
  intros Hm e'. unfold shr_fexp, shr. subst e'.
  set (n := fexp prec emax (Zdigits2 m + e) - e).
  destruct n as [| p | p] eqn:Hn; simpl fst; simpl snd.
  - rewrite shr_record_of_loc_m. split; [ lia | ].
    replace (Z.max e (fexp prec emax (Zdigits2 m + e)) - e) with 0 by lia.
    rewrite Z.pow_0_r, Z.div_1_r. reflexivity.
  - rewrite iter_pos_shr_1_m by (rewrite shr_record_of_loc_m; assumption).
    rewrite shr_record_of_loc_m. split; [ lia | ].
    f_equal. f_equal. lia.
  - rewrite shr_record_of_loc_m. split; [ lia | ].
    replace (Z.max e (fexp prec emax (Zdigits2 m + e)) - e) with 0 by lia.
    rewrite Z.pow_0_r, Z.div_1_r. reflexivity.
Qed.

Lemma round_nearest_even_range (m : Z) (l : location) :
  m <= round_nearest_even m l <= m + 1.
Proof.
  destruct l as [| []]; simpl; try lia. destruct (Z.even m); lia.
Qed.

(** The shape of a rounded result: a first shift to the exponent [e1]
    of the format, the rounding of the last place, and a second shift by
    one place at most. *)
Lemma binary_round_aux_struct (sx : bool) (mx ex : Z) (lx : location) :
  0 <= mx ->
  exists m1' : Z,
    let e1 := Z.max ex (fexp prec emax (Zdigits2 mx + ex)) in
    let m1 := mx / 2 ^ (e1 - ex) in
    let e2 := Z.max e1 (fexp prec emax (Zdigits2 m1' + e1)) in
    let m2 := m1' / 2 ^ (e2 - e1) in
    m1 <= m1' <= m1 + 1 /\
    binary_round_aux prec emax sx mx ex lx =
      match m2 with
      | Z0 => S754_zero sx
      | Zpos m => if e2 <=? emax - prec then S754_finite sx m e2
                  else S754_infinity sx
      | Zneg _ => S754_nan
      end.
Proof.
  intros Hmx. unfold binary_round_aux.
  destruct (shr_fexp_spec mx ex lx Hmx) as [He1 Hm1].
  destruct (shr_fexp prec emax mx ex lx) as [mrs1 e1'] eqn:Hs1.
  simpl in He1, Hm1.
  set (m1' := round_nearest_even (shr_m mrs1) (loc_of_shr_record mrs1)).
  exists m1'. cbv zeta.
  pose proof (round_nearest_even_range (shr_m mrs1) (loc_of_shr_record mrs1)) as Hr.
  fold m1' in Hr.
  assert (Hm1pos : 0 <= shr_m mrs1).
  { rewrite Hm1. apply Z.div_pos; [ lia | apply Z.pow_pos_nonneg; lia ]. }
  destruct (shr_fexp_spec m1' e1' loc_Exact ltac:(lia)) as [He2 Hm2].
  destruct (shr_fexp prec emax m1' e1' loc_Exact) as [mrs2 e2'] eqn:Hs2.
  simpl in He2, Hm2. subst e1'. rewrite <- Hm1.
  split; [ exact Hr | ].
  rewrite Hm2, He2. reflexivity.
Qed.

Lemma binary_round_aux_exact (sx : bool) (mx : positive) (ex : Z) :
  fexp prec emax (Zpos (digits2_pos mx) + ex) <= ex ->
  binary_round_aux prec emax sx (Zpos mx) ex loc_Exact =
    if ex <=? emax - prec then S754_finite sx mx ex else S754_infinity sx.
Proof.
  intros Hf. unfold binary_round_aux, shr_fexp, shr. simpl Zdigits2.
  destruct (fexp prec emax (Zpos (digits2_pos mx) + ex) - ex) as [| p | p] eqn:Hn;
    try lia; simpl; rewrite Hn; reflexivity.
Qed.

Lemma pow2_pos (e : Z) : (0 < pow2 e)%Q.
Proof. apply Qpower_0_lt. reflexivity. Qed.

Lemma pow2_add (a b : Z) : (pow2 (a + b) == pow2 a * pow2 b)%Q.
Proof. apply Qpower_plus. discriminate. Qed.

Lemma pow2_le (a b : Z) : a <= b -> (pow2 a <= pow2 b)%Q.
Proof. intros H. apply Qpower_le_compat_l; [ assumption | discriminate ]. Qed.

Lemma pow2_Z (n : Z) : 0 <= n -> (pow2 n == inject_Z (2 ^ n))%Q.
Proof. intros H. unfold pow2. rewrite Zpower_Qpower by assumption. reflexivity. Qed.

Lemma pow2_succ (e : Z) : (pow2 (e + 1) == 2 * pow2 e)%Q.
Proof. rewrite pow2_add. change (pow2 1) with 2%Q. lra. Qed.


Lemma inject_Z_nonneg (a : Z) : 0 <= a -> (0 <= inject_Z a)%Q.
Proof. intros H. rewrite Zle_Qle in H. exact H. Qed.

(** A right shift by [n] places brackets the mantissa. *)
Lemma floor_scale (a n e : Z) :
  0 <= a -> 0 <= n ->
  (inject_Z (a / 2 ^ n) * pow2 (e + n) <= inject_Z a * pow2 e)%Q /\
  (inject_Z (a + 1) * pow2 e <= inject_Z (a / 2 ^ n + 1) * pow2 (e + n))%Q.
Proof.
  intros Ha Hn.
  assert (Hp : 0 < 2 ^ n) by (apply Z.pow_pos_nonneg; lia).
  pose proof (Z.mul_div_le a (2 ^ n) Hp) as Hlo.
  pose proof (Z.mul_succ_div_gt a (2 ^ n) Hp) as Hhi.
  assert (Hlo' : (a / 2 ^ n) * 2 ^ n <= a) by lia.
  assert (Hhi' : a + 1 <= (a / 2 ^ n + 1) * 2 ^ n) by lia.
  rewrite Zle_Qle, inject_Z_mult in Hlo', Hhi'.
  pose proof (pow2_pos e) as He.
  rewrite pow2_add, (pow2_Z n Hn).
  set (P := pow2 e) in *. set (T := inject_Z (2 ^ n)) in *.
  split.
  - assert (E : (inject_Z (a / 2 ^ n) * (P * T)
                  == (inject_Z (a / 2 ^ n) * T) * P)%Q) by ring.
    rewrite E. apply Qmult_le_compat_r; [ assumption | apply Qlt_le_weak; assumption ].
  - assert (E : (inject_Z (a / 2 ^ n + 1) * (P * T)
                  == (inject_Z (a / 2 ^ n + 1) * T) * P)%Q) by ring.
    rewrite E. apply Qmult_le_compat_r; [ assumption | apply Qlt_le_weak; assumption ].
Qed.

Lemma inject_Z_le_mul (a b : Z) (p : Q) :
  a <= b -> (0 <= p)%Q -> (inject_Z a * p <= inject_Z b * p)%Q.
Proof.
  intros H Hp. apply Qmult_le_compat_r; [ | assumption ].
  rewrite <- Zle_Qle. assumption.
Qed.

(** The rounding of a non-negative value [x] known by a bracket
    [mx * 2^ex <= x < (mx + 1) * 2^ex]: the result overflows, or it is
    within two units of the exponent [e1] the format assigns to [x]. *)
Lemma binary_round_aux_error (mx ex : Z) (lx : location) (x : Q) :
  0 <= mx ->
  (inject_Z mx * pow2 ex <= x)%Q ->
  (x < inject_Z (mx + 1) * pow2 ex)%Q ->
  let e1 := Z.max ex (fexp prec emax (Zdigits2 mx + ex)) in
  let r := binary_round_aux prec emax false mx ex lx in
  (r = S754_infinity false /\ (pow2 (emax - prec + 1) <= x + pow2 e1)%Q) \/
  (nonneg_good r /\ (F2Q r <= x + pow2 e1)%Q /\ (x - 2 * pow2 e1 <= F2Q r)%Q).
Proof.
  intros Hmx Hlo Hhi e1 r.
  destruct (binary_round_aux_struct false mx ex lx Hmx) as (m1' & Hstruct).
  cbv zeta in Hstruct. fold e1 in Hstruct.
  set (m1 := mx / 2 ^ (e1 - ex)) in *.
  set (e2 := Z.max e1 (fexp prec emax (Zdigits2 m1' + e1))) in *.
  set (m2 := m1' / 2 ^ (e2 - e1)) in *.
  destruct Hstruct as [Hm1' Hr]. fold r in Hr.
  assert (Hn1 : 0 <= e1 - ex) by (unfold e1; lia).
  assert (Hm1 : 0 <= m1).
  { unfold m1. apply Z.div_pos; [ lia | apply Z.pow_pos_nonneg; lia ]. }
  assert (Hemin : emin prec emax <= e1).
  { unfold e1, fexp. lia. }
  (* the second shift is of one place at most *)
  assert (He2 : e1 <= e2 <= e1 + 1).
  { split; [ unfold e2; lia | ].
    pose proof (Zdigits2_div_pow2 mx (e1 - ex) Hmx Hn1) as Hd1. fold m1 in Hd1.
    pose proof (Zdigits2_succ m1 Hm1) as Hd2.
    pose proof (Zdigits2_mono m1' (m1 + 1) ltac:(lia)) as Hd3.
    unfold e2. unfold e1, fexp in *. unfold emin, prec, emax in *. lia. }
  assert (Hn2 : 0 <= e2 - e1) by lia.
  assert (Hm2 : 0 <= m2).
  { unfold m2. apply Z.div_pos; [ lia | apply Z.pow_pos_nonneg; lia ]. }
  (* brackets *)
  destruct (floor_scale mx (e1 - ex) ex Hmx Hn1) as [Hb1 Hb2].
  replace (ex + (e1 - ex)) with e1 in Hb1, Hb2 by lia. fold m1 in Hb1, Hb2.
  destruct (floor_scale m1' (e2 - e1) e1 ltac:(lia) Hn2) as [Hb3 Hb4].
  replace (e1 + (e2 - e1)) with e2 in Hb3, Hb4 by lia. fold m2 in Hb3, Hb4.
  pose proof (pow2_pos e1) as Hp1. pose proof (pow2_pos e2) as Hp2.
  assert (Hp21 : (pow2 e2 <= 2 * pow2 e1)%Q).
  { rewrite <- pow2_succ. apply pow2_le. lia. }
  destruct Hm1' as [Hm1a Hm1b].
  assert (Hp1' : (0 <= pow2 e1)%Q) by lra.
  assert (Hm1c : m1 + 1 <= m1' + 1) by lia.
  pose proof (inject_Z_le_mul m1 m1' (pow2 e1) Hm1a Hp1') as Hc1.
  pose proof (inject_Z_le_mul m1' (m1 + 1) (pow2 e1) Hm1b Hp1') as Hc2.
  pose proof (inject_Z_le_mul (m1 + 1) (m1' + 1) (pow2 e1) Hm1c Hp1') as Hc3.
  rewrite !inject_Z_plus in *. change (inject_Z 1) with 1%Q in *.
  assert (Hv1 : (inject_Z m2 * pow2 e2 <= x + pow2 e1)%Q) by lra.
  assert (Hv2 : (x - 2 * pow2 e1 <= inject_Z m2 * pow2 e2)%Q) by lra.
  set (v := (inject_Z m2 * pow2 e2)%Q) in *.
  destruct m2 as [| p | p] eqn:Hm2eq; try lia.
  - right. rewrite Hr. simpl. unfold v in *.
    change (inject_Z 0) with 0%Q in *. split; [ exact I | ]. lra.
  - destruct (e2 <=? emax - prec) eqn:Hle.
    + right. rewrite Hr. simpl. apply Z.leb_le in Hle.
      split; [ lia | ]. unfold v in *. lra.
    + left. split; [ exact Hr | ].
      apply Z.leb_gt in Hle.
      assert (Hbig : (pow2 (emax - prec + 1) <= v)%Q).
      { unfold v. apply Qle_trans with (1 * pow2 e2)%Q.
        - rewrite Qmult_1_l. apply pow2_le. lia.
        - apply inject_Z_le_mul; [ lia | lra ]. }
      lra.
Qed.

Lemma pow2_digits_le (m : Z) :
  0 < m -> (pow2 (Zdigits2 m - 1) <= inject_Z m)%Q.
Proof.
  intros Hm. pose proof (Zdigits2_pos m Hm) as Hd.
  rewrite pow2_Z by lia. rewrite <- Zle_Qle.
  apply (Zdigits2_bounds m Hm).
Qed.

(** The unit of the exponent assigned to [x] is small against [x],
    or it is the smallest one. *)
Lemma pow2_ulp_bound (mx ex : Z) (x : Q) :
  0 < mx ->
  (inject_Z mx * pow2 ex <= x)%Q ->
  (pow2 (Zdigits2 mx + ex - prec) <= pow2 (1 - prec) * x)%Q.
Proof.
  intros Hmx Hx.
  replace (Zdigits2 mx + ex - prec) with ((1 - prec) + ((Zdigits2 mx - 1) + ex)) by lia.
  rewrite (pow2_add (1 - prec)), (pow2_add (Zdigits2 mx - 1)).
  pose proof (pow2_digits_le mx Hmx) as Hd.
  pose proof (pow2_pos ex) as He. pose proof (pow2_pos (1 - prec)) as Hq.
  apply Qmult_le_l; [ assumption | ].
  apply Qle_trans with (inject_Z mx * pow2 ex)%Q; [ | assumption ].
  apply Qmult_le_compat_r; [ assumption | lra ].
Qed.

Lemma pow2_fexp_bound (mx ex : Z) (x : Q) :
  0 <= mx ->
  (inject_Z mx * pow2 ex <= x)%Q ->
  ex <= fexp prec emax (Zdigits2 mx + ex) ->
  (pow2 (fexp prec emax (Zdigits2 mx + ex))
   <= pow2 (1 - prec) * x + pow2 (emin prec emax))%Q.
Proof.
  intros Hmx Hx Hex.
  pose proof (pow2_pos (emin prec emax)) as Hpe.
  pose proof (pow2_pos (1 - prec)) as Hq.
  destruct (Z.eq_dec mx 0) as [-> | Hne].
  - simpl Zdigits2 in *. change (inject_Z 0) with 0%Q in Hx.
    assert (Hf : fexp prec emax (0 + ex) = emin prec emax).
    { unfold fexp in *. unfold emin, prec, emax in *. lia. }
    rewrite Hf. assert (0 <= pow2 (1 - prec) * x)%Q; [ | lra ].
    apply Qmult_le_0_compat; lra.
  - pose proof (pow2_ulp_bound mx ex x ltac:(lia) Hx) as Hu.
    unfold fexp.
    destruct (Z.max_spec (Zdigits2 mx + ex - prec) (emin prec emax))
      as [[_ ->] | [_ ->]].
    + assert (0 <= pow2 (1 - prec) * x)%Q; [ | lra ].
      apply Qmult_le_0_compat; [ lra | ].
      apply Qle_trans with (inject_Z mx * pow2 ex)%Q; [ | assumption ].
      apply Qmult_le_0_compat; [ apply inject_Z_nonneg; lia | ].
      pose proof (pow2_pos ex). lra.
    + lra.
Qed.

(** ** Division *)

Lemma SFdiv_core_spec (m1 m2 : positive) (e1 e2 : Z) :
  let e' := Z.min (fexp prec emax (Zdigits2 (Zpos m1) + e1 - (Zdigits2 (Zpos m2) + e2)))
                  (e1 - e2) in
  exists q l,
    SFdiv_core_binary prec emax (Zpos m1) e1 (Zpos m2) e2 = (q, e', l) /\
    0 <= q /\
    q * Zpos m2 <= Zpos m1 * 2 ^ (e1 - e2 - e') < (q + 1) * Zpos m2.
Proof.
  intros e'. unfold SFdiv_core_binary. fold e'.
  set (s := e1 - e2 - e').
  assert (Hs : 0 <= s) by (unfold s, e'; lia).
  set (m' := match s with
             | 0 => Zpos m1
             | Zpos _ => Z.shiftl (Zpos m1) s
             | Zneg _ => 0
             end).
  assert (Hm' : m' = Zpos m1 * 2 ^ s).
  { unfold m'. clearbody s. destruct s as [| p | p]; try lia.
    apply Z.shiftl_mul_pow2. lia. }
  pose proof (Z_div_mod m' (Zpos m2) ltac:(lia)) as Hdiv.
  destruct (Z.div_eucl m' (Zpos m2)) as [q r].
  destruct Hdiv as [Heq Hr].
  exists q, (new_location (Zpos m2) r). split; [ reflexivity | ].
  rewrite <- Hm'.
  assert (Hq : 0 <= q) by nia.
  split; [ assumption | nia ].
Qed.

Lemma SFdiv_core_exponent (m1 m2 : positive) (e1 e2 q : Z) :
  let e' := Z.min (fexp prec emax (Zdigits2 (Zpos m1) + e1 - (Zdigits2 (Zpos m2) + e2)))
                  (e1 - e2) in
  0 <= q ->
  q * Zpos m2 <= Zpos m1 * 2 ^ (e1 - e2 - e') < (q + 1) * Zpos m2 ->
  e' <= fexp prec emax (Zdigits2 q + e').
Proof.
  intros e' Hq [Hlo Hhi].
  set (d1 := Zdigits2 (Zpos m1)) in *. set (d2 := Zdigits2 (Zpos m2)) in *.
  set (s := e1 - e2 - e') in *.
  assert (Hs : 0 <= s) by (unfold s, e'; lia).
  destruct (Zdigits2_bounds (Zpos m1) ltac:(lia)) as [H1lo _]. fold d1 in H1lo.
  destruct (Zdigits2_bounds (Zpos m2) ltac:(lia)) as [_ H2hi]. fold d2 in H2hi.
  pose proof (Zdigits2_pos (Zpos m1) ltac:(lia)) as Hd1. fold d1 in Hd1.
  pose proof (Zdigits2_pos (Zpos m2) ltac:(lia)) as Hd2. fold d2 in Hd2.
  (* the quotient has at least d1 + s - d2 digits *)
  assert (Hdq : d1 + s - d2 <= Zdigits2 q \/ (q = 0 /\ d1 + s - d2 <= 0)).
  { destruct (Z_le_gt_dec (d1 + s - d2) 0) as [Hle | Hgt].
    - destruct (Z.eq_dec q 0) as [-> | Hne]; [ right; lia | left ].
      pose proof (Zdigits2_pos q ltac:(lia)). lia.
    - left.
      assert (Hpow : 2 ^ (d1 - 1 + s) = 2 ^ (d1 + s - d2 - 1) * 2 ^ d2).
      { rewrite <- Z.pow_add_r by lia. f_equal. lia. }
      assert (Hps : 2 ^ (d1 - 1 + s) = 2 ^ (d1 - 1) * 2 ^ s).
      { rewrite <- Z.pow_add_r by lia. reflexivity. }
      assert (H2s : 0 < 2 ^ s) by (apply Z.pow_pos_nonneg; lia).
      assert (Hk : 0 < 2 ^ (d1 + s - d2 - 1)) by (apply Z.pow_pos_nonneg; lia).
      assert (Hge : 2 ^ (d1 + s - d2 - 1) <= q).
      { assert (2 ^ (d1 + s - d2 - 1) * 2 ^ d2 < (q + 1) * Zpos m2) by nia.
        assert (2 ^ (d1 + s - d2 - 1) * Zpos m2 <= 2 ^ (d1 + s - d2 - 1) * 2 ^ d2) by nia.
        nia. }
      pose proof (Zdigits2_gt q (d1 + s - d2 - 1) ltac:(lia) Hge). lia. }
  unfold fexp in *. unfold e', s in *. unfold fexp, emin, prec, emax in *.
  destruct Hdq as [Hdq | [-> Hdq]]; simpl Zdigits2; lia.
Qed.

Lemma Qmult_pos_le_reg (a b c : Q) : (0 < c)%Q -> (a * c <= b * c)%Q -> (a <= b)%Q.
Proof. intros Hc H. apply (Qmult_le_r _ _ c Hc). assumption. Qed.

Lemma Qmult_pos_lt_reg (a b c : Q) : (0 < c)%Q -> (a * c < b * c)%Q -> (a < b)%Q.
Proof. intros Hc H. apply (Qmult_lt_r _ _ c Hc). assumption. Qed.

Lemma inject_Z_pos (p : positive) : (0 < inject_Z (Zpos p))%Q.
Proof.
  assert (H : 0 < Zpos p) by lia. rewrite Zlt_Qlt in H. exact H.
Qed.

(** The quotient of two positive numbers. *)
Lemma fdiv_pos_spec (ma mb : positive) (ea eb : Z) (x : Q) :
  let a := S754_finite false ma ea in
  let b := S754_finite false mb eb in
  (x * F2Q b == F2Q a)%Q ->
  let u := (pow2 (1 - prec) * x + pow2 (emin prec emax))%Q in
  (fdiv a b = S754_infinity false /\ (pow2 (emax - prec + 1) <= x + u)%Q) \/
  (nonneg_good (fdiv a b) /\
   (F2Q (fdiv a b) <= x + u)%Q /\ (x - 2 * u <= F2Q (fdiv a b))%Q).
Proof.
  intros a b Hx u. unfold fdiv, a, b. simpl SFdiv.
  destruct (SFdiv_core_spec ma mb ea eb) as (q & l & Hcore & Hq & Hlo & Hhi).
  pose proof (SFdiv_core_exponent ma mb ea eb q Hq (conj Hlo Hhi)) as Hexp.
  cbv zeta in Hcore, Hexp, Hlo, Hhi.
  set (e' := Z.min (fexp prec emax (Zdigits2 (Zpos ma) + ea - (Zdigits2 (Zpos mb) + eb)))
                   (ea - eb)) in *.
  rewrite Hcore.
  set (s := ea - eb - e') in *.
  assert (Hs : 0 <= s) by (unfold s, e'; lia).
  (* the bracket of the quotient *)
  pose proof (pow2_pos e') as Hpe'. pose proof (pow2_pos eb) as Hpeb.
  pose proof (inject_Z_pos mb) as Hmb.
  assert (Hea : (pow2 ea == pow2 e' * inject_Z (2 ^ s) * pow2 eb)%Q).
  { rewrite <- (pow2_Z s Hs), <- !pow2_add. replace (e' + s + eb) with ea by (unfold s; lia).
    reflexivity. }
  unfold a, b, F2Q in Hx. rewrite Hea in Hx.
  assert (Hx' : (x * inject_Z (Zpos mb)
                 == inject_Z (Zpos ma * 2 ^ s) * pow2 e')%Q).
  { rewrite inject_Z_mult.
    apply (Qmult_inj_r _ _ (pow2 eb)); [ lra | ].
    rewrite <- Qmult_assoc. rewrite <- Qmult_assoc in Hx.
    setoid_rewrite Qmult_1_l in Hx. rewrite Hx. ring. }
  rewrite Zle_Qle in Hlo. rewrite Zlt_Qlt in Hhi.
  rewrite inject_Z_mult in Hlo, Hhi.
  assert (Hb1 : (inject_Z q * pow2 e' <= x)%Q).
  { apply (Qmult_pos_le_reg _ _ (inject_Z (Zpos mb)) Hmb). rewrite Hx'.
    assert (E : (inject_Z q * pow2 e' * inject_Z (Zpos mb)
                 == (inject_Z q * inject_Z (Zpos mb)) * pow2 e')%Q) by ring.
    rewrite E. apply Qmult_le_compat_r; [ assumption | lra ]. }
  assert (Hb2 : (x < inject_Z (q + 1) * pow2 e')%Q).
  { apply (Qmult_pos_lt_reg _ _ (inject_Z (Zpos mb)) Hmb). rewrite Hx'.
    assert (E : (inject_Z (q + 1) * pow2 e' * inject_Z (Zpos mb)
                 == (inject_Z (q + 1) * inject_Z (Zpos mb)) * pow2 e')%Q) by ring.
    rewrite E. apply Qmult_lt_compat_r; assumption. }
  pose proof (binary_round_aux_error q e' l x Hq Hb1 Hb2) as Herr.
  cbv zeta in Herr. rewrite Z.max_r in Herr by assumption.
  pose proof (pow2_fexp_bound q e' x Hq Hb1 Hexp) as Hu. fold u in Hu.
  destruct Herr as [[Hinf Hbig] | (Hgood & Hle & Hge)].
  - left. split; [ assumption | lra ].
  - right. split; [ assumption | ]. split; lra.
Qed.

(** ** Addition *)

Lemma iter_xO_pow2 (m d : positive) :
  Zpos (Pos.iter xO m d) = Zpos m * 2 ^ Zpos d.
Proof.
  induction d as [| d IH] using Pos.peano_ind.
  - simpl. lia.
  - rewrite Pos.iter_succ, Pos2Z.inj_succ, Z.pow_succ_r by lia.
    change (Zpos (Pos.iter xO m d)~0) with (2 * Zpos (Pos.iter xO m d)).
    rewrite IH. lia.
Qed.

Lemma shl_align_spec (m : positive) (e e' : Z) :
  snd (shl_align m e e') = Z.min e e' /\
  Zpos (fst (shl_align m e e')) = Zpos m * 2 ^ (e - Z.min e e').
Proof.
  unfold shl_align. destruct (e' - e) as [| d | d] eqn:Hd; simpl.
  - rewrite Z.min_l by lia. rewrite Z.sub_diag. split; lia.
  - rewrite Z.min_l by lia. rewrite Z.sub_diag. split; lia.
  - rewrite Z.min_r by lia. split; [ reflexivity | ].
    rewrite iter_xO_pow2. f_equal. f_equal. lia.
Qed.

Lemma Zdigits2_mul_pow2 (m k : Z) :
  0 < m -> 0 <= k -> Zdigits2 (m * 2 ^ k) = Zdigits2 m + k.
Proof.
  intros Hm Hk.
  destruct (Zdigits2_bounds m Hm) as [Hlo Hhi].
  pose proof (Zdigits2_pos m Hm) as Hd.
  assert (Hp : 0 < 2 ^ k) by (apply Z.pow_pos_nonneg; lia).
  assert (H1 : m * 2 ^ k < 2 ^ (Zdigits2 m + k)).
  { rewrite Z.pow_add_r by lia. nia. }
  assert (H2 : 2 ^ (Zdigits2 m - 1 + k) <= m * 2 ^ k).
  { rewrite Z.pow_add_r by lia. nia. }
  pose proof (Zdigits2_le (m * 2 ^ k) (Zdigits2 m + k) ltac:(nia) ltac:(lia) H1).
  pose proof (Zdigits2_gt (m * 2 ^ k) (Zdigits2 m - 1 + k) ltac:(lia) H2).
  lia.
Qed.

(** Rounding a positive multiple of [2^ez], [ez] at least the smallest
    exponent: no absolute error, the result is exact or within a
    relative error of [2 * 2^-52]. *)
Lemma binary_round_error (p : positive) (ez : Z) :
  emin prec emax <= ez ->
  let x := (inject_Z (Zpos p) * pow2 ez)%Q in
  let r := binary_round prec emax false p ez in
  (r = S754_infinity false /\ (pow2 (emax - prec + 1) <= 2 * x)%Q) \/
  (nonneg_good r /\
   (F2Q r <= x + pow2 (1 - prec) * x)%Q /\
   (x - 2 * (pow2 (1 - prec) * x) <= F2Q r)%Q).
Proof.
  intros Hez x r.
  set (d := Zdigits2 (Zpos p)).
  set (f := fexp prec emax (d + ez)).
  assert (Hx0 : (0 < x)%Q).
  { unfold x. apply Qmult_lt_0_compat; [ apply inject_Z_pos | apply pow2_pos ]. }
  assert (Hq : (0 < pow2 (1 - prec))%Q) by apply pow2_pos.
  assert (Hqx : (0 < pow2 (1 - prec) * x)%Q) by (apply Qmult_lt_0_compat; assumption).
  assert (Hq1 : (pow2 (1 - prec) <= 1)%Q).
  { change 1%Q with (pow2 0). apply pow2_le. unfold prec. lia. }
  assert (Hqx1 : (pow2 (1 - prec) * x <= x)%Q).
  { assert (E : (x == 1 * x)%Q) by ring. rewrite E at 2.
    apply Qmult_le_compat_r; lra. }
  assert (Hfmin : emin prec emax <= f) by (unfold f, fexp; lia).
  unfold r, binary_round. change (Zpos (digits2_pos p)) with d. fold f.
  destruct (shl_align_spec p ez f) as [Hsnd Hfst].
  destruct (shl_align p ez f) as [mz ez'] eqn:Hsh. simpl in Hsnd, Hfst.
  destruct (Z_le_gt_dec f ez) as [Hle | Hgt].
  - (* the value is representable *)
    rewrite Z.min_r in Hsnd, Hfst by lia. subst ez'.
    assert (Hdz : Zpos (digits2_pos mz) = d + (ez - f)).
    { change (Zpos (digits2_pos mz)) with (Zdigits2 (Zpos mz)).
      rewrite Hfst. apply Zdigits2_mul_pow2; lia. }
    assert (Hcanon : fexp prec emax (Zpos (digits2_pos mz) + f) <= f).
    { rewrite Hdz. replace (d + (ez - f) + f) with (d + ez) by lia. fold f. lia. }
    rewrite (binary_round_aux_exact false mz f Hcanon).
    assert (Hval : (inject_Z (Zpos mz) * pow2 f == x)%Q).
    { rewrite Hfst, inject_Z_mult, <- (pow2_Z (ez - f)) by lia.
      unfold x. rewrite <- Qmult_assoc, <- pow2_add.
      replace (ez - f + f) with ez by lia. reflexivity. }
    destruct (f <=? emax - prec) eqn:Hb.
    + right. cbn [F2Q nonneg_good]. split; [ assumption | ]. split; lra.
    + left. split; [ reflexivity | ].
      apply Z.leb_gt in Hb.
      pose proof (pow2_ulp_bound (Zpos p) ez x ltac:(lia) ltac:(unfold x; lra)) as Hu.
      fold d in Hu.
      assert (Hfd : f = d + ez - prec).
      { unfold f, fexp in *. unfold emin, emax, prec in *. lia. }
      rewrite <- Hfd in Hu.
      pose proof (pow2_le (emax - prec + 1) f ltac:(lia)). lra.
  - (* the value is rounded *)
    rewrite Z.min_l in Hsnd, Hfst by lia. subst ez'.
    rewrite Z.sub_diag, Z.pow_0_r, Z.mul_1_r in Hfst. injection Hfst as ->.
    assert (Hlo : (inject_Z (Zpos p) * pow2 ez <= x)%Q) by (unfold x; lra).
    assert (Hhi : (x < inject_Z (Zpos p + 1) * pow2 ez)%Q).
    { unfold x. apply Qmult_lt_compat_r; [ apply pow2_pos | ].
      rewrite <- Zlt_Qlt. lia. }
    pose proof (binary_round_aux_error (Zpos p) ez loc_Exact x ltac:(lia) Hlo Hhi) as Herr.
    cbv zeta in Herr. fold d in Herr. fold f in Herr.
    rewrite Z.max_r in Herr by lia.
    pose proof (pow2_ulp_bound (Zpos p) ez x ltac:(lia) Hlo) as Hu. fold d in Hu.
    assert (Hfd : f = d + ez - prec).
    { unfold f, fexp in *. unfold emin, emax, prec in *. lia. }
    rewrite <- Hfd in Hu.
    destruct Herr as [[Hinf Hbig] | (Hgood & Hle' & Hge')].
    + left. split; [ assumption | lra ].
    + right. split; [ assumption | split; lra ].
Qed.

(** The sum of two positive numbers. *)
Lemma fadd_pos_spec (ma mb : positive) (ea eb : Z) :
  emin prec emax <= ea -> emin prec emax <= eb ->
  let a := S754_finite false ma ea in
  let b := S754_finite false mb eb in
  let x := (F2Q a + F2Q b)%Q in
  (fadd a b = S754_infinity false /\ (pow2 (emax - prec + 1) <= 2 * x)%Q) \/
  (nonneg_good (fadd a b) /\
   (F2Q (fadd a b) <= x + pow2 (1 - prec) * x)%Q /\
   (x - 2 * (pow2 (1 - prec) * x) <= F2Q (fadd a b))%Q).
Proof.
  intros Hea Heb a b x. unfold fadd, a, b. simpl SFadd.
  set (ez := Z.min ea eb).
  destruct (shl_align_spec ma ea ez) as [_ Ha].
  destruct (shl_align_spec mb eb ez) as [_ Hb].
  rewrite Z.min_r in Ha by (unfold ez; lia).
  rewrite Z.min_r in Hb by (unfold ez; lia).
  set (pa := fst (shl_align ma ea ez)) in *.
  set (pb := fst (shl_align mb eb ez)) in *.
  change (Zpos pa + Zpos pb) with (Zpos (pa + pb)). simpl binary_normalize.
  assert (Hx : (inject_Z (Zpos (pa + pb)) * pow2 ez == x)%Q).
  { rewrite Pos2Z.inj_add, inject_Z_plus, Ha, Hb, !inject_Z_mult.
    rewrite <- !pow2_Z by (unfold ez; lia).
    unfold x, a, b, F2Q.
    assert (E1 : (pow2 ea == pow2 (ea - ez) * pow2 ez)%Q).
    { rewrite <- pow2_add. replace (ea - ez + ez) with ea by lia. reflexivity. }
    assert (E2 : (pow2 eb == pow2 (eb - ez) * pow2 ez)%Q).
    { rewrite <- pow2_add. replace (eb - ez + ez) with eb by lia. reflexivity. }
    rewrite E1, E2. ring. }
  pose proof (binary_round_error (pa + pb) ez ltac:(unfold ez; lia)) as Hr.
  cbv zeta in Hr. rewrite Hx in Hr. exact Hr.
Qed.


(** ** Numbers produced by the operations *)

Lemma binary_round_aux_good (sx : bool) (mx ex : Z) (lx : location) :
  0 <= mx -> good (binary_round_aux prec emax sx mx ex lx).
Proof.
  intros Hmx.
  destruct (binary_round_aux_struct sx mx ex lx Hmx) as (m1' & _ & ->).
  match goal with
  | |- good (match ?m with _ => _ end) => destruct m
  end; simpl; trivial.
  match goal with
  | |- good (if ?b then _ else _) => destruct b
  end; simpl; trivial.
  unfold fexp. lia.
Qed.

Lemma fmul_good (a b : float) : good (fmul a b).
Proof.
  destruct a as [sa | sa | | sa ma ea], b as [sb | sb | | sb mb eb];
    try exact I.
  unfold fmul. simpl SFmul. apply binary_round_aux_good. lia.
Qed.

Lemma nonneg_good_intro (x : float) :
  good x -> fge x pzero = true -> is_finite x = true -> nonneg_good x.
Proof.
  destruct x as [s | s | | s m e]; simpl; try discriminate; trivial.
  destruct s; [ discriminate | trivial ].
Qed.

Lemma nonneg_good_finite (x : float) : nonneg_good x -> is_finite x = true.
Proof. destruct x as [s | s | | [|] m e]; simpl; trivial; contradiction. Qed.

Lemma nonneg_good_F2Q (x : float) : nonneg_good x -> (0 <= F2Q x)%Q.
Proof.
  destruct x as [s | s | | [|] m e]; simpl; try contradiction; try lra.
  intros _. pose proof (inject_Z_pos m). pose proof (pow2_pos e).
  assert (0 < inject_Z (Zpos m) * pow2 e)%Q by (apply Qmult_lt_0_compat; assumption).
  lra.
Qed.

Lemma positive_finite (x : float) :
  nonneg_good x -> fgt x pzero = true ->
  exists m e, x = S754_finite false m e /\ (0 < F2Q x)%Q.
Proof.
  destruct x as [s | s | | [|] m e]; simpl; try contradiction; try discriminate.
  intros _ _. exists m, e. split; [ reflexivity | ].
  pose proof (inject_Z_pos m). pose proof (pow2_pos e).
  assert (0 < inject_Z (Zpos m) * pow2 e)%Q by (apply Qmult_lt_0_compat; assumption).
  lra.
Qed.

Lemma fadd_finite_inv (a b : float) :
  is_finite (fadd a b) = true -> is_finite a = true /\ is_finite b = true.
Proof.
  destruct a as [sa | sa | | sa ma ea], b as [sb | sb | | sb mb eb];
    simpl; try (intros; split; reflexivity); try discriminate;
    destruct sa, sb; discriminate.
Qed.

(** ** Sums and quotients of non-negative numbers *)

Lemma fadd_spec (a b : float) :
  nonneg_good a -> nonneg_good b ->
  let x := (F2Q a + F2Q b)%Q in
  (fadd a b = S754_infinity false /\ (pow2 (emax - prec + 1) <= 2 * x)%Q) \/
  (nonneg_good (fadd a b) /\
   (F2Q (fadd a b) <= x + pow2 (1 - prec) * x)%Q /\
   (x - 2 * (pow2 (1 - prec) * x) <= F2Q (fadd a b))%Q).
Proof.
  intros Ha Hb x.
  pose proof (nonneg_good_F2Q a Ha) as Ha0.
  pose proof (nonneg_good_F2Q b Hb) as Hb0.
  assert (Hq : (0 < pow2 (1 - prec))%Q) by apply pow2_pos.
  assert (Hqx : (0 <= pow2 (1 - prec) * x)%Q).
  { apply Qmult_le_0_compat; unfold x; lra. }
  destruct a as [sa | sa | | [|] ma ea]; try contradiction;
    destruct b as [sb | sb | | [|] mb eb]; try contradiction.
  - right. assert (Hz : exists s, fadd (S754_zero sa) (S754_zero sb) = S754_zero s).
    { destruct sa, sb; eexists; reflexivity. }
    destruct Hz as [s ->]. cbn [F2Q nonneg_good] in *. unfold x in *. simpl F2Q in *.
    split; [ exact I | split; lra ].
  - right. change (fadd (S754_zero sa) (S754_finite false mb eb))
      with (S754_finite false mb eb).
    split; [ exact Hb | ]. unfold x in *. change (F2Q (S754_zero sa)) with 0%Q in *.
    split; lra.
  - right. change (fadd (S754_finite false ma ea) (S754_zero sb))
      with (S754_finite false ma ea).
    split; [ exact Ha | ]. unfold x in *. change (F2Q (S754_zero sb)) with 0%Q in *.
    split; lra.
  - apply fadd_pos_spec; assumption.
Qed.

Lemma fdiv_spec (a : float) (mb : positive) (eb : Z) (x : Q) :
  nonneg_good a ->
  let b := S754_finite false mb eb in
  (x * F2Q b == F2Q a)%Q ->
  let u := (pow2 (1 - prec) * x + pow2 (emin prec emax))%Q in
  (fdiv a b = S754_infinity false /\ (pow2 (emax - prec + 1) <= x + u)%Q) \/
  (nonneg_good (fdiv a b) /\
   (F2Q (fdiv a b) <= x + u)%Q /\ (x - 2 * u <= F2Q (fdiv a b))%Q).
Proof.
  intros Ha b Hx u.
  destruct a as [sa | sa | | [|] ma ea]; try contradiction.
  - right. change (fdiv (S754_zero sa) b) with (S754_zero (xorb sa false)).
    cbn [F2Q nonneg_good]. split; [ exact I | ].
    assert (Hb : (0 < F2Q b)%Q).
    { unfold b, F2Q. pose proof (inject_Z_pos mb). pose proof (pow2_pos eb).
      assert (0 < inject_Z (Zpos mb) * pow2 eb)%Q by (apply Qmult_lt_0_compat; assumption).
      lra. }
    change (F2Q (S754_zero sa)) with 0%Q in Hx.
    assert (Hx0 : (x == 0)%Q).
    { apply (Qmult_inj_r _ _ (F2Q b)); [ lra | ]. rewrite Hx. ring. }
    pose proof (pow2_pos (emin prec emax)). unfold u. rewrite Hx0.
    split; lra.
  - apply fdiv_pos_spec. exact Hx.
Qed.

(** ** The sum of the two weights *)

Lemma pow2_m52 : (pow2 (1 - prec) == 1 # 4503599627370496)%Q.
Proof. reflexivity. Qed.

Lemma pow2_emin_small : (pow2 (emin prec emax) <= 1 # 1000000000000000)%Q.
Proof. apply Qle_bool_imp_le. vm_compute. reflexivity. Qed.

Lemma pow2_overflow_big : (4 <= pow2 (emax - prec + 1))%Q.
Proof. change 4%Q with (pow2 2). apply pow2_le. unfold emax, prec. lia. Qed.

(** For [E, D >= 0] whose sum [V] is finite and positive, the weights
    [E / V] and [D / V], added as numbers, give 1 within 1e-9. *)
Lemma weights_sum_float (E D : float) :
  good E -> good D ->
  fge E pzero = true -> fge D pzero = true ->
  is_finite (fadd E D) = true ->
  fgt (fadd E D) pzero = true ->
  let V := fadd E D in
  let S := fadd (fdiv E V) (fdiv D V) in
  is_finite S = true /\ (Qabs (F2Q S - 1) <= 1 # 1000000000)%Q.
Proof.
  intros HgE HgD HE0 HD0 HVfin HVpos V S.
  destruct (fadd_finite_inv E D HVfin) as [HEfin HDfin].
  pose proof (nonneg_good_intro E HgE HE0 HEfin) as HnE.
  pose proof (nonneg_good_intro D HgD HD0 HDfin) as HnD.
  pose proof (nonneg_good_F2Q E HnE) as HA0.
  pose proof (nonneg_good_F2Q D HnD) as HB0.
  pose proof pow2_emin_small as Hdelta.
  pose proof (pow2_pos (emin prec emax)) as Hdelta0.
  pose proof pow2_overflow_big as Hbig.
  (* the total *)
  destruct (fadd_spec E D HnE HnD) as [[Hinf _] | (HnV & HV1 & HV2)].
  { rewrite Hinf in HVfin. discriminate. }
  fold V in HnV, HV1, HV2. cbv zeta in HV1, HV2.
  destruct (positive_finite V HnV HVpos) as (mV & eV & HVeq & HVq).
  rewrite pow2_m52 in HV1, HV2.
  set (A := F2Q E) in *. set (B := F2Q D) in *. set (Vq := F2Q V) in *.
  set (c := (1 # 4503599627370496)%Q) in *.
  (* the exact quotients *)
  set (p := (A / Vq)%Q). set (q := (B / Vq)%Q).
  assert (Hp : (p * Vq == A)%Q) by (unfold p; field; lra).
  assert (Hq : (q * Vq == B)%Q) by (unfold q; field; lra).
  assert (Hp0 : (0 <= p)%Q).
  { apply (Qmult_pos_le_reg _ _ Vq HVq). rewrite Hp. lra. }
  assert (Hq0 : (0 <= q)%Q).
  { apply (Qmult_pos_le_reg _ _ Vq HVq). rewrite Hq. lra. }
  assert (Ht1 : ((1 - 2 * c) * (p + q) <= 1)%Q).
  { apply (Qmult_pos_le_reg _ _ Vq HVq).
    assert (E1 : ((1 - 2 * c) * (p + q) * Vq == (1 - 2 * c) * (p * Vq + q * Vq))%Q) by ring.
    rewrite E1, Hp, Hq. unfold c in *. lra. }
  assert (Ht2 : (1 <= (1 + c) * (p + q))%Q).
  { apply (Qmult_pos_le_reg _ _ Vq HVq).
    assert (E1 : ((1 + c) * (p + q) * Vq == (1 + c) * (p * Vq + q * Vq))%Q) by ring.
    rewrite E1, Hp, Hq. unfold c in *. lra. }
  (* the two weights *)
  assert (Hp' : (p * F2Q (S754_finite false mV eV) == F2Q E)%Q)
    by (rewrite <- HVeq; exact Hp).
  assert (Hq' : (q * F2Q (S754_finite false mV eV) == F2Q D)%Q)
    by (rewrite <- HVeq; exact Hq).
  pose proof (fdiv_spec E mV eV p HnE Hp') as HwE.
  pose proof (fdiv_spec D mV eV q HnD Hq') as HwD.
  rewrite <- HVeq in HwE, HwD. cbv zeta in HwE, HwD.
  rewrite pow2_m52 in HwE, HwD. fold c in HwE, HwD.
  set (d := pow2 (emin prec emax)) in *.
  set (big := pow2 (emax - prec + 1)) in *.
  destruct HwE as [[_ Hov] | (HnwE & HwE1 & HwE2)].
  { exfalso. unfold c in *. lra. }
  destruct HwD as [[_ Hov] | (HnwD & HwD1 & HwD2)].
  { exfalso. unfold c in *. lra. }
  (* their sum *)
  destruct (fadd_spec (fdiv E V) (fdiv D V) HnwE HnwD) as [[_ Hov] | (HnS & HS1 & HS2)].
  { exfalso. fold big in Hov. unfold c in *. lra. }
  fold S in HnS, HS1, HS2. cbv zeta in HS1, HS2.
  rewrite pow2_m52 in HS1, HS2. fold c in HS1, HS2.
  split; [ apply nonneg_good_finite; assumption | ].
  apply Qabs_Qle_condition. unfold c in *. split; lra.
Qed.

Local Open Scope string_scope.

(** ** The sum of the weights *)

Lemma E_rupees_good (f : form) : good (E_rupees f).
Proof. apply fmul_good. Qed.

Lemma D_rupees_good (f : form) : good (D_rupees f).
Proof. apply fmul_good. Qed.

(** C2, as stated: equity and debt of 1e301 crore each are non-negative
    and their sum is positive, but it overflows to Infinity; both weights
    are 0 and add up to 0, not to 1. *)
Lemma weights_sum_overflow :
  fge (E_rupees huge_form) pzero = true /\
  fge (D_rupees huge_form) pzero = true /\
  fgt (V_rupees huge_form) pzero = true /\
  V_rupees huge_form = pinf /\
  weightE_input huge_form = JSNumber pzero /\
  weightD_input huge_form = JSNumber pzero /\
  ~ (Qabs (F2Q (fadd pzero pzero) - 1) <= 1 # 1000000000)%Q.
Proof.
  repeat split; try (vm_compute; reflexivity).
  intros H. apply Qle_bool_iff in H. vm_compute in H. discriminate.
Qed.

(** C2, amended. For every form whose equity [E] and debt [D] are
    non-negative with a sum [V = E + D] that is finite and positive, the
    derived weights are numbers whose sum is finite and within 1e-9
    of 1. *)
Theorem weights_sum_to_one (f : form) :
  fge (E_rupees f) pzero = true ->
  fge (D_rupees f) pzero = true ->
  is_finite (V_rupees f) = true ->
  fgt (V_rupees f) pzero = true ->
  exists wE wD : float,
    weightE_input f = JSNumber wE /\
    weightD_input f = JSNumber wD /\
    is_finite (fadd wE wD) = true /\
    (Qabs (F2Q (fadd wE wD) - 1) <= 1 # 1000000000)%Q.
Proof.
  intros HE HD Hfin Hpos.
  exists (fdiv (E_rupees f) (V_rupees f)), (fdiv (D_rupees f) (V_rupees f)).
  unfold weightE_input, weightD_input. rewrite Hpos.
  split; [ reflexivity | split; [ reflexivity | ] ].
  apply (weights_sum_float (E_rupees f) (D_rupees f));
    auto using E_rupees_good, D_rupees_good.
Qed.

Lemma weights_sum_to_one_witness :
  exists wE wD : float,
    weightE_input scenario = JSNumber wE /\
    weightD_input scenario = JSNumber wD /\
    is_finite (fadd wE wD) = true /\
    (Qabs (F2Q (fadd wE wD) - 1) <= 1 # 1000000000)%Q.
Proof.
  apply (weights_sum_to_one scenario); vm_compute; reflexivity.
Defined.

(** ** The formatting helper *)

Lemma digit_char_is_digit (k : N) : (k < 10)%N -> is_digit (digit_char k) = true.
Proof.
  intros Hk. unfold is_digit, digit_char, code.
  rewrite N_ascii_embedding by lia.
  apply andb_true_intro. split; apply N.leb_le; lia.
Qed.

Lemma mod10_lt (n : N) : (n mod 10 < 10)%N.
Proof. apply N.mod_lt. discriminate. Qed.

Lemma is_digit_not_point (c : ascii) : is_digit c = true -> Ascii.eqb c "." = false.
Proof.
  intros Hc. destruct (Ascii.eqb_spec c "."); [ subst c; discriminate | reflexivity ].
Qed.

Lemma is_digit_not_minus (c : ascii) : is_digit c = true -> c <> "-"%char.
Proof. intros Hc ->. discriminate. Qed.

Lemma int_digits_head (fuel : nat) (n : N) (cnt : nat) (acc : string) :
  exists c rest, is_digit c = true /\ int_digits fuel n cnt acc = String c rest.
Proof.
  revert n cnt acc. induction fuel as [| fuel IH]; intros n cnt acc; simpl.
  - eexists _, _. split; [ apply digit_char_is_digit, mod10_lt | reflexivity ].
  - destruct (n / 10 =? 0)%N.
    + eexists _, _. split; [ apply digit_char_is_digit, mod10_lt | reflexivity ].
    + apply IH.
Qed.


Lemma frac_digits_no_point (k : nat) (n : N) (acc : string) :
  no_point acc = true -> no_point (frac_digits k n acc) = true.
Proof.
  revert n acc. induction k as [| k IH]; intros n acc Hacc; simpl.
  - assumption.
  - apply IH. simpl.
    rewrite (is_digit_not_point _ (digit_char_is_digit _ (mod10_lt n))). assumption.
Qed.

Lemma frac_digits_length (k : nat) (n : N) (acc : string) :
  String.length (frac_digits k n acc) = (k + String.length acc)%nat.
Proof.
  revert n acc. induction k as [| k IH]; intros n acc; simpl.
  - reflexivity.
  - rewrite IH. simpl. lia.
Qed.

Lemma after_point_app (a b : string) (cur : option nat) :
  after_point (String.append a b) cur = after_point b (after_point a cur).
Proof.
  revert cur. induction a as [| c a IH]; intros cur; simpl; [ reflexivity | apply IH ].
Qed.

Lemma after_point_no_point (s : string) (cur : option nat) :
  no_point s = true ->
  after_point s cur = (fun c => String.length s + c)%nat <$> cur.
Proof.
  revert cur. induction s as [| c s IH]; intros cur Hs; simpl in *.
  - destruct cur; reflexivity.
  - apply andb_prop in Hs. destruct Hs as [Hc Hs].
    apply negb_true_iff in Hc. rewrite Hc, IH by assumption.
    destruct cur; simpl; [ f_equal; lia | reflexivity ].
Qed.

Section FormatFacts.

Variable round_scaled : float -> nat -> N.

Lemma format_finite_not_dash (x : float) (dp : nat) :
  format_finite round_scaled x dp <> "-".
Proof.
  unfold format_finite.
  destruct (int_digits_head
              (N.size_nat (round_scaled x dp / 10 ^ N.of_nat dp))
              (round_scaled x dp / 10 ^ N.of_nat dp) 0 "")
    as (c & rest & Hc & ->).
  destruct (sign_bit x); simpl; intros H; inversion H.
  eapply is_digit_not_minus; eassumption.
Qed.


Lemma toLocaleString_not_dash (x : float) (dp : nat) :
  toLocaleString round_scaled x dp <> Some "-".
Proof.
  unfold toLocaleString. destruct (100 <? dp)%nat; [ discriminate | ].
  intros H. inversion H as [Hs]. clear H.
  destruct x as [s | s | | s m e].
  - exact (format_finite_not_dash _ _ Hs).
  - destruct s; discriminate.
  - discriminate.
  - exact (format_finite_not_dash _ _ Hs).
Qed.

End FormatFacts.





Example fmt_examples :
  fmt round_half_expand (JSNumber (E_rupees scenario)) (Some 0%nat)
    = Some "2,000,000,000" /\
  fmt round_half_expand (JSNumber (StringToNumber "1234.5")) None
    = Some "1,234.50" /\
  fmt round_half_expand (JSNumber (StringToNumber "-0.125")) None
    = Some "-0.13" /\
  fmt round_half_expand (JSNumber (StringToNumber "abc")) None = Some "-".
Proof. repeat split; vm_compute; reflexivity. Qed.

(* ===================================================================== *)
(** * The events of the page *)
(* ===================================================================== *)

(** ** Editing a field *)

Ltac case_name n :=
  match goal with
  | |- context [String.eqb n ?s] => destruct (String.eqb_spec n s) as [-> | ?]
  | H : context [String.eqb n ?s] |- _ =>
      destruct (String.eqb_spec n s) as [-> | ?]
  end.

(** X1. [handleChange] sets the field it names and no other: the field
    reads back the new text, every other field keeps its text, and a
    name that is not a field changes nothing. *)
Theorem handleChange_field (name v : string) (f : form) :
  (forall old, field name f = Some old -> field name (handleChange name v f) = Some v) /\
  (forall other, other <> name -> field other (handleChange name v f) = field other f) /\
  (field name f = None -> handleChange name v f = f).
Proof.
  split; [ | split ].
  - intros old Hold. unfold field, handleChange in *.
    repeat (case_name name; [ reflexivity | ]). discriminate.
  - intros other Hne. unfold handleChange.
    repeat (case_name name;
            [ unfold field; repeat (case_name other; [ congruence || reflexivity | ]);
              reflexivity | ]).
    reflexivity.
  - intros Hnone. unfold field, handleChange in *.
    repeat (case_name name; [ discriminate | ]). reflexivity.
Qed.

Lemma handleChange_field_witness :
  field "rd" (handleChange "rd" "7" scenario) = Some "7" /\
  field "re" (handleChange "rd" "7" scenario) = Some "12" /\
  handleChange "rate" "7" scenario = scenario.
Proof.
  destruct (handleChange_field "rd" "7" scenario) as (Hset & Hother & _).
  destruct (handleChange_field "rate" "7" scenario) as (_ & _ & Hnone).
  split; [ apply (Hset "5"); reflexivity | split ].
  - rewrite (Hother "re"); [ reflexivity | discriminate ].
  - apply Hnone. reflexivity.
Defined.

(** ** Submitting *)

Lemma truthy_error (e m : jsval) :
  truthy (js_or (js_or e m) (JSString "Request failed")) = true.
Proof.
  unfold js_or. destruct (truthy e) eqn:He; [ rewrite He; assumption | ].
  destruct (truthy m) eqn:Hm; [ assumption | reflexivity ].
Qed.

(** X2. After [submit] there is an error to show exactly when the
    request was rejected: then the error is never empty and no result
    is kept; when the request resolved, the error is empty and the
    result is the body of the response. *)
Theorem submit_error_iff_rejected
    (service : gmap string jsval -> outcome) (st : state) :
  (truthy (st_error (submit service st)) = true <->
   exists e m, service (payload (st_form st)) = Rejected e m) /\
  (forall e m, service (payload (st_form st)) = Rejected e m ->
     st_result (submit service st) = None) /\
  (forall data, service (payload (st_form st)) = Resolved data ->
     st_result (submit service st) = data /\
     st_error (submit service st) = JSString "").
Proof.
  unfold submit. destruct (service (payload (st_form st))) as [data | e m]; simpl.
  - split; [ split | split ].
    + discriminate.
    + intros (e & m & H). discriminate.
    + intros e m H. discriminate.
    + intros d H. injection H as ->. split; reflexivity.
  - split; [ split | split ].
    + intros _. eauto.
    + intros _. apply truthy_error.
    + reflexivity.
    + intros d H. discriminate.
Qed.

Lemma submit_error_iff_rejected_witness :
  truthy (st_error (submit failing_service (pg_state initial_page))) = true /\
  st_result (submit failing_service (pg_state initial_page)) = None.
Proof.
  destruct (submit_error_iff_rejected failing_service (pg_state initial_page))
    as (Hiff & Hrej & _).
  split.
  - apply Hiff. eexists _, _. reflexivity.
  - apply (Hrej JSUndefined (JSString "Network Error")). reflexivity.
Defined.

(** X3. [submit] is its two halves in sequence: from a page with no
    request in flight, posting the body and then receiving the outcome
    leaves the form component in the state [submit] gives, clears
    [loading], and hands the result to [App]. *)
Theorem submit_start_end
    (service : gmap string jsval -> outcome) (p : page) :
  pg_loading p = false ->
  pg_state (submit_end service (submit_start p)) = submit service (pg_state p) /\
  pg_loading (submit_end service (submit_start p)) = false /\
  pg_pending (submit_end service (submit_start p)) = None /\
  pg_capitalBreak (submit_end service (submit_start p))
    = onResult (st_result (submit service (pg_state p))).
Proof.
  intros Hl. unfold submit_start, submit_end, submit. rewrite Hl. simpl.
  destruct (service (payload (st_form (pg_state p)))); simpl; repeat split.
Qed.

Lemma submit_start_end_witness :
  pg_state (submit_end scenario_service (submit_start initial_page))
    = submit scenario_service (pg_state initial_page) /\
  pg_capitalBreak (submit_end scenario_service (submit_start initial_page))
    = Some (JSNumber (StringToNumber "0.8"), JSNumber (StringToNumber "0.2")).
Proof.
  destruct (submit_start_end scenario_service initial_page) as (Hs & _ & _ & Hc);
    [ reflexivity | ].
  split; [ exact Hs | ]. rewrite Hc. vm_compute. reflexivity.
Defined.

(** ** What every page keeps *)

Ltac page_inv_solve :=
  repeat split; simpl; intros;
  try discriminate; try reflexivity; try assumption;
  try match goal with
      | H : is_Some None |- _ => destruct H as [? H]; discriminate
      end;
  eauto.

Lemma page_inv_initial : page_inv initial_page.
Proof. unfold page_inv, initial_page; simpl. page_inv_solve. Qed.

Lemma page_inv_step (p : page) (e : event) : page_inv p -> page_inv (step p e).
Proof.
  intros (Hpend & Hload & Hexcl & Hcap). destruct e as [name v | | | service]; simpl.
  - unfold page_inv; simpl. auto.
  - unfold page_inv, clear; simpl.
    split; [ exact Hpend | ]. page_inv_solve.
  - unfold submit_start. destruct (pg_loading p) eqn:Hl.
    + unfold page_inv. rewrite Hl. auto.
    + unfold page_inv; simpl. page_inv_solve.
  - unfold submit_end. destruct (pg_pending p) as [body |] eqn:Hp.
    + assert (Hl : pg_loading p = true) by (apply Hpend; eauto).
      destruct (Hload Hl) as [Hres Herr].
      destruct (service body) as [data | e m]; unfold page_inv; simpl.
      * page_inv_solve.
      * rewrite Hres. page_inv_solve.
    + unfold page_inv. rewrite Hp. auto.
Qed.

Lemma fold_step_inv (events : list event) (p : page) :
  page_inv p -> page_inv (fold_left step events p).
Proof.
  revert p. induction events as [| e events IH]; intros p Hp; simpl.
  - assumption.
  - apply IH. apply page_inv_step. assumption.
Qed.

Lemma run_inv (events : list event) : page_inv (run events).
Proof. apply fold_step_inv, page_inv_initial. Qed.

(** X4. Whatever the sequence of edits, resets, submissions and
    outcomes, a result and an error are never set together, and while a
    request is in flight neither is. *)
Theorem result_excludes_error (events : list event) :
  (is_Some (st_result (pg_state (run events))) ->
   st_error (pg_state (run events)) = JSString "") /\
  (pg_loading (run events) = true ->
   st_result (pg_state (run events)) = None /\
   st_error (pg_state (run events)) = JSString "").
Proof.
  destruct (run_inv events) as (_ & Hload & Hexcl & _). split; assumption.
Qed.

Lemma result_excludes_error_witness :
  st_error (pg_state (run [Submit; Respond failing_service;
                           Change "rd" "6"; Submit; Respond scenario_service]))
    = JSString "".
Proof.
  apply (proj1 (result_excludes_error
                  [Submit; Respond failing_service; Change "rd" "6"; Submit;
                   Respond scenario_service])).
  vm_compute. eexists. reflexivity.
Defined.



(* ===================================================================== *)
(** * More on the request and on the formula panel *)
(* ===================================================================== *)

Ltac case_empty :=
  repeat match goal with
         | |- context [String.eqb ?a ""] => destruct (String.eqb_spec a "")
         | H : context [String.eqb ?a ""] |- _ => destruct (String.eqb_spec a "")
         end.

(** X6. The keys of the request: always [equityValue], [debtValue],
    [rd] and [taxRate]; [re] exactly when the cost of equity is filled
    in; [rf], [beta] and [marketRiskPremium] exactly when it is not and
    all three are; no other key.  So [re] never travels with a CAPM
    input. *)
Theorem payload_keys (f : form) :
  (forall k, is_Some (payload f !! k) <->
     (k = "equityValue" \/ k = "debtValue" \/ k = "rd" \/ k = "taxRate") \/
     (k = "re" /\ re f <> "") \/
     ((k = "rf" \/ k = "beta" \/ k = "marketRiskPremium") /\
      re f = "" /\ rf f <> "" /\ beta f <> "" /\ marketRiskPremium f <> "")) /\
  ~ (is_Some (payload f !! "re") /\
     (is_Some (payload f !! "rf") \/ is_Some (payload f !! "beta") \/
      is_Some (payload f !! "marketRiskPremium"))).
Proof.
  assert (Hkeys : forall k, is_Some (payload f !! k) <->
     (k = "equityValue" \/ k = "debtValue" \/ k = "rd" \/ k = "taxRate") \/
     (k = "re" /\ re f <> "") \/
     ((k = "rf" \/ k = "beta" \/ k = "marketRiskPremium") /\
      re f = "" /\ rf f <> "" /\ beta f <> "" /\ marketRiskPremium f <> "")).
  { intros k. rewrite payload_lookup, payload_base_lookup.
    repeat (case_key k;
            [ simpl; case_empty; simpl;
              (split;
               [ intros [x Hx]; try discriminate; solve [intuition congruence]
               | intros H; try (eexists; reflexivity);
                 solve [exfalso; intuition congruence] ]) | ]).
    simpl. split; [ intros [x Hx]; discriminate | intuition congruence ]. }
  split; [ exact Hkeys | ].
  intros [Hre Hcapm]. apply Hkeys in Hre.
  assert (Hfilled : re f <> "") by intuition congruence.
  destruct Hcapm as [H | [H | H]]; apply Hkeys in H; intuition congruence.
Qed.

(** X7. The values of the request: a number under every key, except
    that [rd] and [taxRate] are [undefined] when their field is empty:
    never [null], a text or a boolean. *)
Theorem payload_values (f : form) (k : string) (v : jsval) :
  payload f !! k = Some v ->
  (exists x, v = JSNumber x) \/
  (v = JSUndefined /\ ((k = "rd" /\ rd f = "") \/ (k = "taxRate" /\ taxRate f = ""))).
Proof.
  rewrite payload_lookup, payload_base_lookup. unfold toDecimal.
  repeat (case_key k;
          [ simpl; case_empty; simpl; intros H; inversion H; subst;
            eauto 6 | ]).
  simpl. discriminate.
Qed.

Lemma payload_values_witness :
  (exists x, JSNumber (StringToNumber "0.05") = JSNumber x) \/
  (JSNumber (StringToNumber "0.05") = JSUndefined /\
   (("rd" = "rd" /\ rd scenario = "") \/ ("rd" = "taxRate" /\ taxRate scenario = ""))).
Proof.
  apply (payload_values scenario "rd" (JSNumber (StringToNumber "0.05"))).
  vm_compute. reflexivity.
Defined.

(** X8. With no cost of equity and the three CAPM inputs filled in, the
    request carries [rf] and [marketRiskPremium] divided by 100 and
    [beta] as it is, and no [re]; the formula panel derives no cost of
    equity from them, and the WACC computed locally is the same whatever
    the CAPM inputs. *)
Theorem capm_request (f : form) :
  re f = "" -> rf f <> "" -> beta f <> "" -> marketRiskPremium f <> "" ->
  payload f !! "rf" = Some (JSNumber (fdiv (StringToNumber (rf f)) (of_Z 100))) /\
  payload f !! "beta" = Some (JSNumber (StringToNumber (beta f))) /\
  payload f !! "marketRiskPremium" =
    Some (JSNumber (fdiv (StringToNumber (marketRiskPremium f)) (of_Z 100))) /\
  payload f !! "re" = None /\
  Re_dec f None = JSUndefined /\
  (forall a b c r, waccComputed (with_capm f a b c) r = waccComputed f r).
Proof.
  intros Hre Hrf Hbeta Hmrp.
  repeat split.
  - rewrite payload_lookup. simpl. rewrite Hre. case_empty; try contradiction.
    simpl. rewrite toDecimal_nonempty by assumption. reflexivity.
  - rewrite payload_lookup. simpl. rewrite Hre. case_empty; try contradiction.
    reflexivity.
  - rewrite payload_lookup. simpl. rewrite Hre. case_empty; try contradiction.
    simpl. rewrite toDecimal_nonempty by assumption. reflexivity.
  - rewrite payload_lookup. simpl. rewrite Hre. reflexivity.
  - unfold Re_dec, rate_dec. rewrite Hre. reflexivity.
Qed.

Lemma capm_request_witness :
  payload capm_form !! "rf" = Some (JSNumber (StringToNumber "0.04")) /\
  payload capm_form !! "beta" = Some (JSNumber (StringToNumber "1.2")) /\
  payload capm_form !! "marketRiskPremium" = Some (JSNumber (StringToNumber "0.06")) /\
  Re_dec capm_form None = JSUndefined.
Proof.
  destruct (capm_request capm_form) as (Hrf & Hb & Hm & _ & HRe & _);
    try discriminate; try reflexivity.
  rewrite Hrf, Hb, Hm.
  split; [ vm_compute; reflexivity | ].
  split; [ reflexivity | ].
  split; [ vm_compute; reflexivity | exact HRe ].
Defined.

(** X9. A response that carries numbers for the two weights and values
    for [re], [rd] and [taxRate] fixes the formula panel: the weights,
    the rates and the WACC computed locally are those of the response,
    whatever the form holds, so that later edits do not show. *)
Theorem response_overrides_form (f f' : form) (d : gmap string jsval) :
  typeof_number (opt_get (Some d) "weightE") = true ->
  typeof_number (opt_get (Some d) "weightD") = true ->
  nullish (opt_get (Some d) "re") = false ->
  nullish (opt_get (Some d) "rd") = false ->
  nullish (opt_get (Some d) "taxRate") = false ->
  weightE f (Some d) = opt_get (Some d) "weightE" /\
  weightD f (Some d) = opt_get (Some d) "weightD" /\
  Re_dec f (Some d) = opt_get (Some d) "re" /\
  Rd_dec f (Some d) = opt_get (Some d) "rd" /\
  Tc_dec f (Some d) = opt_get (Some d) "taxRate" /\
  waccComputed f (Some d) = waccComputed f' (Some d).
Proof.
  intros HwE HwD Hre Hrd Htc.
  assert (HE : forall g, weightE g (Some d) = opt_get (Some d) "weightE")
    by (intros g; unfold weightE; rewrite HwE; reflexivity).
  assert (HD : forall g, weightD g (Some d) = opt_get (Some d) "weightD")
    by (intros g; unfold weightD; rewrite HwD; reflexivity).
  assert (HRe : forall g, Re_dec g (Some d) = opt_get (Some d) "re")
    by (intros g; unfold Re_dec, rate_dec, coalesce; rewrite Hre; reflexivity).
  assert (HRd : forall g, Rd_dec g (Some d) = opt_get (Some d) "rd")
    by (intros g; unfold Rd_dec, rate_dec, coalesce; rewrite Hrd; reflexivity).
  assert (HTc : forall g, Tc_dec g (Some d) = opt_get (Some d) "taxRate")
    by (intros g; unfold Tc_dec, rate_dec, coalesce; rewrite Htc; reflexivity).
  repeat split; auto.
  unfold waccComputed. rewrite !HE, !HD, !HRe, !HRd, !HTc. reflexivity.
Qed.

Lemma response_overrides_form_witness :
  waccComputed scenario (Some scenario_response)
    = waccComputed empty_form (Some scenario_response).
Proof.
  apply (response_overrides_form scenario empty_form scenario_response);
    reflexivity.
Defined.

(* ===================================================================== *)
(** * What is displayed *)
(* ===================================================================== *)

Lemma plain_digits_no_point (fuel : nat) (n : N) (acc : string) :
  no_point acc = true -> no_point (plain_digits fuel n acc) = true.
Proof.
  revert n acc. induction fuel as [| fuel IH]; intros n acc Hacc.
  - simpl. rewrite (is_digit_not_point _ (digit_char_is_digit _ (mod10_lt n))).
    assumption.
  - assert (Hstep : no_point (String (digit_char (n mod 10)) acc) = true).
    { simpl. rewrite (is_digit_not_point _ (digit_char_is_digit _ (mod10_lt n))).
      assumption. }
    cbn [plain_digits]. destruct (n / 10 =? 0)%N; [ exact Hstep | ].
    apply IH. exact Hstep.
Qed.

Lemma fixed_fraction_digits (n : N) (fd : nat) : fraction_digits (fixed n fd) = fd.
Proof.
  unfold fixed, fraction_digits.
  set (ip := (n / 10 ^ N.of_nat fd)%N). set (fp := (n mod 10 ^ N.of_nat fd)%N).
  assert (Hint : no_point (plain_digits (N.size_nat ip) ip "") = true)
    by (apply plain_digits_no_point; reflexivity).
  rewrite after_point_app.
  rewrite (after_point_no_point _ None Hint). simpl.
  destruct fd as [| fd]; [ reflexivity | ].
  cbn [after_point]. simpl (Ascii.eqb "." "."). cbv iota.
  rewrite after_point_no_point by (apply frac_digits_no_point; reflexivity).
  simpl. rewrite frac_digits_length. simpl. f_equal. lia.
Qed.

Lemma append_percent_not_dash (s : string) : String.append s "%" <> "-".
Proof.
  destruct s as [| c [| c' s]]; simpl; try discriminate.
Qed.

Lemma binary_round_aux_not_nan (sx : bool) (mx ex : Z) (lx : location) :
  (0 <= mx)%Z -> binary_round_aux prec emax sx mx ex lx <> S754_nan.
Proof.
  intros Hmx.
  destruct (binary_round_aux_struct sx mx ex lx Hmx) as (m1' & Hm1' & ->).
  match goal with
  | |- (match ?m with _ => _ end) <> _ =>
      assert (Hm2 : (0 <= m)%Z);
      [ apply Z.div_pos;
        [ pose proof (Z.div_pos mx (2 ^ (Z.max ex (fexp prec emax (Zdigits2 mx + ex)) - ex))
                        Hmx ltac:(apply Z.pow_pos_nonneg; lia)); lia
        | apply Z.pow_pos_nonneg; lia ]
      | destruct m; try lia; try discriminate ]
  end.
  match goal with
  | |- (if ?b then _ else _) <> _ => destruct b; discriminate
  end.
Qed.

Lemma fmul_nan_iff (x : float) (m : positive) (e : Z) :
  fmul x (S754_finite false m e) = S754_nan <-> x = S754_nan.
Proof.
  split; [ | intros ->; reflexivity ].
  destruct x as [s | s | | s mx ex]; try discriminate; try reflexivity.
  unfold fmul. simpl SFmul. intros H. exfalso.
  revert H. apply binary_round_aux_not_nan. lia.
Qed.

Section DisplayFacts.

Variable round_scaled : float -> nat -> N.
Variable exponential : float -> string.

(** X10. A row [Re], [Rd] or [Tc] of the formula panel shows the dash
    exactly when its value is [undefined], that is when the response
    gives none ([undefined] or [null]) and the field is empty; a value is
    never [null]. *)
Theorem rate_row_dash (result : option (gmap string jsval)) (k text : string) :
  (rate_row exponential (rate_dec result k text) = Some "-" <->
   nullish (opt_get result k) = true /\ text = "") /\
  rate_dec result k text <> JSNull.
Proof.
  assert (Hnotdash : forall v, v <> JSUndefined ->
            rate_row exponential v <> Some "-").
  { intros v Hv H.
    assert (Hrow : rate_row exponential v
                   = (fun s => String.append s "%") <$> percent exponential v)
      by (destruct v; try contradiction; reflexivity).
    rewrite Hrow in H. destruct (percent exponential v) as [s |]; simpl in H;
      [ | discriminate ].
    inversion H as [H1]. exact (append_percent_not_dash _ H1). }
  unfold rate_dec, coalesce.
  change (truthy (JSString text)) with (negb (String.eqb text "")).
  destruct (nullish (opt_get result k)) eqn:Hn.
  - destruct (String.eqb_spec text "") as [-> | Hne]; cbn [negb].
    + split; [ split; auto | discriminate ].
    + split; [ split | discriminate ].
      * intros H. exfalso. revert H. apply Hnotdash. discriminate.
      * intros [_ H]. contradiction.
  - assert (Hu : opt_get result k <> JSUndefined)
      by (intros Hu; rewrite Hu in Hn; discriminate).
    assert (Hnull : opt_get result k <> JSNull)
      by (intros Hu'; rewrite Hu' in Hn; discriminate).
    split; [ split | exact Hnull ].
    + intros H. exfalso. revert H. apply Hnotdash. exact Hu.
    + intros [H _]. discriminate.
Qed.

(** X11. The result card and the split of [App] have no guard: a key
    missing from the response is shown as NaN, and a [null] as 0.00;
    whereas the weight of the formula panel, for a response without
    [weightE], falls back on the ratio of the inputs. *)
Theorem missing_response_fields (d : gmap string jsval) (k : string) (f : form) :
  (d !! k = None -> card_value exponential d k = Some "NaN") /\
  (d !! k = Some JSNull -> card_value exponential d k = Some "0.00") /\
  (d !! "weightE" = None ->
   fst (split_values exponential (opt_get (Some d) "weightE", opt_get (Some d) "weightD"))
     = Some "NaN" /\
   (fgt (V_rupees f) pzero = true ->
    weightE f (Some d) = JSNumber (fdiv (E_rupees f) (V_rupees f)))).
Proof.
  split; [ | split ].
  - intros H. unfold card_value, opt_get. simpl. rewrite H. reflexivity.
  - intros H. unfold card_value, opt_get. simpl. rewrite H. reflexivity.
  - intros H. split.
    + unfold split_values, opt_get. simpl. rewrite H. reflexivity.
    + intros HV. unfold weightE, weightE_input, opt_get. simpl. rewrite H, HV.
      reflexivity.
Qed.

(** X12. A percentage is shown with exactly two decimals whenever the
    value times 100 is a finite number below [10^21] in magnitude. *)
Theorem percent_two_decimals (v : jsval) :
  is_finite (js_mul v (JSNumber (of_Z 100))) = true ->
  at_least_1e21 (js_mul v (JSNumber (of_Z 100))) = false ->
  exists s, percent exponential v = Some s /\ fraction_digits s = 2%nat.
Proof.
  intros Hfin Hsmall. unfold percent, toFixed.
  destruct (js_mul v (JSNumber (of_Z 100))) as [s | s | | s m e] eqn:Hx;
    try discriminate.
  - eexists. split; [ reflexivity | ]. apply fixed_fraction_digits.
  - rewrite Hsmall. eexists. split; [ reflexivity | ].
    unfold fraction_digits. rewrite after_point_app.
    assert (Hsign : no_point (if s then "-" else "") = true) by (destruct s; reflexivity).
    rewrite (after_point_no_point _ None Hsign). simpl.
    apply fixed_fraction_digits.
Qed.

(** X13. The row [E] of the formula panel shows the dash exactly when
    the text of the equity field is not a number; the same holds for the
    row [D]. *)
Theorem amount_row_dash (f : form) :
  (amount_row round_scaled (E_rupees f) = Some "-" <->
   StringToNumber (equityValue f) = S754_nan) /\
  (amount_row round_scaled (D_rupees f) = Some "-" <->
   StringToNumber (debtValue f) = S754_nan).
Proof.
  assert (Hrow : forall x, amount_row round_scaled x = Some "-" <-> x = S754_nan).
  { intros x. unfold amount_row, fmt. split.
    - destruct x; simpl; intros H; try reflexivity;
        exfalso; exact (toLocaleString_not_dash _ _ _ H).
    - intros ->. reflexivity. }
  assert (Hcur : forall s, croreToNumber (JSString s) = S754_nan <->
                           StringToNumber s = S754_nan).
  { intros s. unfold croreToNumber, js_or. simpl.
    destruct (String.eqb_spec s "") as [-> | Hs]; simpl.
    - split; discriminate.
    - apply fmul_nan_iff. }
  split; rewrite Hrow; apply Hcur.
Qed.

(** X14. The row [Computed] shows the WACC of the response when it has
    one, as the card does, and the WACC computed locally otherwise. *)
Theorem computed_row_source (f : form) (result : option (gmap string jsval)) :
  (nullish (opt_get result "wacc") = true ->
   computed_row exponential f result
     = percent exponential (JSNumber (waccComputed f result))) /\
  (forall d, result = Some d -> nullish (opt_get result "wacc") = false ->
   computed_row exponential f result = card_value exponential d "wacc").
Proof.
  unfold computed_row, coalesce. split.
  - intros ->. reflexivity.
  - intros d -> Hn. rewrite Hn. reflexivity.
Qed.

End DisplayFacts.

Lemma rate_row_dash_witness :
  rate_row no_exponential (rate_dec None "re" "") = Some "-".
Proof.
  apply (proj1 (rate_row_dash no_exponential None "re" "")). split; reflexivity.
Defined.

Lemma missing_response_fields_witness :
  card_value no_exponential (delete "wacc" scenario_response) "wacc" = Some "NaN".
Proof.
  apply (missing_response_fields no_exponential
           (delete "wacc" scenario_response) "wacc" scenario).
  vm_compute. reflexivity.
Defined.

Lemma percent_two_decimals_witness :
  exists s, percent no_exponential (JSNumber (waccComputed scenario None)) = Some s /\
            fraction_digits s = 2%nat.
Proof.
  apply (percent_two_decimals no_exponential); vm_compute; reflexivity.
Defined.

Lemma computed_row_source_witness :
  computed_row no_exponential scenario None = Some "10.35" /\
  computed_row no_exponential empty_form (Some scenario_response)
    = card_value no_exponential scenario_response "wacc".
Proof.
  destruct (computed_row_source no_exponential scenario None) as [Hloc _].
  destruct (computed_row_source no_exponential empty_form (Some scenario_response))
    as [_ Hres].
  split.
  - rewrite Hloc by reflexivity. vm_compute. reflexivity.
  - apply Hres; reflexivity.
Defined.

Example display_examples :
  percent no_exponential (JSNumber (StringToNumber "0.8")) = Some "80.00" /\
  percent no_exponential (JSNumber (StringToNumber "-0.00001")) = Some "-0.00" /\
  percent no_exponential (JSNumber (S754_zero true)) = Some "0.00" /\
  percent no_exponential (JSNumber (StringToNumber "0.12345")) = Some "12.35" /\
  percent no_exponential (JSNumber (StringToNumber "1.005")) = Some "100.50" /\
  percent no_exponential (JSString "abc") = Some "NaN" /\
  percent no_exponential (JSNumber pinf) = Some "Infinity" /\
  weight_row no_exponential (weightE scenario None) = Some "80.00%" /\
  toFixed no_exponential (StringToNumber "1.005") 2 = Some "1.00" /\
  toFixed no_exponential (StringToNumber "2.5") 0 = Some "3" /\
  toFixed no_exponential (StringToNumber "1234.5678") 101 = None.
Proof. repeat split; vm_compute; reflexivity. Qed.

(* ===================================================================== *)
(** * The weights within the unit interval *)
(* ===================================================================== *)

Local Close Scope string_scope.

(** ** Exact shifts *)

Lemma shr_1_double (k : Z) :
  0 <= k ->
  shr_1 {| shr_m := 2 * k; shr_r := false; shr_s := false |}
    = {| shr_m := k; shr_r := false; shr_s := false |}.
Proof. destruct k as [| p | p]; try lia; reflexivity. Qed.

Lemma iter_pos_shr_1_exact (p : positive) (k : Z) :
  0 <= k ->
  SpecFloat.iter_pos shr_1 p
    {| shr_m := k * 2 ^ Zpos p; shr_r := false; shr_s := false |}
    = {| shr_m := k; shr_r := false; shr_s := false |}.
Proof.
  revert k. induction p as [p IH | p IH | ]; intros k Hk; cbn [SpecFloat.iter_pos].
  - assert (Hp : 0 < 2 ^ Zpos p) by (apply Z.pow_pos_nonneg; lia).
    replace (k * 2 ^ Zpos p~1) with (2 * ((k * 2 ^ Zpos p) * 2 ^ Zpos p)).
    2:{ replace (Zpos p~1) with (1 + Zpos p + Zpos p) by lia.
        rewrite !Z.pow_add_r by lia. rewrite Z.pow_1_r. lia. }
    rewrite shr_1_double by nia.
    rewrite IH by nia. apply IH. assumption.
  - assert (Hp : 0 < 2 ^ Zpos p) by (apply Z.pow_pos_nonneg; lia).
    replace (k * 2 ^ Zpos p~0) with ((k * 2 ^ Zpos p) * 2 ^ Zpos p).
    2:{ replace (Zpos p~0) with (Zpos p + Zpos p) by lia.
        rewrite !Z.pow_add_r by lia. lia. }
    rewrite IH by nia. apply IH. assumption.
  - replace (k * 2 ^ 1) with (2 * k) by lia. apply shr_1_double. assumption.
Qed.

Lemma Zdigits2_div_pow2_eq (m n : Z) :
  0 < m -> 0 <= n < Zdigits2 m -> Zdigits2 (m / 2 ^ n) = Zdigits2 m - n.
Proof.
  intros Hm [Hn Hlt].
  pose proof (Zdigits2_div_pow2 m n ltac:(lia) Hn) as Hle.
  destruct (Zdigits2_bounds m Hm) as [Hlo _].
  assert (Hp : 0 < 2 ^ n) by (apply Z.pow_pos_nonneg; lia).
  assert (Hge : 2 ^ (Zdigits2 m - n - 1) <= m / 2 ^ n).
  { apply Z.div_le_lower_bound; [ lia | ].
    rewrite <- Z.pow_add_r by lia.
    replace (n + (Zdigits2 m - n - 1)) with (Zdigits2 m - 1) by lia. assumption. }
  pose proof (Zdigits2_gt (m / 2 ^ n) (Zdigits2 m - n - 1) ltac:(lia) Hge).
  lia.
Qed.

(** A mantissa [k * 2^n] whose [n] last places are dropped by the format
    is rounded to [k] exactly. *)
Lemma binary_round_aux_exact_shift (sx : bool) (k : positive) (n ex : Z) :
  0 <= n ->
  fexp prec emax (Zdigits2 (Zpos k) + n + ex) = ex + n ->
  binary_round_aux prec emax sx (Zpos k * 2 ^ n) ex loc_Exact =
    if ex + n <=? emax - prec then S754_finite sx k (ex + n)
    else S754_infinity sx.
Proof.
  intros Hn Hf.
  assert (Hd : Zdigits2 (Zpos k * 2 ^ n) = Zdigits2 (Zpos k) + n)
    by (apply Zdigits2_mul_pow2; lia).
  destruct (Z.eq_dec n 0) as [-> | Hn0].
  - rewrite Z.pow_0_r, Z.mul_1_r, Z.add_0_r in *.
    apply binary_round_aux_exact. simpl Zdigits2 in Hf. lia.
  - unfold binary_round_aux, shr_fexp. rewrite Hd.
    replace (Zdigits2 (Zpos k) + n + ex) with (Zdigits2 (Zpos k) + n + ex) by lia.
    rewrite Hf. replace (ex + n - ex) with n by lia.
    destruct n as [| p | p]; try lia.
    unfold shr. cbn [shr_record_of_loc].
    rewrite iter_pos_shr_1_exact by lia.
    cbn [loc_of_shr_record shr_m round_nearest_even].
    replace (Zdigits2 (Zpos k) + (ex + Zpos p)) with (Zdigits2 (Zpos k) + Zpos p + ex) by lia.
    rewrite Hf, Z.sub_diag. cbn [shr_record_of_loc shr_m]. reflexivity.
Qed.


Lemma div_eucl_exact (b t : Z) : 0 < b -> Z.div_eucl (b * t) b = (t, 0).
Proof.
  intros Hb.
  assert (H : Z.div_eucl (b * t) b = ((b * t) / b, (b * t) mod b)).
  { unfold Z.div, Z.modulo. destruct (Z.div_eucl (b * t) b). reflexivity. }
  rewrite H. f_equal.
  - rewrite Z.mul_comm. apply Z.div_mul. lia.
  - rewrite Z.mul_comm. apply Z.mod_mul. lia.
Qed.

Lemma new_location_zero (m : Z) : new_location m 0 = loc_Exact.
Proof.
  unfold new_location, new_location_even, new_location_odd.
  destruct (Z.even m); reflexivity.
Qed.

(** The quotient of two positive numbers of the same value is 1. *)
Lemma fdiv_same_value_Z (ma mb : positive) (ea eb : Z) :
  Zpos ma * 2 ^ (ea - Z.min ea eb) = Zpos mb * 2 ^ (eb - Z.min ea eb) ->
  fdiv (S754_finite false ma ea) (S754_finite false mb eb) = float_one.
Proof.
  intros H.
  assert (Hd : Zdigits2 (Zpos ma) + ea = Zdigits2 (Zpos mb) + eb).
  { pose proof (Zdigits2_mul_pow2 (Zpos ma) (ea - Z.min ea eb) ltac:(lia) ltac:(lia)) as H1.
    pose proof (Zdigits2_mul_pow2 (Zpos mb) (eb - Z.min ea eb) ltac:(lia) ltac:(lia)) as H2.
    rewrite H in H1. lia. }
  unfold fdiv. cbn [SFdiv]. unfold SFdiv_core_binary.
  replace (Zdigits2 (Zpos ma) + ea - (Zdigits2 (Zpos mb) + eb)) with 0 by lia.
  change (fexp prec emax 0) with (-53).
  set (e' := Z.min (-53) (ea - eb)).
  set (s := ea - eb - e').
  assert (Hs : 0 <= s) by (unfold s, e'; lia).
  assert (He' : e' <= -53) by (unfold e'; lia).
  assert (Hm' : match s with
                | 0 => Zpos ma
                | Zpos _ => Z.shiftl (Zpos ma) s
                | Zneg _ => 0
                end = Zpos mb * 2 ^ (- e')).
  { assert (Hsh : match s with
                  | 0 => Zpos ma
                  | Zpos _ => Z.shiftl (Zpos ma) s
                  | Zneg _ => 0
                  end = Zpos ma * 2 ^ s).
    { clearbody s. destruct s as [| p | p]; try lia.
      apply Z.shiftl_mul_pow2. lia. }
    rewrite Hsh.
    destruct (Z_le_gt_dec eb ea) as [Hle | Hgt].
    - rewrite Z.min_r in H by lia. rewrite Z.sub_diag, Z.pow_0_r, Z.mul_1_r in H.
      rewrite <- H. rewrite <- Z.mul_assoc, <- Z.pow_add_r by (unfold e' in *; lia).
      unfold s; repeat f_equal; lia.
    - rewrite Z.min_l in H by lia. rewrite Z.sub_diag, Z.pow_0_r, Z.mul_1_r in H.
      rewrite H. rewrite <- Z.mul_assoc, <- Z.pow_add_r by (unfold s, e' in *; lia).
      unfold s; repeat f_equal; lia. }
  rewrite Hm'. rewrite div_eucl_exact by lia. rewrite new_location_zero.
  replace (2 ^ (- e')) with (Zpos 4503599627370496 * 2 ^ (- e' - 52)).
  2:{ change (Zpos 4503599627370496) with (2 ^ 52).
      rewrite <- Z.pow_add_r by lia. f_equal. lia. }
  cbn [xorb].
  rewrite binary_round_aux_exact_shift.
  - replace (e' + (- e' - 52)) with (-52) by lia. reflexivity.
  - lia.
  - change (Zdigits2 (Zpos 4503599627370496)) with 53.
    replace (53 + (- e' - 52) + e') with 1 by lia.
    change (fexp prec emax 1) with (-52). lia.
Qed.

Lemma fdiv_self (m : positive) (e : Z) :
  fdiv (S754_finite false m e) (S754_finite false m e) = float_one.
Proof. apply fdiv_same_value_Z. reflexivity. Qed.

(** Multiplying a valid number by 1 gives it back. *)
Lemma fmul_one_l (x : float) :
  valid_binary prec emax x = true -> fmul float_one x = x.
Proof.
  destruct x as [s | s | | s m e]; try reflexivity.
  unfold valid_binary, bounded, canonical_mantissa.
  intros Hv. apply andb_prop in Hv. destruct Hv as [Hc Hb].
  apply Z.eqb_eq in Hc. apply Z.leb_le in Hb.
  unfold fmul, float_one. cbn [SFmul xorb].
  replace (Zpos (4503599627370496 * m)) with (Zpos m * 2 ^ 52) by (simpl; lia).
  rewrite binary_round_aux_exact_shift.
  - replace (-52 + e + 52) with e by lia.
    destruct (Z.leb_spec e (emax - prec)); [ reflexivity | lia ].
  - lia.
  - change (Zdigits2 (Zpos m)) with (Zpos (digits2_pos m)).
    replace (Zpos (digits2_pos m) + 52 + (-52 + e)) with (Zpos (digits2_pos m) + e) by lia.
    lia.
Qed.

Ltac unfold_fexp := unfold fexp, emin, prec, emax in *.

(** ** Results of the rounding are valid numbers *)

Lemma valid_finite_intro (s : bool) (m : positive) (e : Z) :
  fexp prec emax (Zdigits2 (Zpos m) + e) = e -> e <= emax - prec ->
  valid_binary prec emax (S754_finite s m e) = true.
Proof.
  intros Hc Hb. unfold valid_binary, bounded, canonical_mantissa.
  apply andb_true_intro. split; [ apply Z.eqb_eq; exact Hc | apply Z.leb_le; exact Hb ].
Qed.

Lemma valid_finite_inv (s : bool) (m : positive) (e : Z) :
  valid_binary prec emax (S754_finite s m e) = true ->
  fexp prec emax (Zdigits2 (Zpos m) + e) = e /\ e <= emax - prec.
Proof.
  unfold valid_binary, bounded, canonical_mantissa. intros H.
  apply andb_prop in H. destruct H as [Hc Hb].
  split; [ apply Z.eqb_eq; exact Hc | apply Z.leb_le; exact Hb ].
Qed.

Lemma Zdigits2_half (m : Z) : 2 <= m -> Zdigits2 (m / 2) = Zdigits2 m - 1.
Proof.
  intros Hm.
  assert (Hd : 1 < Zdigits2 m).
  { apply (Zdigits2_gt m 1); lia. }
  pose proof (Zdigits2_div_pow2_eq m 1 ltac:(lia) ltac:(lia)) as H.
  rewrite Z.pow_1_r in H. exact H.
Qed.

Lemma binary_round_aux_valid (sx : bool) (mx ex : Z) (lx : location) :
  0 <= mx ->
  ex <= fexp prec emax (Zdigits2 mx + ex) ->
  valid_binary prec emax (binary_round_aux prec emax sx mx ex lx) = true.
Proof.
  intros Hmx Hex.
  destruct (binary_round_aux_struct sx mx ex lx Hmx) as (m1' & Hm1' & ->).
  set (d := Zdigits2 mx) in *.
  set (e1 := fexp prec emax (d + ex)) in *.
  rewrite !(Z.max_r ex e1) by exact Hex.
  rewrite !(Z.max_r ex e1) in Hm1' by exact Hex.
  set (m1 := mx / 2 ^ (e1 - ex)) in *.
  set (e2 := Z.max e1 (fexp prec emax (Zdigits2 m1' + e1))) in *.
  assert (Hn1 : 0 <= e1 - ex) by lia.
  assert (Hm1 : 0 <= m1).
  { unfold m1. apply Z.div_pos; [ lia | apply Z.pow_pos_nonneg; lia ]. }
  assert (Hemin : emin prec emax <= e1) by (unfold e1, fexp; lia).
  (* digits of the shifted mantissa *)
  assert (Hd1 : (m1 = 0 /\ e1 = emin prec emax) \/
                (0 < m1 /\ fexp prec emax (Zdigits2 m1 + e1) = e1)).
  { destruct (Z_le_gt_dec d (e1 - ex)) as [Hle | Hgt].
    - left. split.
      + destruct (Z.eq_dec mx 0) as [-> | Hne].
        * unfold m1. apply Z.div_0_l.
          assert (0 < 2 ^ (e1 - ex)) by (apply Z.pow_pos_nonneg; lia). lia.
        * unfold m1. apply Z.div_small. split; [ lia | ].
          destruct (Zdigits2_bounds mx ltac:(lia)) as [_ Hhi]. fold d in Hhi.
          assert (2 ^ d <= 2 ^ (e1 - ex)) by (apply Z.pow_le_mono_r; lia). lia.
      + unfold e1 in *. unfold_fexp. lia.
    - right.
      assert (Hmxpos : 0 < mx).
      { destruct (Z.eq_dec mx 0) as [-> | Hne]; [ simpl in d; lia | lia ]. }
      pose proof (Zdigits2_div_pow2_eq mx (e1 - ex) Hmxpos ltac:(fold d; lia)) as Hdd.
      fold d in Hdd. fold m1 in Hdd.
      split.
      + destruct (Z.eq_dec m1 0) as [H0 | Hne]; [ | lia ].
        rewrite H0 in Hdd. simpl in Hdd. lia.
      + rewrite Hdd. replace (d - (e1 - ex) + e1) with (d + ex) by lia. reflexivity. }
  pose proof (Zdigits2_succ m1 Hm1) as Hds.
  pose proof (Zdigits2_mono m1 m1' ltac:(lia)) as Hdm.
  pose proof (Zdigits2_mono m1' (m1 + 1) ltac:(lia)) as Hdm'.
  destruct (Z.eq_dec m1' 0) as [Hz | Hnz].
  { rewrite Hz. rewrite Z.div_0_l; [ reflexivity | ].
    assert (0 < 2 ^ (e2 - e1)) by (apply Z.pow_pos_nonneg; unfold e2; lia). lia. }
  assert (Hm1'pos : 0 < m1') by lia.
  assert (Hfe : e1 <= fexp prec emax (Zdigits2 m1' + e1)).
  { destruct Hd1 as [[H0 He] | [Hpos Hf]].
    - assert (m1' = 1) by lia. subst m1'. simpl Zdigits2. unfold_fexp. lia.
    - rewrite <- Hf at 1. unfold_fexp. lia. }
  assert (He2 : e2 = fexp prec emax (Zdigits2 m1' + e1)) by (unfold e2; lia).
  assert (Hfe' : fexp prec emax (Zdigits2 m1' + e1) <= e1 + 1).
  { destruct Hd1 as [[H0 He] | [Hpos Hf]].
    - assert (m1' = 1) by lia. subst m1'. simpl Zdigits2. unfold_fexp. lia.
    - assert (fexp prec emax (Zdigits2 m1 + 1 + e1) <= e1 + 1)
        by (rewrite <- Hf at 2; unfold_fexp; lia).
      unfold_fexp. lia. }
  destruct (Z.eq_dec e2 e1) as [Heq | Hneq].
  - (* no second shift *)
    rewrite Heq, Z.sub_diag, Z.pow_0_r, Z.div_1_r.
    destruct m1' as [| p | p]; try lia.
    destruct (Z.leb_spec e1 (emax - prec)); [ | reflexivity ].
    apply valid_finite_intro; [ lia | assumption ].
  - (* a second shift of one place *)
    assert (He2' : e2 = e1 + 1) by lia.
    rewrite He2'. replace (e1 + 1 - e1) with 1 by lia. rewrite Z.pow_1_r.
    assert (Hge2 : 2 <= m1').
    { destruct (Z.eq_dec m1' 1) as [H1 | H1]; [ | lia ].
      exfalso. rewrite H1 in He2. simpl Zdigits2 in He2. unfold_fexp. lia. }
    pose proof (Zdigits2_half m1' Hge2) as Hh.
    assert (Hq : 0 < m1' / 2) by (apply Z.div_str_pos; lia).
    destruct (m1' / 2) as [| p | p] eqn:Hp; try lia.
    destruct (Z.leb_spec (e1 + 1) (emax - prec)); [ | reflexivity ].
    apply valid_finite_intro; [ | assumption ].
    rewrite Hh. replace (Zdigits2 m1' - 1 + (e1 + 1)) with (Zdigits2 m1' + e1) by lia.
    lia.
Qed.

Lemma binary_round_valid (sx : bool) (p : positive) (ez : Z) :
  valid_binary prec emax (binary_round prec emax sx p ez) = true.
Proof.
  unfold binary_round.
  change (Zpos (digits2_pos p)) with (Zdigits2 (Zpos p)).
  set (f := fexp prec emax (Zdigits2 (Zpos p) + ez)).
  destruct (shl_align_spec p ez f) as [Hsnd Hfst].
  destruct (shl_align p ez f) as [mz ez'] eqn:Hsh. simpl in Hsnd, Hfst.
  apply binary_round_aux_valid; [ lia | ].
  rewrite Hfst, Hsnd.
  rewrite Zdigits2_mul_pow2 by lia.
  replace (Zdigits2 (Zpos p) + (ez - Z.min ez f) + Z.min ez f)
    with (Zdigits2 (Zpos p) + ez) by lia.
  fold f. lia.
Qed.

Lemma of_Z_valid (n : Z) : valid_binary prec emax (of_Z n) = true.
Proof.
  unfold of_Z, binary_normalize. destruct n; [ reflexivity | | ];
    apply binary_round_valid.
Qed.

Lemma SFdiv_core_valid (sx : bool) (m1 m2 : positive) (e1 e2 : Z) :
  valid_binary prec emax
    (let '(q, e', l) := SFdiv_core_binary prec emax (Zpos m1) e1 (Zpos m2) e2 in
     binary_round_aux prec emax sx q e' l) = true.
Proof.
  destruct (SFdiv_core_spec m1 m2 e1 e2) as (q & l & Hcore & Hq & Hlo & Hhi).
  pose proof (SFdiv_core_exponent m1 m2 e1 e2 q Hq (conj Hlo Hhi)) as Hexp.
  cbv zeta in Hcore, Hexp. rewrite Hcore.
  apply binary_round_aux_valid; assumption.
Qed.

Lemma fdiv_valid (a b : float) : valid_binary prec emax (fdiv a b) = true.
Proof.
  destruct a as [sa | sa | | sa ma ea], b as [sb | sb | | sb mb eb];
    try reflexivity.
  unfold fdiv. cbn [SFdiv]. apply SFdiv_core_valid.
Qed.

Lemma of_decimal_valid (s : bool) (m : N) (e : Z) :
  valid_binary prec emax (of_decimal s m e) = true.
Proof.
  unfold of_decimal. destruct m as [| p]; [ reflexivity | ].
  destruct (400 <? e); [ reflexivity | ].
  destruct (Z.leb_spec 0 e) as [Hpos | Hneg]; [ apply binary_round_valid | ].
  destruct (e + digits_bound p <? -400); [ reflexivity | ].
  assert (Hpow : 0 < 10 ^ (- e)) by (apply Z.pow_pos_nonneg; lia).
  destruct (10 ^ (- e)) as [| p2 | p2] eqn:Hp; try lia.
  apply SFdiv_core_valid.
Qed.

Lemma unsigned_decimal_valid (s : bool) (str : string) :
  valid_binary prec emax (unsigned_decimal s str) = true.
Proof.
  unfold unsigned_decimal.
  destruct (String.eqb str "Infinity"); [ reflexivity | ].
  destruct (read_digits 0 0 str) as [[int_v int_n] r].
  match goal with
  | |- context [match ?t with pair _ _ => _ end] => destruct t as [[mant frac_n] r1]
  end.
  destruct (int_n + frac_n)%nat; [ reflexivity | ].
  destruct (read_exponent r1); [ apply of_decimal_valid | reflexivity ].
Qed.

Lemma radix_literal_valid (base : N) (digits : string) :
  valid_binary prec emax (radix_literal base digits) = true.
Proof.
  unfold radix_literal. destruct digits; [ reflexivity | ].
  destruct (read_radix base 0 _); [ apply of_Z_valid | reflexivity ].
Qed.

Lemma StringToNumber_valid (s : string) :
  valid_binary prec emax (StringToNumber s) = true.
Proof.
  unfold StringToNumber.
  repeat match goal with
         | |- context [match ?x with _ => _ end] => destruct x
         end;
    first [ reflexivity | apply radix_literal_valid | apply unsigned_decimal_valid ].
Qed.

Lemma fmul_valid (a b : float) :
  valid_binary prec emax a = true -> valid_binary prec emax b = true ->
  valid_binary prec emax (fmul a b) = true.
Proof.
  destruct a as [sa | sa | | sa ma ea], b as [sb | sb | | sb mb eb];
    try reflexivity.
  intros Ha Hb.
  apply valid_finite_inv in Ha. apply valid_finite_inv in Hb.
  destruct Ha as [Ha _]. destruct Hb as [Hb _].
  unfold fmul. cbn [SFmul]. apply binary_round_aux_valid; [ lia | ].
  destruct (Zdigits2_bounds (Zpos ma) ltac:(lia)) as [Hla _].
  destruct (Zdigits2_bounds (Zpos mb) ltac:(lia)) as [Hlb _].
  pose proof (Zdigits2_pos (Zpos ma) ltac:(lia)) as Hda.
  pose proof (Zdigits2_pos (Zpos mb) ltac:(lia)) as Hdb.
  assert (Hprod : 2 ^ (Zdigits2 (Zpos ma) + Zdigits2 (Zpos mb) - 2) <= Zpos (ma * mb)).
  { replace (Zdigits2 (Zpos ma) + Zdigits2 (Zpos mb) - 2)
      with ((Zdigits2 (Zpos ma) - 1) + (Zdigits2 (Zpos mb) - 1)) by lia.
    rewrite Z.pow_add_r by lia. rewrite Pos2Z.inj_mul.
    assert (0 < 2 ^ (Zdigits2 (Zpos ma) - 1)) by (apply Z.pow_pos_nonneg; lia).
    assert (0 < 2 ^ (Zdigits2 (Zpos mb) - 1)) by (apply Z.pow_pos_nonneg; lia).
    apply Z.mul_le_mono_nonneg; lia. }
  assert (Hk : 0 <= Zdigits2 (Zpos ma) + Zdigits2 (Zpos mb) - 2) by lia.
  pose proof (Zdigits2_gt (Zpos (ma * mb)) _ Hk Hprod) as Hd.
  unfold_fexp. lia.
Qed.

Lemma fadd_valid (a b : float) :
  valid_binary prec emax a = true -> valid_binary prec emax b = true ->
  valid_binary prec emax (fadd a b) = true.
Proof.
  destruct a as [sa | sa | | sa ma ea], b as [sb | sb | | sb mb eb];
    intros Ha Hb; try reflexivity; try assumption;
    try (destruct sa, sb; reflexivity).
  unfold fadd. cbn [SFadd]. unfold binary_normalize.
  match goal with
  | |- valid_binary _ _ (match ?z with _ => _ end) = true => destruct z
  end; [ reflexivity | apply binary_round_valid | apply binary_round_valid ].
Qed.

Lemma croreToNumber_valid (s : string) :
  valid_binary prec emax (croreToNumber (JSString s)) = true.
Proof.
  unfold croreToNumber. apply fmul_valid; [ | apply of_Z_valid ].
  unfold js_or. destruct (truthy (JSString s)); simpl;
    [ apply StringToNumber_valid | reflexivity ].
Qed.

Lemma valid_good (x : float) : valid_binary prec emax x = true -> good x.
Proof.
  destruct x as [s | s | | s m e]; cbn [good]; trivial.
  intros H. apply valid_finite_inv in H. destruct H as [H _]. unfold_fexp. lia.
Qed.

(** ** Where a rounded value lies *)

(** The result of a rounding lies between the two neighbours of the
    value on the grid of its exponent. *)
Lemma binary_round_aux_grid (mx ex : Z) (lx : location) :
  0 <= mx ->
  let e1 := Z.max ex (fexp prec emax (Zdigits2 mx + ex)) in
  let m1 := mx / 2 ^ (e1 - ex) in
  let r := binary_round_aux prec emax false mx ex lx in
  (r = S754_infinity false /\ emax - prec <= e1) \/
  (nonneg_good r /\
   (inject_Z m1 * pow2 e1 <= F2Q r)%Q /\
   (F2Q r <= inject_Z (m1 + 1) * pow2 e1)%Q).
Proof.
  intros Hmx e1 m1 r.
  destruct (binary_round_aux_struct false mx ex lx Hmx) as (m1' & Hstruct).
  cbv zeta in Hstruct. fold e1 in Hstruct. fold m1 in Hstruct.
  set (e2 := Z.max e1 (fexp prec emax (Zdigits2 m1' + e1))) in *.
  set (m2 := m1' / 2 ^ (e2 - e1)) in *.
  destruct Hstruct as [[Hm1a Hm1b] Hr]. fold r in Hr.
  assert (Hn1 : 0 <= e1 - ex) by (unfold e1; lia).
  assert (Hm1 : 0 <= m1).
  { unfold m1. apply Z.div_pos; [ lia | apply Z.pow_pos_nonneg; lia ]. }
  assert (Hemin : emin prec emax <= e1) by (unfold e1, fexp; lia).
  pose proof (Zdigits2_div_pow2 mx (e1 - ex) Hmx Hn1) as Hd1. fold m1 in Hd1.
  pose proof (Zdigits2_succ m1 Hm1) as Hd2.
  pose proof (Zdigits2_mono m1' (m1 + 1) ltac:(lia)) as Hd3.
  assert (He2 : e2 = e1 \/ (e2 = e1 + 1 /\ m1' = m1 + 1)).
  { destruct (Z.eq_dec m1' m1) as [Heq | Hne].
    - left. unfold e2. rewrite Heq. unfold e1 in *. unfold_fexp. lia.
    - assert (m1' = m1 + 1) by lia.
      unfold e2. unfold e1 in *. unfold_fexp. lia. }
  assert (Hn2 : 0 <= e2 - e1) by lia.
  assert (Hm2 : 0 <= m2).
  { unfold m2. apply Z.div_pos; [ lia | apply Z.pow_pos_nonneg; lia ]. }
  pose proof (pow2_pos e1) as Hp1.
  assert (Hp1' : (0 <= pow2 e1)%Q) by lra.
  (* the value of the mantissa kept *)
  assert (Hlow : (inject_Z m1 * pow2 e1 <= inject_Z m2 * pow2 e2)%Q).
  { destruct He2 as [He | [He Hm]].
    - unfold m2. rewrite He, Z.sub_diag, Z.pow_0_r, Z.div_1_r.
      apply inject_Z_le_mul; assumption.
    - unfold m2. rewrite He. replace (e1 + 1 - e1) with 1 by lia.
      rewrite Z.pow_1_r, pow2_succ.
      assert (Hh : m1 <= 2 * (m1' / 2)).
      { pose proof (Z.mul_succ_div_gt m1' 2 ltac:(lia)). lia. }
      rewrite Zle_Qle, inject_Z_mult in Hh. change (inject_Z 2) with 2%Q in Hh.
      assert (E : (inject_Z (m1' / 2) * (2 * pow2 e1)
                   == (2 * inject_Z (m1' / 2)) * pow2 e1)%Q) by ring.
      rewrite E. apply Qmult_le_compat_r; assumption. }
  assert (Hup : (inject_Z m2 * pow2 e2 <= inject_Z (m1 + 1) * pow2 e1)%Q).
  { destruct (floor_scale m1' (e2 - e1) e1 ltac:(lia) Hn2) as [Hb3 _].
    replace (e1 + (e2 - e1)) with e2 in Hb3 by lia. fold m2 in Hb3.
    pose proof (inject_Z_le_mul m1' (m1 + 1) (pow2 e1) Hm1b Hp1'). lra. }
  destruct m2 as [| p | p] eqn:Hm2eq; try lia.
  - right. rewrite Hr. cbn [F2Q nonneg_good].
    change (inject_Z 0) with 0%Q in *. split; [ exact I | split; lra ].
  - destruct (e2 <=? emax - prec) eqn:Hle.
    + right. rewrite Hr. cbn [F2Q nonneg_good]. apply Z.leb_le in Hle.
      split; [ lia | split; lra ].
    + left. apply Z.leb_gt in Hle. split; [ exact Hr | lia ].
Qed.

(** The quotient of two positive numbers, as a rounding. *)
Lemma fdiv_bracket (ma mb : positive) (ea eb : Z) (x : Q) :
  (x * F2Q (S754_finite false mb eb) == F2Q (S754_finite false ma ea))%Q ->
  exists q e' l,
    fdiv (S754_finite false ma ea) (S754_finite false mb eb)
      = binary_round_aux prec emax false q e' l /\
    0 <= q /\
    (inject_Z q * pow2 e' <= x)%Q /\
    (x < inject_Z (q + 1) * pow2 e')%Q /\
    e' <= fexp prec emax (Zdigits2 q + e').
Proof.
  intros Hx. unfold fdiv. cbn [SFdiv xorb].
  destruct (SFdiv_core_spec ma mb ea eb) as (q & l & Hcore & Hq & Hlo & Hhi).
  pose proof (SFdiv_core_exponent ma mb ea eb q Hq (conj Hlo Hhi)) as Hexp.
  cbv zeta in Hcore, Hexp, Hlo, Hhi.
  set (e' := Z.min (fexp prec emax (Zdigits2 (Zpos ma) + ea - (Zdigits2 (Zpos mb) + eb)))
                   (ea - eb)) in *.
  rewrite Hcore. exists q, e', l. split; [ reflexivity | ].
  split; [ exact Hq | ].
  set (s := ea - eb - e') in *.
  assert (Hs : 0 <= s) by (unfold s, e'; lia).
  pose proof (pow2_pos e') as Hpe'. pose proof (pow2_pos eb) as Hpeb.
  pose proof (inject_Z_pos mb) as Hmb.
  assert (Hea : (pow2 ea == pow2 e' * inject_Z (2 ^ s) * pow2 eb)%Q).
  { rewrite <- (pow2_Z s Hs), <- !pow2_add. replace (e' + s + eb) with ea by (unfold s; lia).
    reflexivity. }
  unfold F2Q in Hx. rewrite Hea in Hx.
  assert (Hx' : (x * inject_Z (Zpos mb)
                 == inject_Z (Zpos ma * 2 ^ s) * pow2 e')%Q).
  { rewrite inject_Z_mult.
    apply (Qmult_inj_r _ _ (pow2 eb)); [ lra | ].
    rewrite <- Qmult_assoc. rewrite <- Qmult_assoc in Hx.
    setoid_rewrite Qmult_1_l in Hx. rewrite Hx. ring. }
  rewrite Zle_Qle in Hlo. rewrite Zlt_Qlt in Hhi.
  rewrite inject_Z_mult in Hlo, Hhi.
  split; [ | split; [ | exact Hexp ] ].
  - apply (Qmult_pos_le_reg _ _ (inject_Z (Zpos mb)) Hmb). rewrite Hx'.
    assert (E : (inject_Z q * pow2 e' * inject_Z (Zpos mb)
                 == (inject_Z q * inject_Z (Zpos mb)) * pow2 e')%Q) by ring.
    rewrite E. apply Qmult_le_compat_r; [ assumption | lra ].
  - apply (Qmult_pos_lt_reg _ _ (inject_Z (Zpos mb)) Hmb). rewrite Hx'.
    assert (E : (inject_Z (q + 1) * pow2 e' * inject_Z (Zpos mb)
                 == (inject_Z (q + 1) * inject_Z (Zpos mb)) * pow2 e')%Q) by ring.
    rewrite E. apply Qmult_lt_compat_r; assumption.
Qed.

Lemma pow2_lt_inv (a b : Z) : (pow2 a < pow2 b)%Q -> a < b.
Proof.
  intros H. destruct (Z_lt_le_dec a b) as [| Hge]; [ assumption | exfalso ].
  pose proof (pow2_le b a Hge). lra.
Qed.

Lemma pos_value_bounds (m : positive) (e : Z) :
  (pow2 (Zdigits2 (Zpos m) - 1 + e) <= inject_Z (Zpos m) * pow2 e)%Q /\
  (inject_Z (Zpos m) * pow2 e < pow2 (Zdigits2 (Zpos m) + e))%Q.
Proof.
  destruct (Zdigits2_bounds (Zpos m) ltac:(lia)) as [Hlo Hhi].
  pose proof (Zdigits2_pos (Zpos m) ltac:(lia)) as Hd.
  pose proof (pow2_pos e) as Hp.
  rewrite Zle_Qle in Hlo. rewrite Zlt_Qlt in Hhi.
  rewrite <- pow2_Z in Hlo, Hhi by lia.
  rewrite !pow2_add. split.
  - apply Qmult_le_compat_r; [ assumption | lra ].
  - apply Qmult_lt_compat_r; assumption.
Qed.

(** A representable number below a value is below the grid point under
    that value. *)
Lemma floor_ge_representable (mE : positive) (eE mx ex : Z) :
  0 <= mx ->
  fexp prec emax (Zdigits2 (Zpos mE) + eE) = eE ->
  (inject_Z (Zpos mE) * pow2 eE <= inject_Z mx * pow2 ex)%Q ->
  let e1 := Z.max ex (fexp prec emax (Zdigits2 mx + ex)) in
  let m1 := mx / 2 ^ (e1 - ex) in
  (inject_Z (Zpos mE) * pow2 eE <= inject_Z m1 * pow2 e1)%Q.
Proof.
  intros Hmx HcE Hle e1 m1.
  pose proof (pow2_pos eE) as HpE. pose proof (pow2_pos ex) as Hpx.
  pose proof (inject_Z_pos mE) as HmE.
  assert (HE0 : (0 < inject_Z (Zpos mE) * pow2 eE)%Q)
    by (apply Qmult_lt_0_compat; assumption).
  assert (Hmx0 : 0 < mx).
  { destruct (Z_lt_le_dec 0 mx) as [| Hz]; [ assumption | exfalso ].
    assert (mx = 0) by lia. subst mx. change (inject_Z 0) with 0%Q in Hle. lra. }
  destruct (Z_le_gt_dec (fexp prec emax (Zdigits2 mx + ex)) ex) as [Hrep | Hrnd].
  - unfold m1, e1. rewrite Z.max_l by lia.
    rewrite Z.sub_diag, Z.pow_0_r, Z.div_1_r. exact Hle.
  - assert (He1 : e1 = fexp prec emax (Zdigits2 mx + ex)) by (unfold e1; lia).
    destruct mx as [| px | px]; try lia.
    destruct (pos_value_bounds mE eE) as [HEl HEh].
    destruct (pos_value_bounds px ex) as [Hxl Hxh].
    assert (Hmag : Zdigits2 (Zpos mE) - 1 + eE < Zdigits2 (Zpos px) + ex).
    { apply pow2_lt_inv. lra. }
    assert (Hn : 0 <= e1 - ex) by lia.
    assert (Hp2 : 0 < 2 ^ (e1 - ex)) by (apply Z.pow_pos_nonneg; lia).
    pose proof (pow2_pos e1) as Hp1.
    destruct (Z.eq_dec eE e1) as [Heq | Hne].
    + (* the same grid *)
      assert (HZ : Zpos mE * 2 ^ (e1 - ex) <= Zpos px).
      { rewrite Zle_Qle, inject_Z_mult, <- pow2_Z by lia.
        apply (Qmult_pos_le_reg _ _ (pow2 ex) Hpx).
        rewrite <- Qmult_assoc, <- pow2_add.
        replace (e1 - ex + ex) with e1 by lia. rewrite <- Heq. exact Hle. }
      assert (Hm1 : Zpos mE <= m1).
      { unfold m1. apply Z.div_le_lower_bound; [ assumption | lia ]. }
      rewrite Heq. apply inject_Z_le_mul; [ assumption | lra ].
    + (* a coarser grid: a power of two lies in between *)
      assert (He1' : e1 = Zdigits2 (Zpos px) + ex - prec /\
                      Zdigits2 (Zpos mE) + eE <= Zdigits2 (Zpos px) + ex - 1).
      { unfold fexp, emin, prec, emax in *. lia. }
      destruct He1' as [He1' Hmag'].
      destruct (Zdigits2_bounds (Zpos px) ltac:(lia)) as [Hxlo _].
      assert (Hdx : prec <= Zdigits2 (Zpos px)) by lia.
      assert (Hm1 : 2 ^ (prec - 1) <= m1).
      { unfold m1. apply Z.div_le_lower_bound; [ assumption | ].
        rewrite <- Z.pow_add_r by (unfold prec in *; lia).
        replace (e1 - ex + (prec - 1)) with (Zdigits2 (Zpos px) - 1) by lia.
        exact Hxlo. }
      assert (Hm1q : (pow2 (prec - 1) * pow2 e1 <= inject_Z m1 * pow2 e1)%Q).
      { rewrite pow2_Z by (unfold prec; lia).
        apply inject_Z_le_mul; [ assumption | lra ]. }
      rewrite <- pow2_add in Hm1q.
      pose proof (pow2_le (Zdigits2 (Zpos mE) + eE) (prec - 1 + e1) ltac:(lia)).
      lra.
Qed.

(** [binary_round] aligns the mantissa and rounds it; the value is kept. *)
Lemma binary_round_as_aux (p : positive) (ez : Z) :
  exists (mz : positive) (ez' : Z),
    binary_round prec emax false p ez
      = binary_round_aux prec emax false (Zpos mz) ez' loc_Exact /\
    (inject_Z (Zpos mz) * pow2 ez' == inject_Z (Zpos p) * pow2 ez)%Q.
Proof.
  unfold binary_round.
  set (f := fexp prec emax (Zpos (digits2_pos p) + ez)).
  destruct (shl_align_spec p ez f) as [Hsnd Hfst].
  destruct (shl_align p ez f) as [mz ez'] eqn:Hsh. simpl in Hsnd, Hfst.
  exists mz, ez'. split; [ reflexivity | ].
  rewrite Hfst, inject_Z_mult, <- pow2_Z by lia.
  rewrite <- Qmult_assoc, <- pow2_add. subst ez'.
  replace (ez - Z.min ez f + Z.min ez f) with ez by lia. reflexivity.
Qed.

(** Rounding keeps a value above every representable number below it. *)
Lemma binary_round_ge (mE p : positive) (eE ez : Z) :
  fexp prec emax (Zdigits2 (Zpos mE) + eE) = eE ->
  (inject_Z (Zpos mE) * pow2 eE <= inject_Z (Zpos p) * pow2 ez)%Q ->
  let r := binary_round prec emax false p ez in
  r = S754_infinity false \/
  (nonneg_good r /\ (inject_Z (Zpos mE) * pow2 eE <= F2Q r)%Q).
Proof.
  intros Hc Hle r.
  destruct (binary_round_as_aux p ez) as (mz & ez' & Hr & Hv).
  unfold r. rewrite Hr. rewrite <- Hv in Hle.
  pose proof (floor_ge_representable mE eE (Zpos mz) ez' ltac:(lia) Hc Hle) as Hfl.
  destruct (binary_round_aux_grid (Zpos mz) ez' loc_Exact ltac:(lia))
    as [[Hinf _] | (Hg & Hlo & _)].
  - left. exact Hinf.
  - right. split; [ exact Hg | ]. cbv zeta in Hfl. lra.
Qed.

Lemma F2Q_pos (m : positive) (e : Z) : (0 < F2Q (S754_finite false m e))%Q.
Proof.
  cbn [F2Q]. pose proof (inject_Z_pos m). pose proof (pow2_pos e).
  assert (0 < inject_Z (Zpos m) * pow2 e)%Q by (apply Qmult_lt_0_compat; assumption).
  lra.
Qed.

(** The sum of two positive numbers is not below either of them. *)
Lemma fadd_pos_ge (ma mb : positive) (ea eb : Z) :
  let a := S754_finite false ma ea in
  let b := S754_finite false mb eb in
  valid_binary prec emax a = true -> valid_binary prec emax b = true ->
  fadd a b = S754_infinity false \/
  (nonneg_good (fadd a b) /\
   (F2Q a <= F2Q (fadd a b))%Q /\ (F2Q b <= F2Q (fadd a b))%Q).
Proof.
  intros a b Ha Hb.
  apply valid_finite_inv in Ha. apply valid_finite_inv in Hb.
  destruct Ha as [Ha _]. destruct Hb as [Hb _].
  pose proof (F2Q_pos ma ea) as Ha0. pose proof (F2Q_pos mb eb) as Hb0.
  fold a in Ha0. fold b in Hb0.
  unfold fadd, a, b. simpl SFadd.
  set (ez := Z.min ea eb).
  destruct (shl_align_spec ma ea ez) as [_ Hpa].
  destruct (shl_align_spec mb eb ez) as [_ Hpb].
  rewrite Z.min_r in Hpa by (unfold ez; lia).
  rewrite Z.min_r in Hpb by (unfold ez; lia).
  set (pa := fst (shl_align ma ea ez)) in *.
  set (pb := fst (shl_align mb eb ez)) in *.
  change (Zpos pa + Zpos pb) with (Zpos (pa + pb)). simpl binary_normalize.
  assert (Hx : (inject_Z (Zpos (pa + pb)) * pow2 ez == F2Q a + F2Q b)%Q).
  { rewrite Pos2Z.inj_add, inject_Z_plus, Hpa, Hpb, !inject_Z_mult.
    rewrite <- !pow2_Z by (unfold ez; lia).
    unfold a, b, F2Q.
    assert (E1 : (pow2 ea == pow2 (ea - ez) * pow2 ez)%Q).
    { rewrite <- pow2_add. replace (ea - ez + ez) with ea by lia. reflexivity. }
    assert (E2 : (pow2 eb == pow2 (eb - ez) * pow2 ez)%Q).
    { rewrite <- pow2_add. replace (eb - ez + ez) with eb by lia. reflexivity. }
    rewrite E1, E2. ring. }
  assert (Hla : (inject_Z (Zpos ma) * pow2 ea <= inject_Z (Zpos (pa + pb)) * pow2 ez)%Q).
  { rewrite Hx. unfold a, b in *. cbn [F2Q] in *. lra. }
  assert (Hlb : (inject_Z (Zpos mb) * pow2 eb <= inject_Z (Zpos (pa + pb)) * pow2 ez)%Q).
  { rewrite Hx. unfold a, b in *. cbn [F2Q] in *. lra. }
  destruct (binary_round_ge ma (pa + pb) ea ez Ha Hla) as [Hinf | [Hg H1]];
    [ left; exact Hinf | ].
  destruct (binary_round_ge mb (pa + pb) eb ez Hb Hlb) as [Hinf | [_ H2]];
    [ left; exact Hinf | ].
  right. split; [ exact Hg | ]. unfold a, b. cbn [F2Q]. split; lra.
Qed.

(** Two positive numbers of the same value, seen on a common exponent. *)
Lemma same_value_Z (ma mb : positive) (ea eb : Z) :
  (F2Q (S754_finite false ma ea) == F2Q (S754_finite false mb eb))%Q ->
  Zpos ma * 2 ^ (ea - Z.min ea eb) = Zpos mb * 2 ^ (eb - Z.min ea eb).
Proof.
  cbn [F2Q]. intros H. set (ez := Z.min ea eb).
  apply inject_Z_injective. rewrite !inject_Z_mult, <- !pow2_Z by (unfold ez; lia).
  assert (E1 : (pow2 ea == pow2 (ea - ez) * pow2 ez)%Q).
  { rewrite <- pow2_add. replace (ea - ez + ez) with ea by lia. reflexivity. }
  assert (E2 : (pow2 eb == pow2 (eb - ez) * pow2 ez)%Q).
  { rewrite <- pow2_add. replace (eb - ez + ez) with eb by lia. reflexivity. }
  rewrite E1, E2 in H. pose proof (pow2_pos ez) as Hp.
  apply (Qmult_inj_r _ _ (pow2 ez)); [ lra | ]. lra.
Qed.

Lemma F2Q_float_one : (F2Q float_one == 1)%Q.
Proof. reflexivity. Qed.

(** A quotient of positive numbers, the first not above the second, is at
    most one, whatever the rounding. *)
Lemma fdiv_le_one (ma mb : positive) (ea eb : Z) :
  let a := S754_finite false ma ea in
  let b := S754_finite false mb eb in
  (F2Q a <= F2Q b)%Q ->
  nonneg_good (fdiv a b) /\ (F2Q (fdiv a b) <= 1)%Q.
Proof.
  intros a b Hle.
  pose proof (F2Q_pos ma ea) as Ha0. pose proof (F2Q_pos mb eb) as Hb0.
  fold a in Ha0. fold b in Hb0.
  destruct (Qlt_le_dec (F2Q a) (F2Q b)) as [Hlt | Hge].
  - set (x := (F2Q a / F2Q b)%Q).
    assert (Hx : (x * F2Q b == F2Q a)%Q).
    { unfold x. field. lra. }
    assert (Hx1 : (x < 1)%Q).
    { apply (Qmult_pos_lt_reg _ _ (F2Q b) Hb0). rewrite Hx. lra. }
    destruct (fdiv_bracket ma mb ea eb x Hx) as (q & e' & l & Hdiv & Hq & Hlo & Hhi & Hexp).
    fold a b in Hdiv. rewrite Hdiv.
    pose proof (binary_round_aux_grid q e' l Hq) as Hgrid. cbv zeta in Hgrid.
    set (e1 := Z.max e' (fexp prec emax (Zdigits2 q + e'))) in *.
    set (m1 := q / 2 ^ (e1 - e')) in *.
    assert (Hn : 0 <= e1 - e') by (unfold e1; lia).
    assert (Hm1 : 0 <= m1).
    { unfold m1. apply Z.div_pos; [ lia | apply Z.pow_pos_nonneg; lia ]. }
    destruct (floor_scale q (e1 - e') e' Hq Hn) as [Hfl _].
    replace (e' + (e1 - e')) with e1 in Hfl by lia. fold m1 in Hfl.
    assert (Hlow : (inject_Z m1 * pow2 e1 < 1)%Q) by lra.
    assert (He1 : e1 <= 0).
    { destruct (Z.eq_dec q 0) as [Hq0 | Hq0].
      - subst q. simpl Zdigits2 in *. unfold e1, fexp, emin, prec, emax in *. lia.
      - destruct q as [| pq | pq]; try lia.
        destruct (pos_value_bounds pq e') as [Hvl _].
        assert (Hd : Zdigits2 (Zpos pq) - 1 + e' < 0).
        { apply pow2_lt_inv. change (pow2 0) with 1%Q. lra. }
        unfold e1, fexp, emin, prec, emax in *. lia. }
    assert (Hone : (inject_Z (2 ^ (- e1)) * pow2 e1 == 1)%Q).
    { rewrite <- pow2_Z, <- pow2_add by lia.
      replace (- e1 + e1) with 0 by lia. reflexivity. }
    pose proof (pow2_pos e1) as Hp1.
    assert (Hm1lt : m1 < 2 ^ (- e1)).
    { rewrite Zlt_Qlt. apply (Qmult_pos_lt_reg _ _ (pow2 e1) Hp1). lra. }
    assert (Hup : (inject_Z (m1 + 1) * pow2 e1 <= 1)%Q).
    { rewrite <- Hone. apply inject_Z_le_mul; [ lia | lra ]. }
    destruct Hgrid as [[_ Hbig] | (Hg & _ & Hhi')].
    + unfold prec, emax in Hbig. lia.
    + split; [ exact Hg | lra ].
  - assert (Heq : (F2Q a == F2Q b)%Q) by lra.
    unfold a, b. rewrite (fdiv_same_value_Z ma mb ea eb (same_value_Z ma mb ea eb Heq)).
    split; [ | rewrite F2Q_float_one; lra ].
    cbn [nonneg_good float_one]. unfold emin, prec, emax. lia.
Qed.

Local Open Scope string_scope.

(** ** The weights of the capital structure *)

Lemma fadd_comm (a b : float) : fadd a b = fadd b a.
Proof.
  destruct a as [sa | sa | | sa ma ea], b as [sb | sb | | sb mb eb];
    try reflexivity; try (destruct sa, sb; reflexivity).
  unfold fadd. cbn [SFadd]. rewrite (Z.min_comm eb ea). f_equal. apply Z.add_comm.
Qed.

Lemma positive_finite_inv (x : float) :
  fgt x pzero = true -> is_finite x = true ->
  exists m e, x = S754_finite false m e.
Proof.
  destruct x as [s | s | | s m e]; try destruct s; simpl; try discriminate.
  intros _ _. exists m, e. reflexivity.
Qed.

Lemma weight_unit (E D : float) :
  valid_binary prec emax E = true -> valid_binary prec emax D = true ->
  nonneg_good E -> nonneg_good D ->
  fgt (fadd E D) pzero = true ->
  nonneg_good (fdiv E (fadd E D)) /\ (F2Q (fdiv E (fadd E D)) <= 1)%Q.
Proof.
  intros HvE HvD HE HD Hpos.
  destruct E as [sa | sa | | [|] ma ea]; try contradiction;
    destruct D as [sb | sb | | [|] mb eb]; try contradiction.
  - destruct sa, sb; discriminate.
  - change (fadd (S754_zero sa) (S754_finite false mb eb))
      with (S754_finite false mb eb).
    change (fdiv (S754_zero sa) (S754_finite false mb eb))
      with (S754_zero (xorb sa false)).
    cbn [nonneg_good F2Q]. split; [ exact I | lra ].
  - change (fadd (S754_finite false ma ea) (S754_zero sb))
      with (S754_finite false ma ea).
    rewrite fdiv_self. split; [ | rewrite F2Q_float_one; lra ].
    cbn [nonneg_good float_one]. unfold emin, prec, emax. lia.
  - destruct (fadd_pos_ge ma mb ea eb HvE HvD) as [Hinf | (Hg & Hle & _)].
    + rewrite Hinf.
      change (fdiv (S754_finite false ma ea) (S754_infinity false))
        with (S754_zero false).
      cbn [nonneg_good F2Q]. split; [ exact I | lra ].
    + destruct (positive_finite _ Hg Hpos) as (mV & eV & HV & _).
      rewrite HV in Hle |- *. apply fdiv_le_one. exact Hle.
Qed.

Lemma nullish_not_number (v : jsval) : nullish v = true -> typeof_number v = false.
Proof. destruct v; simpl; congruence. Qed.

Lemma weightE_local (f : form) (r : option (gmap string jsval)) :
  nullish (opt_get r "weightE") = true ->
  weightE f r =
  JSNumber (if fgt (V_rupees f) pzero then fdiv (E_rupees f) (V_rupees f) else pzero).
Proof.
  intros H. unfold weightE, weightE_input. rewrite (nullish_not_number _ H).
  destruct (fgt (V_rupees f) pzero); [ reflexivity | ].
  unfold coalesce at 2. cbn [nullish]. unfold coalesce. rewrite H. reflexivity.
Qed.

Lemma weightD_local (f : form) (r : option (gmap string jsval)) :
  nullish (opt_get r "weightD") = true ->
  weightD f r =
  JSNumber (if fgt (V_rupees f) pzero then fdiv (D_rupees f) (V_rupees f) else pzero).
Proof.
  intros H. unfold weightD, weightD_input. rewrite (nullish_not_number _ H).
  destruct (fgt (V_rupees f) pzero); [ reflexivity | ].
  unfold coalesce at 2. cbn [nullish]. unfold coalesce. rewrite H. reflexivity.
Qed.

(** X15. As long as the response carries no weights, and with equity and
    debt finite and not negative, both weights are finite numbers
    between 0 and 1, however the quotients are rounded and also when the
    sum of equity and debt overflows. *)
Theorem weights_in_unit_interval (f : form) (r : option (gmap string jsval)) :
  is_finite (E_rupees f) = true -> fge (E_rupees f) pzero = true ->
  is_finite (D_rupees f) = true -> fge (D_rupees f) pzero = true ->
  nullish (opt_get r "weightE") = true ->
  nullish (opt_get r "weightD") = true ->
  exists wE wD : float,
    weightE f r = JSNumber wE /\ weightD f r = JSNumber wD /\
    is_finite wE = true /\ (0 <= F2Q wE <= 1)%Q /\
    is_finite wD = true /\ (0 <= F2Q wD <= 1)%Q.
Proof.
  intros HfE HE HfD HD HrE HrD.
  pose proof (nonneg_good_intro _ (E_rupees_good f) HE HfE) as HgE.
  pose proof (nonneg_good_intro _ (D_rupees_good f) HD HfD) as HgD.
  pose proof (croreToNumber_valid (equityValue f)) as HvE.
  pose proof (croreToNumber_valid (debtValue f)) as HvD.
  fold (E_rupees f) in HvE. fold (D_rupees f) in HvD.
  rewrite (weightE_local f r HrE), (weightD_local f r HrD). unfold V_rupees.
  eexists _, _. split; [ reflexivity | split; [ reflexivity | ] ].
  destruct (fgt (fadd (E_rupees f) (D_rupees f)) pzero) eqn:Hpos.
  - destruct (weight_unit _ _ HvE HvD HgE HgD Hpos) as [H1 H2].
    assert (Hpos' : fgt (fadd (D_rupees f) (E_rupees f)) pzero = true)
      by (rewrite fadd_comm; exact Hpos).
    destruct (weight_unit _ _ HvD HvE HgD HgE Hpos') as [H3 H4].
    rewrite (fadd_comm (D_rupees f)) in H3, H4.
    pose proof (nonneg_good_F2Q _ H1). pose proof (nonneg_good_F2Q _ H3).
    repeat split; auto using nonneg_good_finite.
  - cbn [is_finite pzero F2Q]. repeat split; lra.
Qed.

Lemma weights_in_unit_interval_witness :
  exists wE wD : float,
    weightE huge_form None = JSNumber wE /\ weightD huge_form None = JSNumber wD /\
    is_finite wE = true /\ (0 <= F2Q wE <= 1)%Q /\
    is_finite wD = true /\ (0 <= F2Q wD <= 1)%Q.
Proof.
  apply (weights_in_unit_interval huge_form None); vm_compute; reflexivity.
Defined.

(** X16. Exchanging the texts of equity and debt exchanges the two
    weights derived from the inputs. *)
Theorem swap_form_weights (f : form) :
  weightE_input (swap_form f) = weightD_input f /\
  weightD_input (swap_form f) = weightE_input f.
Proof.
  unfold weightE_input, weightD_input, V_rupees.
  change (E_rupees (swap_form f)) with (D_rupees f).
  change (D_rupees (swap_form f)) with (E_rupees f).
  rewrite (fadd_comm (D_rupees f) (E_rupees f)). split; reflexivity.
Qed.

(** ** A capital structure with one component only *)

Lemma fadd_zero_r (x : float) (s : bool) :
  x <> S754_zero true -> fadd x (S754_zero s) = x.
Proof.
  destruct x as [sx | sx | | sx m e]; try reflexivity.
  destruct sx, s; try reflexivity; intros H; contradiction H; reflexivity.
Qed.

Lemma fadd_zero_l (x : float) (s : bool) :
  x <> S754_zero true -> fadd (S754_zero s) x = x.
Proof. intros H. rewrite fadd_comm. apply fadd_zero_r. exact H. Qed.

Lemma fmul_zero_finite (s : bool) (x : float) :
  is_finite x = true -> exists s', fmul (S754_zero s) x = S754_zero s'.
Proof.
  destruct x as [sx | sx | | sx m e]; simpl; try discriminate;
    intros _; eexists; reflexivity.
Qed.

Lemma rate_dec_local_valid (r : option (gmap string jsval)) (k text : string) (x : float) :
  nullish (opt_get r k) = true ->
  rate_dec r k text = JSNumber x -> valid_binary prec emax x = true.
Proof.
  intros Hn. unfold rate_dec, coalesce. rewrite Hn.
  destruct (truthy (JSString text)); [ | discriminate ].
  intros H. injection H as <-. apply fdiv_valid.
Qed.

Lemma no_debt_weights (f : form) (r : option (gmap string jsval)) :
  fgt (E_rupees f) pzero = true -> is_finite (E_rupees f) = true ->
  SFeqb (D_rupees f) pzero = true ->
  nullish (opt_get r "weightE") = true ->
  nullish (opt_get r "weightD") = true ->
  weightE f r = JSNumber float_one /\
  exists s, weightD f r = JSNumber (S754_zero s).
Proof.
  intros Hpos Hfin Hz HrE HrD.
  destruct (positive_finite_inv _ Hpos Hfin) as (m & e & HE).
  destruct (SFeqb_zero_inv _ Hz) as (s & HD).
  rewrite (weightE_local f r HrE), (weightD_local f r HrD).
  unfold V_rupees. rewrite HE, HD.
  change (fadd (S754_finite false m e) (S754_zero s)) with (S754_finite false m e).
  change (fgt (S754_finite false m e) pzero) with true. cbv iota.
  rewrite fdiv_self. split; [ reflexivity | ].
  exists (xorb s false). reflexivity.
Qed.

Lemma no_equity_weights (f : form) (r : option (gmap string jsval)) :
  fgt (D_rupees f) pzero = true -> is_finite (D_rupees f) = true ->
  SFeqb (E_rupees f) pzero = true ->
  nullish (opt_get r "weightE") = true ->
  nullish (opt_get r "weightD") = true ->
  weightD f r = JSNumber float_one /\
  exists s, weightE f r = JSNumber (S754_zero s).
Proof.
  intros Hpos Hfin Hz HrE HrD.
  destruct (positive_finite_inv _ Hpos Hfin) as (m & e & HD).
  destruct (SFeqb_zero_inv _ Hz) as (s & HE).
  rewrite (weightE_local f r HrE), (weightD_local f r HrD).
  unfold V_rupees. rewrite HE, HD.
  change (fadd (S754_zero s) (S754_finite false m e)) with (S754_finite false m e).
  change (fgt (S754_finite false m e) pzero) with true. cbv iota.
  rewrite fdiv_self. split; [ reflexivity | ].
  exists (xorb s false). reflexivity.
Qed.

(** X17. Without debt, and as long as the response carries neither
    weights nor a cost of equity, the weight of equity is exactly 1 and
    the WACC computed locally is exactly the cost of equity [Re] (other
    than a negative zero), provided the cost of debt and [1 - Tc], where
    both are numbers, are finite. *)
Theorem no_debt_wacc (f : form) (r : option (gmap string jsval)) (re_ : float) :
  fgt (E_rupees f) pzero = true -> is_finite (E_rupees f) = true ->
  SFeqb (D_rupees f) pzero = true ->
  nullish (opt_get r "weightE") = true ->
  nullish (opt_get r "weightD") = true ->
  nullish (opt_get r "re") = true ->
  Re_dec f r = JSNumber re_ -> re_ <> S754_zero true ->
  (forall d t : float,
     Rd_dec f r = JSNumber d -> Tc_dec f r = JSNumber t ->
     is_finite d = true /\ is_finite (fsub (of_Z 1) t) = true) ->
  weightE f r = JSNumber float_one /\ waccComputed f r = re_.
Proof.
  intros Hpos Hfin Hz HrE HrD Hrr HRe Hr Hdebt.
  destruct (no_debt_weights f r Hpos Hfin Hz HrE HrD) as [HwE [s HwD]].
  split; [ exact HwE | ].
  pose proof (rate_dec_local_valid _ _ _ _ Hrr HRe) as Hv.
  unfold waccComputed. rewrite HwE, HwD, HRe.
  cbn [typeof_number andb]. unfold js_mul, js_sub. cbn [Number_].
  rewrite (fmul_one_l re_ Hv).
  destruct (Rd_dec f r) as [| | | d |] eqn:HRd;
    try (cbn [typeof_number andb]; apply fadd_zero_r; exact Hr).
  destruct (Tc_dec f r) as [| | | t |] eqn:HTc;
    try (cbn [typeof_number andb]; apply fadd_zero_r; exact Hr).
  destruct (Hdebt d t eq_refl eq_refl) as [Hd Ht].
  cbn [typeof_number andb Number_].
  destruct (fmul_zero_finite s d Hd) as [s1 ->].
  destruct (fmul_zero_finite s1 _ Ht) as [s2 ->].
  apply fadd_zero_r. exact Hr.
Qed.

Lemma no_debt_wacc_witness :
  weightE equity_only_form None = JSNumber float_one /\
  waccComputed equity_only_form None
    = fdiv (StringToNumber "12") (of_Z 100).
Proof.
  apply (no_debt_wacc equity_only_form None); try (vm_compute; reflexivity).
  - vm_compute. discriminate.
  - intros d t Hd Ht. vm_compute in Hd, Ht.
    injection Hd as <-. injection Ht as <-. vm_compute. split; reflexivity.
Defined.

(** X18. Without equity, and as long as the response carries neither
    weights nor a cost of debt, the weight of debt is exactly 1 and the
    WACC computed locally is exactly the after-tax cost of debt
    [Rd * (1 - Tc)] (other than a negative zero), provided the cost of
    equity, where it is a number, is finite. *)
Theorem no_equity_wacc (f : form) (r : option (gmap string jsval)) (d t : float) :
  fgt (D_rupees f) pzero = true -> is_finite (D_rupees f) = true ->
  SFeqb (E_rupees f) pzero = true ->
  nullish (opt_get r "weightE") = true ->
  nullish (opt_get r "weightD") = true ->
  nullish (opt_get r "rd") = true ->
  Rd_dec f r = JSNumber d -> Tc_dec f r = JSNumber t ->
  fmul d (fsub (of_Z 1) t) <> S754_zero true ->
  (forall re_ : float, Re_dec f r = JSNumber re_ -> is_finite re_ = true) ->
  weightD f r = JSNumber float_one /\
  waccComputed f r = fmul d (fsub (of_Z 1) t).
Proof.
  intros Hpos Hfin Hz HrE HrD Hrr HRd HTc Hnz Hequity.
  destruct (no_equity_weights f r Hpos Hfin Hz HrE HrD) as [HwD [s HwE]].
  split; [ exact HwD | ].
  pose proof (rate_dec_local_valid _ _ _ _ Hrr HRd) as Hv.
  unfold waccComputed. rewrite HwE, HwD, HRd, HTc.
  cbn [typeof_number andb]. unfold js_mul, js_sub. cbn [Number_].
  rewrite (fmul_one_l d Hv).
  destruct (Re_dec f r) as [| | | re_ |] eqn:HRe;
    try (apply fadd_zero_l; exact Hnz).
  cbn [typeof_number Number_].
  destruct (fmul_zero_finite s re_ (Hequity re_ eq_refl)) as [s1 ->].
  apply fadd_zero_l. exact Hnz.
Qed.

Lemma no_equity_wacc_witness :
  weightD debt_only_form None = JSNumber float_one /\
  waccComputed debt_only_form None
    = fmul (fdiv (StringToNumber "5") (of_Z 100))
           (fsub (of_Z 1) (fdiv (StringToNumber "25") (of_Z 100))).
Proof.
  apply (no_equity_wacc debt_only_form None); try (vm_compute; reflexivity).
  - vm_compute. discriminate.
  - intros re_ Hr. vm_compute in Hr. injection Hr as <-. reflexivity.
Defined.
